(** * LinguaFlow: record store, query engine, scheduler and backup protocol

    A shallow embedding of [src/services/db.ts] (the [DatabaseService] over
    IndexedDB) and of the store operations of [AppContext.tsx], followed by
    the properties of the specification that concern them.

    Conventions of the embedding:
    - a JavaScript [string] is a Rocq [string]; [number] fields that hold
      counters and millisecond timestamps are [Z] (the exact-integer reading of
      doubles, valid below 2^53); where the scheduler computes beyond that
      bound its operations are rounded to doubles ([JS.plus], [JS.times],
      [JS.pow2]), with [Infinity] written [2^1024];
    - an IndexedDB object store with [keyPath: 'id'] is a [gmap string V]
      together with the function that extracts the key from a record;
    - [Date.now()] and [nanoid()] are inputs of the operations that call them;
    - [String.prototype.localeCompare] depends on the locale of the runtime and
      is a parameter of the query engine. *)

From Stdlib Require Import ZArith Lia Ascii String.
From stdpp Require Import base option list gmap strings sorting pretty.

Local Open Scope Z_scope.

(** ** JavaScript built-ins used by the code *)

Module JS.

(** [String.prototype.toLowerCase], on the ASCII letters. Characters outside
    [A-Z] are returned unchanged, which is what the runtime does for digits,
    punctuation and caseless scripts such as Persian. *)
Definition lowerChar (c : ascii) : ascii :=
  let n := N_of_ascii c in
  if ((65 <=? n) && (n <=? 90))%N then ascii_of_N (n + 32) else c.

Fixpoint toLowerCase (s : string) : string :=
  match s with
  | EmptyString => EmptyString
  | String c s' => String (lowerChar c) (toLowerCase s')
  end.

(** [s.includes(q)]: [q] occurs in [s] as a contiguous substring. *)
Fixpoint includes (s q : string) : bool :=
  String.prefix q s ||
  match s with
  | EmptyString => false
  | String _ s' => includes s' q
  end.

(** Truthiness of an optional string ([undefined] and [''] are falsy) and of
    an optional number ([undefined] and [0] are falsy). *)
Definition truthyStr (o : option string) : bool :=
  match o with
  | Some s => negb (String.eqb s "")
  | None => false
  end.

Definition truthyNum (o : option Z) : bool :=
  match o with
  | Some n => negb (n =? 0)
  | None => false
  end.

(** Numbers are IEEE 754 doubles. The numbers that the scheduler computes
    with are integers; an integer is a double when it has at most 53
    significant bits, and the result of [+], [*] and [Math.pow] is the exact
    result rounded to the nearest double, a tie going to the even
    significand. Rounding yields [Infinity] from [2^1024 - 2^970] on;
    [Infinity] is written [2^1024] here, which is above every finite
    double. *)
Definition Infinity : Z := 2 ^ 1024.

(** Rounding of a non-negative integer: the 53 leading bits [q] are kept, and
    the rest [r] decides whether [q] is incremented. *)
Definition roundMagnitude (z : Z) : Z :=
  let e := Z.log2 z in
  if e <? 53 then z
  else
    let sh := e - 52 in
    let q := Z.shiftr z sh in
    let r := z - Z.shiftl q sh in
    let half := 2 ^ (sh - 1) in
    let q' := if (half <? r) || ((r =? half) && Z.odd q) then q + 1 else q in
    Z.min (Z.shiftl q' sh) Infinity.

Definition roundNumber (z : Z) : Z :=
  if z <? 0 then - roundMagnitude (- z) else roundMagnitude z.

(** [a + b] and [a * b] on numbers above [-Infinity] ([Infinity] is met
    here only with a finite summand and with a positive factor). *)
Definition plus (a b : Z) : Z :=
  if Infinity <=? a then a
  else if Infinity <=? b then b
  else roundNumber (a + b).

Definition times (a b : Z) : Z := roundNumber (a * b).

(** [Math.pow(2, n)] for an integer [n >= 0]: a power of two is a double up
    to [2^1023]. *)
Definition pow2 (n : Z) : Z := if 1024 <=? n then Infinity else 2 ^ n.

(** [Array.prototype.slice(start, end)]: negative arguments count from the
    end of the array, both are clamped to [0 .. length]. *)
Definition relIndex (len i : Z) : Z :=
  if i <? 0 then Z.max (len + i) 0 else Z.min i len.

Definition slice {A} (start end_ : Z) (l : list A) : list A :=
  let len := Z.of_nat (length l) in
  let k := relIndex len start in
  let final := relIndex len end_ in
  take (Z.to_nat (final - k)) (drop (Z.to_nat k) l).

(** [Array.prototype.sort(cmp)] is stable (ECMAScript 2019). [before a b]
    stands for [cmp(a, b) <= 0]; for a consistent comparator the result of a
    stable sort is unique, and it is computed here by insertion from the
    right. *)
Section Sort.
Context {A : Type} (before : A → A → bool).

Fixpoint insertSorted (x : A) (l : list A) : list A :=
  match l with
  | [] => [x]
  | y :: l' => if before x y then x :: y :: l' else y :: insertSorted x l'
  end.

Fixpoint sort (l : list A) : list A :=
  match l with
  | [] => []
  | x :: l' => insertSorted x (sort l')
  end.

End Sort.

(** [Array.prototype.find]. *)
Fixpoint find {A} (p : A → bool) (l : list A) : option A :=
  match l with
  | [] => None
  | x :: l' => if p x then Some x else find p l'
  end.

End JS.

(** ** The data model ([types.ts]) *)

Module AnalysisType.
Inductive t := vocabulary | grammar | literary | historical.

Definition to_string (a : t) : string :=
  match a with
  | vocabulary => "vocabulary"
  | grammar => "grammar"
  | literary => "literary"
  | historical => "historical"
  end.
End AnalysisType.

Module WordAnalysis.
Record t := mk {
  type : AnalysisType.t;
  word : string;
  lemma : string;
  phonetic : option string;
  partOfSpeech : option string;
  collocations : list string;
  context : string;
  level : string;
  definition : string;
  persianTranslation : string;
  exampleSentence : string
}.
End WordAnalysis.

(** [interface Flashcard extends WordAnalysis]: the inherited fields are the
    component [analysis]. *)
Module Flashcard.
Record t := mk {
  analysis : WordAnalysis.t;
  id : string;
  articleId : string;
  nextReview : Z;
  stage : Z;
  createdAt : Z
}.

Definition type (c : t) : string := AnalysisType.to_string (WordAnalysis.type (analysis c)).
Definition word (c : t) : string := WordAnalysis.word (analysis c).
Definition level (c : t) : string := WordAnalysis.level (analysis c).
Definition persianTranslation (c : t) : string := WordAnalysis.persianTranslation (analysis c).
End Flashcard.

(** A segment as it is stored: [addArticle] writes
    [{ ...segment, articleId: article.id }], the copies kept inside an
    [Article] have no [articleId]. *)
Module ArticleSegment.
Record t := mk {
  id : string;
  index : Z;
  title : string;
  content : string;
  analyzedWords : list WordAnalysis.t;
  approvedWordIds : list string;
  persianTranslation : option string;
  isAnalyzed : bool;
  articleId : option string
}.
End ArticleSegment.

Module Article.
Record t := mk {
  id : string;
  title : string;
  segments : list ArticleSegment.t;
  collectionId : option string;
  processedAt : Z
}.
End Article.

Module Collection.
Record t := mk {
  id : string;
  name : string;
  description : option string;
  coverImage : option string
}.
End Collection.

Module AppSettings.
Inductive engine := gemini | native.

Record t := mk {
  analysisModel : string;
  translationModel : string;
  ttsModel : string;
  pronunciationModel : string;
  ttsEngine : engine;
  segmentLength : Z;
  enabledTypes : list AnalysisType.t
}.
End AppSettings.

(** [Partial<AppSettings>]: an absent property is [None]. The record of the
    settings store and the [settings] of a backup document are of this kind:
    they are read from IndexedDB and from a parsed file, and nothing checks
    that a property is there. *)
Module PartialSettings.
Record t := mk {
  analysisModel : option string;
  translationModel : option string;
  ttsModel : option string;
  pronunciationModel : option string;
  ttsEngine : option AppSettings.engine;
  segmentLength : option Z;
  enabledTypes : option (list AnalysisType.t)
}.

(** The record that has every property of [s]. *)
Definition full (s : AppSettings.t) : t :=
  mk (Some (AppSettings.analysisModel s)) (Some (AppSettings.translationModel s))
     (Some (AppSettings.ttsModel s)) (Some (AppSettings.pronunciationModel s))
     (Some (AppSettings.ttsEngine s)) (Some (AppSettings.segmentLength s))
     (Some (AppSettings.enabledTypes s)).

(** [{ ...s, ...p }]. *)
Definition spread (s : AppSettings.t) (p : t) : AppSettings.t :=
  AppSettings.mk
    (default (AppSettings.analysisModel s) (analysisModel p))
    (default (AppSettings.translationModel s) (translationModel p))
    (default (AppSettings.ttsModel s) (ttsModel p))
    (default (AppSettings.pronunciationModel s) (pronunciationModel p))
    (default (AppSettings.ttsEngine s) (ttsEngine p))
    (default (AppSettings.segmentLength s) (segmentLength p))
    (default (AppSettings.enabledTypes s) (enabledTypes p)).
End PartialSettings.

(** ** Object stores with [keyPath: 'id'] and their indexes *)

Class Keyed (V : Type) := keyOf : V → string.

#[export] Instance article_keyed : Keyed Article.t := Article.id.
#[export] Instance segment_keyed : Keyed ArticleSegment.t := ArticleSegment.id.
#[export] Instance flashcard_keyed : Keyed Flashcard.t := Flashcard.id.
#[export] Instance collection_keyed : Keyed Collection.t := Collection.id.

Module IDB.
Section Store.
Context {V : Type} `{Keyed V}.

(** [store.put(v)]: upsert under the key read from the record. *)
Definition put (v : V) (m : gmap string V) : gmap string V := <[keyOf v := v]> m.

(** [store.get(k)]. *)
Definition get (k : string) (m : gmap string V) : option V := m !! k.

(** [for (const item of items) await store.put(item)]. *)
Definition putAll (items : list V) (m : gmap string V) : gmap string V :=
  foldl (λ acc v, put v acc) m items.

(** [store.getAll()]: every record, in ascending order of primary key
    (strings compare by code unit). *)
Definition getAll (m : gmap string V) : list V :=
  JS.sort (λ a b, String.leb (keyOf a) (keyOf b)) ((map_to_list m).*2).

(** The order of index entries and the test of a key range; a record whose
    key path yields no key ([None]) is not in the index. *)
Definition keyBefore {K} (kleb : K → K → bool) (a b : option K) : bool :=
  match a, b with
  | Some x, Some y => kleb x y
  | None, _ => true
  | Some _, None => false
  end.

Definition inRange {K} (range : K → bool) (k : option K) : bool :=
  match k with
  | Some x => range x
  | None => false
  end.

(** [getAllFromIndex(store, index, query)]: the records whose index key lies
    in the queried range, in ascending order of index key and, among equal
    index keys, of primary key. *)
Definition getAllFromIndex {K} (ikey : V → option K) (kleb : K → K → bool)
    (range : K → bool) (m : gmap string V) : list V :=
  filter (λ v, inRange range (ikey v))
    (JS.sort (λ a b, keyBefore kleb (ikey a) (ikey b)) (getAll m)).

(** The invariant of a [keyPath] store: a record sits under its own id. *)
Definition keyed_wf (m : gmap string V) : Prop :=
  map_Forall (λ k v, keyOf v = k) m.

#[export] Instance keyed_wf_dec (m : gmap string V) : Decision (keyed_wf m).
Proof. unfold keyed_wf. apply _. Defined.

End Store.

(** [IDBKeyRange.only(k)] on string keys and [IDBKeyRange.upperBound(n)] on
    numbers. *)
Definition only (k : string) : string → bool := String.eqb k.
Definition onlyNum (n : Z) : Z → bool := Z.eqb n.
Definition upperBound (n : Z) : Z → bool := λ x, x <=? n.

End IDB.

(** ** The database ([services/db.ts]) *)

(** The five object stores. Every write to the [settings] store goes through
    [{ ...settings, id: 'config' }], so that store holds at most the one
    record under the key ['config']; an import writes there whatever
    properties the document has. *)
Record DB := mkDB {
  articles : gmap string Article.t;
  segments : gmap string ArticleSegment.t;
  flashcards : gmap string Flashcard.t;
  settings : option PartialSettings.t;
  collections : gmap string Collection.t
}.

Definition emptyDB : DB := mkDB ∅ ∅ ∅ None ∅.

Definition db_wf (db : DB) : Prop :=
  IDB.keyed_wf (articles db) ∧ IDB.keyed_wf (segments db) ∧
  IDB.keyed_wf (flashcards db) ∧ IDB.keyed_wf (collections db).

Definition set_segments (f : gmap string ArticleSegment.t → gmap string ArticleSegment.t)
    (db : DB) : DB :=
  mkDB (articles db) (f (segments db)) (flashcards db) (settings db) (collections db).

Definition set_flashcards (f : gmap string Flashcard.t → gmap string Flashcard.t)
    (db : DB) : DB :=
  mkDB (articles db) (segments db) (f (flashcards db)) (settings db) (collections db).

(** The criteria object of [queryFlashcards]; an absent property is [None]. *)
Module Criteria.
Record t := mk {
  articleId : option string;
  type : option string;
  level : option string;
  search : option string;
  limit : option Z;
  offset : option Z
}.

Definition withLimit (f : t) (n : Z) : t :=
  mk (articleId f) (type f) (level f) (search f) (Some n) (offset f).
End Criteria.

(** The backup document read and written by export and import. *)
Module Backup.
Record t := mk {
  version : Z;
  timestamp : Z;
  articles : option (list Article.t);
  segments : option (list ArticleSegment.t);
  flashcards : option (list Flashcard.t);
  settings : option PartialSettings.t;
  collections : option (list Collection.t)
}.
End Backup.

Module DatabaseService.

Definition getSettings (db : DB) : option PartialSettings.t := settings db.

(** [put('settings', { ...settings, id: 'config' })]. *)
Definition saveSettings (s : AppSettings.t) (db : DB) : DB :=
  mkDB (articles db) (segments db) (flashcards db) (Some (PartialSettings.full s))
    (collections db).

Definition getArticles (db : DB) : list Article.t :=
  IDB.getAllFromIndex (λ a, Some (Article.processedAt a)) Z.leb (λ _, true) (articles db).

Definition getSegment (articleId : string) (index : Z) (db : DB) : option ArticleSegment.t :=
  let segs := IDB.getAllFromIndex ArticleSegment.articleId String.leb
                (IDB.only articleId) (segments db) in
  JS.find (λ s, ArticleSegment.index s =? index) segs.

Definition updateSegment (segment : ArticleSegment.t) (db : DB) : DB :=
  set_segments (IDB.put segment) db.

Definition addFlashcards (cards : list Flashcard.t) (db : DB) : DB :=
  set_flashcards (IDB.putAll cards) db.

Definition updateFlashcard (card : Flashcard.t) (db : DB) : DB :=
  set_flashcards (IDB.put card) db.

Definition getFlashcard (id : string) (db : DB) : option Flashcard.t :=
  IDB.get id (flashcards db).

(** The flashcard indexes created in [upgrade]. *)
Definition by_article (key : string) (db : DB) : list Flashcard.t :=
  IDB.getAllFromIndex (λ c, Some (Flashcard.articleId c)) String.leb (IDB.only key) (flashcards db).

Definition by_type (key : string) (db : DB) : list Flashcard.t :=
  IDB.getAllFromIndex (λ c, Some (Flashcard.type c)) String.leb (IDB.only key) (flashcards db).

Definition by_level (key : string) (db : DB) : list Flashcard.t :=
  IDB.getAllFromIndex (λ c, Some (Flashcard.level c)) String.leb (IDB.only key) (flashcards db).

Definition by_stage (range : Z → bool) (db : DB) : list Flashcard.t :=
  IDB.getAllFromIndex (λ c, Some (Flashcard.stage c)) Z.leb range (flashcards db).

Definition by_review (range : Z → bool) (db : DB) : list Flashcard.t :=
  IDB.getAllFromIndex (λ c, Some (Flashcard.nextReview c)) Z.leb range (flashcards db).

Definition getDueFlashcards (now : Z) (limit : option Z) (db : DB) : list Flashcard.t :=
  let allDue := by_review (IDB.upperBound now) db in
  JS.slice 0 (default 50 limit) allDue.

Definition getNewFlashcards (limit : option Z) (db : DB) : list Flashcard.t :=
  let allNew := by_stage (IDB.onlyNum 0) db in
  JS.slice 0 (default 50 limit) allNew.

Definition getAllFlashcardsCount (db : DB) : nat := size (flashcards db).

(** [x && x !== 'all']: the criterion is given and is not the sentinel. *)
Definition selective (o : option string) : bool :=
  JS.truthyStr o && negb (String.eqb (default "" o) "all").

(** The callback of [results.filter] in [queryFlashcards]. *)
Definition residual (criteria : Criteria.t) (c : Flashcard.t) : bool :=
  let m1 :=
    if selective (Criteria.articleId criteria)
       && negb (String.eqb (Flashcard.articleId c) (default "" (Criteria.articleId criteria)))
    then false else true in
  let m2 :=
    if selective (Criteria.type criteria)
       && negb (String.eqb (Flashcard.type c) (default "" (Criteria.type criteria)))
    then false else m1 in
  let m3 :=
    if selective (Criteria.level criteria)
       && negb (String.eqb (Flashcard.level c) (default "" (Criteria.level criteria)))
    then false else m2 in
  if JS.truthyStr (Criteria.search criteria) then
    let q := JS.toLowerCase (default "" (Criteria.search criteria)) in
    if negb (JS.includes (JS.toLowerCase (Flashcard.word c)) q)
       && negb (JS.includes (Flashcard.persianTranslation c) q)
    then false else m3
  else m3.

(** The index, or the full scan, that seeds the candidates. *)
Definition seed (criteria : Criteria.t) (db : DB) : list Flashcard.t :=
  if selective (Criteria.articleId criteria) then
    by_article (default "" (Criteria.articleId criteria)) db
  else if selective (Criteria.type criteria) then
    by_type (default "" (Criteria.type criteria)) db
  else if selective (Criteria.level criteria) then
    by_level (default "" (Criteria.level criteria)) db
  else IDB.getAll (flashcards db).

Section Query.
(** [a.localeCompare(b)]: negative, zero or positive. *)
Variable localeCompare : string → string → Z.

Definition byWord (a b : Flashcard.t) : bool :=
  localeCompare (Flashcard.word a) (Flashcard.word b) <=? 0.

(** [queryFlashcards] before the final [slice]. *)
Definition queryResults (criteria : Criteria.t) (db : DB) : list Flashcard.t :=
  JS.sort byWord (filter (λ c, residual criteria c) (seed criteria db)).

Definition queryFlashcards (criteria : Criteria.t) (db : DB) : list Flashcard.t :=
  let results := queryResults criteria db in
  let start := default 0 (Criteria.offset criteria) in
  let end_ :=
    if JS.truthyNum (Criteria.limit criteria)
    then start + default 0 (Criteria.limit criteria)
    else Z.of_nat (length results) in
  JS.slice start end_ results.

End Query.

Definition exportDatabase (now : Z) (db : DB) : Backup.t :=
  Backup.mk 1 now
    (Some (IDB.getAll (articles db)))
    (Some (IDB.getAll (segments db)))
    (Some (IDB.getAll (flashcards db)))
    (settings db)
    (Some (IDB.getAll (collections db))).

(** [if (data.kind) for (const item of data.kind) put(item)]. *)
Definition importKind {V} `{Keyed V} (items : option (list V)) (m : gmap string V) : gmap string V :=
  match items with
  | Some l => IDB.putAll l m
  | None => m
  end.

Definition importDatabase (data : Backup.t) (db : DB) : DB :=
  mkDB (importKind (Backup.articles data) (articles db))
       (importKind (Backup.segments data) (segments db))
       (importKind (Backup.flashcards data) (flashcards db))
       (match Backup.settings data with
        | Some s => Some s
        | None => settings db
        end)
       (importKind (Backup.collections data) (collections db)).

End DatabaseService.

(** ** The store operations of the application ([AppContext.tsx]) *)

Module AppContext.
Import DatabaseService.

(** What the environment hands to one new flashcard: the result of
    [nanoid()] and of the two calls of [Date.now()]. *)
Record Fresh := mkFresh {
  newId : string;
  reviewClock : Z;
  createdClock : Z
}.

(** [{ ...w, id: nanoid(), articleId, nextReview: Date.now(), stage: 0,
    createdAt: Date.now() }]. *)
Definition newCard (articleId : string) (w : WordAnalysis.t) (f : Fresh) : Flashcard.t :=
  Flashcard.mk w (newId f) articleId (reviewClock f) 0 (createdClock f).

(** [selectedLemmas.includes(l)]. *)
Definition includesLemma (selectedLemmas : list string) (l : string) : bool :=
  existsb (String.eqb l) selectedLemmas.

Definition withApproved (s : ArticleSegment.t) (approved : list string) : ArticleSegment.t :=
  ArticleSegment.mk (ArticleSegment.id s) (ArticleSegment.index s) (ArticleSegment.title s)
    (ArticleSegment.content s) (ArticleSegment.analyzedWords s) approved
    (ArticleSegment.persianTranslation s) (ArticleSegment.isAnalyzed s)
    (ArticleSegment.articleId s).

Definition withWords (s : ArticleSegment.t) (words : list WordAnalysis.t)
    (approved : list string) : ArticleSegment.t :=
  ArticleSegment.mk (ArticleSegment.id s) (ArticleSegment.index s) (ArticleSegment.title s)
    (ArticleSegment.content s) words approved
    (ArticleSegment.persianTranslation s) (ArticleSegment.isAnalyzed s)
    (ArticleSegment.articleId s).

(** [fresh i] is what the environment supplies for the [i]-th new card. *)
Definition approveWordsForSegment (fresh : nat → Fresh) (articleId : string)
    (segmentIndex : Z) (selectedLemmas : list string) (db : DB) : DB :=
  match getSegment articleId segmentIndex db with
  | None => db
  | Some segment =>
      let chosen :=
        filter (λ w, includesLemma selectedLemmas (WordAnalysis.lemma w))
          (ArticleSegment.analyzedWords segment) in
      let newFlashcards := imap (λ i w, newCard articleId w (fresh i)) chosen in
      let db := addFlashcards newFlashcards db in
      let updatedSegment := withApproved segment selectedLemmas in
      updateSegment updatedSegment db
  end.

Definition addCustomWordToSegment (fresh : Fresh) (articleId : string)
    (segmentIndex : Z) (analysis : WordAnalysis.t) (db : DB) : DB :=
  match getSegment articleId segmentIndex db with
  | None => db
  | Some segment =>
      let exists_ :=
        existsb (λ w, String.eqb (WordAnalysis.lemma w) (WordAnalysis.lemma analysis))
          (ArticleSegment.analyzedWords segment) in
      let db :=
        if negb exists_ then
          updateSegment
            (withWords segment
               (ArticleSegment.analyzedWords segment ++ [analysis])
               (ArticleSegment.approvedWordIds segment ++ [WordAnalysis.lemma analysis]))
            db
        else db in
      addFlashcards [newCard articleId analysis fresh] db
  end.

(** [{ ...card, stage: newStage, nextReview }]. *)
Definition withSchedule (card : Flashcard.t) (newStage nextReview : Z) : Flashcard.t :=
  Flashcard.mk (Flashcard.analysis card) (Flashcard.id card) (Flashcard.articleId card)
    nextReview newStage (Flashcard.createdAt card).

(** The stage and the interval in days chosen by [markCardReviewed];
    [Math.pow(2, n)] is [2 ^ n] for the non-negative stages of the data
    model. [schedule] and [markCardReviewed] read the operators over the
    integers, which is what the runtime computes as long as no result has
    more than 53 bits; [scheduleDouble] and [markCardReviewedDouble] below
    round every result as the runtime does. *)
Definition schedule (stage quality : Z) : Z * Z :=
  if 3 <=? quality then (stage + 1, 2 ^ (stage + 1)) else (0, 0).

Definition markCardReviewed (now : Z) (cardId : string) (quality : Z) (db : DB) : DB :=
  match getFlashcard cardId db with
  | None => db
  | Some card =>
      let '(newStage, intervalDays) := schedule (Flashcard.stage card) quality in
      let nextReview := now + intervalDays * 24 * 60 * 60 * 1000 in
      let updated := withSchedule card newStage nextReview in
      updateFlashcard updated db
  end.

(** [markCardReviewed] with the arithmetic of the runtime: [newStage += 1],
    [Math.pow(2, newStage)], the four products of
    [intervalDays * 24 * 60 * 60 * 1000] and the sum with [Date.now()] are
    operations on doubles. *)
Definition scheduleDouble (stage quality : Z) : Z * Z :=
  if 3 <=? quality
  then let newStage := JS.plus stage 1 in (newStage, JS.pow2 newStage)
  else (0, 0).

Definition markCardReviewedDouble (now : Z) (cardId : string) (quality : Z) (db : DB) : DB :=
  match getFlashcard cardId db with
  | None => db
  | Some card =>
      let '(newStage, intervalDays) := scheduleDouble (Flashcard.stage card) quality in
      let nextReview :=
        JS.plus now (JS.times (JS.times (JS.times (JS.times intervalDays 24) 60) 60) 1000) in
      let updated := withSchedule card newStage nextReview in
      updateFlashcard updated db
  end.

Inductive Mode := due | new | all.

(** The three residual filters applied after retrieval. *)
Definition sessionFilter (filters : Criteria.t) (cards : list Flashcard.t) : list Flashcard.t :=
  let cards :=
    if selective (Criteria.type filters)
    then filter (λ c, String.eqb (Flashcard.type c) (default "" (Criteria.type filters))) cards
    else cards in
  let cards :=
    if selective (Criteria.level filters)
    then filter (λ c, String.eqb (Flashcard.level c) (default "" (Criteria.level filters))) cards
    else cards in
  if selective (Criteria.articleId filters)
  then filter (λ c, String.eqb (Flashcard.articleId c) (default "" (Criteria.articleId filters))) cards
  else cards.

Section Session.
Variable localeCompare : string → string → Z.

(** The cards retrieved by [getCardsForSession] for each mode. *)
Definition sessionPool (now : Z) (mode : Mode) (filters : Criteria.t)
    (limit : option Z) (db : DB) : list Flashcard.t :=
  match mode with
  | due => getDueFlashcards now limit db
  | new => getNewFlashcards limit db
  | all => queryFlashcards localeCompare (Criteria.withLimit filters (default 50 limit)) db
  end.

(** [getCardsForSession] up to the final shuffle. *)
Definition sessionCards (now : Z) (mode : Mode) (filters : Criteria.t)
    (limit : option Z) (db : DB) : list Flashcard.t :=
  sessionFilter filters (sessionPool now mode filters limit db).

(** [cards.sort(() => Math.random() - 0.5)] returns the same cards in an order
    that depends on the random draws: [getCardsForSession] is a relation
    between the inputs and every list it may return. *)
Definition getCardsForSession (now : Z) (mode : Mode) (filters : Criteria.t)
    (limit : option Z) (db : DB) (result : list Flashcard.t) : Prop :=
  result ≡ₚ sessionCards now mode filters limit db.

End Session.

End AppContext.

(** ** Reference definitions used to state the properties *)

Module Reference.
Import DatabaseService.

(** An exact-match criterion: absent, empty or ['all'] it excludes nothing,
    otherwise the field has to equal it. *)
Definition exact (given : option string) (field : string) : bool :=
  match given with
  | Some s => String.eqb s "" || String.eqb s "all" || String.eqb field s
  | None => true
  end.

(** The search criterion as [queryFlashcards] tests it: the lower-cased query
    occurs in the lower-cased headword or in the translation. *)
Definition searched (given : option string) (c : Flashcard.t) : bool :=
  match given with
  | Some s =>
      String.eqb s ""
      || JS.includes (JS.toLowerCase (Flashcard.word c)) (JS.toLowerCase s)
      || JS.includes (Flashcard.persianTranslation c) (JS.toLowerCase s)
  | None => true
  end.

(** A card satisfies the criteria when it satisfies each of them. *)
Definition satisfies (criteria : Criteria.t) (c : Flashcard.t) : bool :=
  exact (Criteria.articleId criteria) (Flashcard.articleId c)
  && exact (Criteria.type criteria) (Flashcard.type c)
  && exact (Criteria.level criteria) (Flashcard.level c)
  && searched (Criteria.search criteria) c.

(** The full scan with the criteria as the code tests them: scan every
    flashcard, keep the cards that satisfy the criteria, sort by headword,
    cut out the page. *)
Definition queryFlashcards_naive (localeCompare : string → string → Z)
    (criteria : Criteria.t) (db : DB) : list Flashcard.t :=
  let kept := filter (λ c, satisfies criteria c) (IDB.getAll (flashcards db)) in
  let sorted := JS.sort (byWord localeCompare) kept in
  let start := default 0 (Criteria.offset criteria) in
  let stop :=
    match Criteria.limit criteria with
    | Some n => if n =? 0 then Z.of_nat (length sorted) else start + n
    | None => Z.of_nat (length sorted)
    end in
  JS.slice start stop sorted.

(** The same filters with a page of [limit] records at [offset], and with no
    pagination at all. *)
Definition page (criteria : Criteria.t) (offset limit : Z) : Criteria.t :=
  Criteria.mk (Criteria.articleId criteria) (Criteria.type criteria)
    (Criteria.level criteria) (Criteria.search criteria) (Some limit) (Some offset).

Definition unpaged (criteria : Criteria.t) : Criteria.t :=
  Criteria.mk (Criteria.articleId criteria) (Criteria.type criteria)
    (Criteria.level criteria) (Criteria.search criteria) None None.

(** A client that asks for the pages at offsets [offset], [offset + limit],
    ... and stops at the first empty page; [fuel] bounds the number of
    requests. *)
Fixpoint collectPages (fetch : Z → list Flashcard.t) (limit : Z) (fuel : nat)
    (offset : Z) : list Flashcard.t :=
  match fuel with
  | O => []
  | S fuel' =>
      match fetch offset with
      | [] => []
      | page => page ++ collectPages fetch limit fuel' (offset + limit)
      end
  end.

(** Case-insensitive substring match, as the specification words it. *)
Definition matchesIgnoringCase (text query : string) : bool :=
  JS.includes (JS.toLowerCase text) (JS.toLowerCase query).

(** The search criterion as the specification words it: a case-insensitive
    substring match against the headword or the translation. *)
Definition matchesSearch (given : option string) (c : Flashcard.t) : bool :=
  match given with
  | Some s =>
      matchesIgnoringCase (Flashcard.word c) s
      || matchesIgnoringCase (Flashcard.persianTranslation c) s
  | None => true
  end.

(** A card meets the criteria when it meets each of them, the search as the
    specification words it. *)
Definition meets (criteria : Criteria.t) (c : Flashcard.t) : bool :=
  exact (Criteria.articleId criteria) (Flashcard.articleId c)
  && exact (Criteria.type criteria) (Flashcard.type c)
  && exact (Criteria.level criteria) (Flashcard.level c)
  && matchesSearch (Criteria.search criteria) c.

(** The naive algorithm of the specification: scan every flashcard, keep
    the cards that meet every criterion, sort by headword, slice by offset
    and limit. *)
Definition fullScan (localeCompare : string → string → Z)
    (criteria : Criteria.t) (db : DB) : list Flashcard.t :=
  let kept := filter (λ c, meets criteria c) (IDB.getAll (flashcards db)) in
  let sorted := JS.sort (byWord localeCompare) kept in
  let start := default 0 (Criteria.offset criteria) in
  let stop :=
    match Criteria.limit criteria with
    | Some n => if n =? 0 then Z.of_nat (length sorted) else start + n
    | None => Z.of_nat (length sorted)
    end in
  JS.slice start stop sorted.

(** The merge performed on one entity kind by an import of [items]. *)
Definition merged {V} `{Keyed V} (items : option (list V)) (old new : gmap string V) : Prop :=
  match items with
  | None => new = old
  | Some l =>
      (∀ k, k ∉ keyOf <$> l → new !! k = old !! k) ∧
      (∀ l1 v l2, l = l1 ++ v :: l2 → keyOf v ∉ keyOf <$> l2 → new !! keyOf v = Some v)
  end.

(** Every approved lemma of a segment is the lemma of one of its analysed
    words. *)
Definition approvedAreAnalyzed (s : ArticleSegment.t) : bool :=
  forallb
    (λ l, existsb (λ w, String.eqb (WordAnalysis.lemma w) l) (ArticleSegment.analyzedWords s))
    (ArticleSegment.approvedWordIds s).

Definition segmentsConsistent (db : DB) : Prop :=
  map_Forall (λ _ s, approvedAreAnalyzed s = true) (segments db).

End Reference.

(** ** Sequences of approvals and custom words *)

Module SegmentOps.
Import DatabaseService AppContext.

Inductive t :=
| Approve (fresh : nat → Fresh) (articleId : string) (segmentIndex : Z)
    (selectedLemmas : list string)
| AddCustom (fresh : Fresh) (articleId : string) (segmentIndex : Z)
    (analysis : WordAnalysis.t).

Definition apply (op : t) (db : DB) : DB :=
  match op with
  | Approve fresh a i lemmas => approveWordsForSegment fresh a i lemmas db
  | AddCustom fresh a i w => addCustomWordToSegment fresh a i w db
  end.

Definition run (ops : list t) (db : DB) : DB :=
  foldl (λ acc op, apply op acc) db ops.

(** The approval passes only lemmas of the analysed words of the segment it
    addresses, as the word-selection screen does. *)
Definition selectsAnalyzed (op : t) (db : DB) : bool :=
  match op with
  | Approve _ a i lemmas =>
      match getSegment a i db with
      | Some segment =>
          forallb
            (λ l, existsb (λ w, String.eqb (WordAnalysis.lemma w) l)
                    (ArticleSegment.analyzedWords segment))
            lemmas
      | None => true
      end
  | AddCustom _ _ _ _ => true
  end.

Fixpoint wellSelected (ops : list t) (db : DB) : bool :=
  match ops with
  | [] => true
  | op :: ops' => selectsAnalyzed op db && wellSelected ops' (apply op db)
  end.

End SegmentOps.

(** ** Sample data *)

Module Sample.
Import DatabaseService AppContext.

Definition serendipity : WordAnalysis.t :=
  WordAnalysis.mk AnalysisType.vocabulary "Serendipity" "serendipity" None (Some "noun") []
    "It was pure serendipity." "C1" "a happy accident" "khoshbakhti" "Serendipity led her there.".

Definition genome : WordAnalysis.t :=
  WordAnalysis.mk AnalysisType.vocabulary "genome" "genome" None (Some "noun") []
    "The genome was sequenced." "C1" "the genetic material of an organism"
    "zhenom (DNA)" "The human genome is large.".

Definition inversion : WordAnalysis.t :=
  WordAnalysis.mk AnalysisType.grammar "Never had I" "never had I" None None []
    "Never had I seen it." "B2" "negative inversion" "wazhgouni" "Never had I known.".

Definition card1 : Flashcard.t := Flashcard.mk serendipity "c1" "a1" 500 2 100.
Definition card2 : Flashcard.t := Flashcard.mk inversion "c2" "a2" 5000 0 200.
Definition card3 : Flashcard.t := Flashcard.mk inversion "c3" "a1" 900 0 300.
Definition card4 : Flashcard.t := Flashcard.mk genome "c4" "a2" 700 1 400.

Definition segment0 : ArticleSegment.t :=
  ArticleSegment.mk "s0" 0 "Part 1" "It was pure serendipity." [serendipity] []
    None true (Some "a1").

Definition article1 : Article.t := Article.mk "a1" "A sample" [] None 50.

Definition db1 : DB :=
  mkDB (IDB.put article1 ∅) (IDB.put segment0 ∅)
       (IDB.putAll [card1; card2; card3] ∅) None ∅.

(** What the environment supplies to the [i]-th new card. *)
Definition fresh (i : nat) : Fresh :=
  mkFresh (String (ascii_of_nat (110 + i)) "ew") 1000 1001.

(** An approval of a lemma that the segment never analysed, and a sequence
    that approves an analysed word and then adds a custom one. *)
Definition approveUnknown : SegmentOps.t :=
  SegmentOps.Approve fresh "a1" 0 ["perspicacious"].

Definition approveThenAdd : list SegmentOps.t :=
  [SegmentOps.Approve fresh "a1" 0 ["serendipity"];
   SegmentOps.AddCustom (fresh 5) "a1" 0 genome].

(** A store with a single flashcard. *)
Definition dbOne : DB := mkDB ∅ ∅ (IDB.put card1 ∅) None ∅.

(** A comparator that is consistent in the sense of [Array.prototype.sort]:
    the comparison of strings by code unit. *)
Definition byCodeUnit (a b : string) : Z :=
  match String.compare a b with
  | Lt => -1
  | Eq => 0
  | Gt => 1
  end.

End Sample.

(** ** Articles and their segments ([services/db.ts]) *)

Module ArticleStore.

(** [{ ...s, content: '', analyzedWords: [] }]. *)
Definition stripSegment (s : ArticleSegment.t) : ArticleSegment.t :=
  ArticleSegment.mk (ArticleSegment.id s) (ArticleSegment.index s) (ArticleSegment.title s)
    "" [] (ArticleSegment.approvedWordIds s)
    (ArticleSegment.persianTranslation s) (ArticleSegment.isAnalyzed s)
    (ArticleSegment.articleId s).

(** [{ ...article, segments: article.segments.map(...) }]. *)
Definition lightweight (article : Article.t) : Article.t :=
  Article.mk (Article.id article) (Article.title article)
    (stripSegment <$> Article.segments article)
    (Article.collectionId article) (Article.processedAt article).

(** [{ ...segment, articleId: article.id }]. *)
Definition withArticleId (articleId : string) (s : ArticleSegment.t) : ArticleSegment.t :=
  ArticleSegment.mk (ArticleSegment.id s) (ArticleSegment.index s) (ArticleSegment.title s)
    (ArticleSegment.content s) (ArticleSegment.analyzedWords s)
    (ArticleSegment.approvedWordIds s)
    (ArticleSegment.persianTranslation s) (ArticleSegment.isAnalyzed s)
    (Some articleId).

Definition addArticle (article : Article.t) (segs : list ArticleSegment.t) (db : DB) : DB :=
  mkDB (IDB.put (lightweight article) (articles db))
       (IDB.putAll (withArticleId (Article.id article) <$> segs) (segments db))
       (flashcards db) (settings db) (collections db).

Definition getArticle (id : string) (db : DB) : option Article.t :=
  IDB.get id (articles db).

End ArticleStore.

(** ** The in-memory state of the provider ([AppContext.tsx]) *)

Module AppStore.
Import DatabaseService.

(** The React state of [AppProvider]. *)
Record Ctx := mkCtx {
  ctxArticles : list Article.t;
  ctxCollections : list Collection.t;
  ctxSettings : AppSettings.t;
  isLoading : bool
}.

Definition DEFAULT_SETTINGS : AppSettings.t :=
  AppSettings.mk "gemini-2.5-flash" "gemini-2.5-flash" "gemini-2.5-flash-preview-tts"
    "gemini-2.5-flash" AppSettings.gemini 1200
    [AnalysisType.vocabulary; AnalysisType.grammar; AnalysisType.literary;
     AnalysisType.historical].

Definition initial : Ctx := mkCtx [] [] DEFAULT_SETTINGS true.

(** The effect [loadData] run at start-up (and the reload at the end of
    [importUserData]): [setArticles(dbArticles.reverse())], then
    [if (dbSettings) setSettings({ ...DEFAULT_SETTINGS, ...dbSettings })]. *)
Definition loadData (w : Ctx * DB) : Ctx * DB :=
  let '(ctx, db) := w in
  (mkCtx (reverse (getArticles db)) (ctxCollections ctx)
     (match getSettings db with
      | Some dbSettings => PartialSettings.spread DEFAULT_SETTINGS dbSettings
      | None => ctxSettings ctx
      end)
     false,
   db).

Definition addCollection (newId name : string) (description : option string)
    (ctx : Ctx) : Ctx :=
  mkCtx (ctxArticles ctx)
    (ctxCollections ctx ++ [Collection.mk newId name description None])
    (ctxSettings ctx) (isLoading ctx).

(** [addArticle]: [newId] is the result of [nanoid()], [now] of
    [Date.now()]; the result of the call is the new id. *)
Definition addArticle (newId : string) (now : Z) (title : string)
    (segs : list ArticleSegment.t) (collectionId : option string)
    (w : Ctx * DB) : string * (Ctx * DB) :=
  let '(ctx, db) := w in
  let newArticle := Article.mk newId title segs collectionId now in
  let db := ArticleStore.addArticle newArticle segs db in
  let lightweightArticle := ArticleStore.lightweight newArticle in
  (newId,
   (mkCtx (lightweightArticle :: ctxArticles ctx) (ctxCollections ctx)
      (ctxSettings ctx) (isLoading ctx),
    db)).

(** [{ ...segment, persianTranslation: translation }]. *)
Definition withTranslation (s : ArticleSegment.t) (translation : string) : ArticleSegment.t :=
  ArticleSegment.mk (ArticleSegment.id s) (ArticleSegment.index s) (ArticleSegment.title s)
    (ArticleSegment.content s) (ArticleSegment.analyzedWords s)
    (ArticleSegment.approvedWordIds s) (Some translation)
    (ArticleSegment.isAnalyzed s) (ArticleSegment.articleId s).

Definition updateSegmentTranslation (articleId : string) (segmentIndex : Z)
    (translation : string) (db : DB) : DB :=
  match getSegment articleId segmentIndex db with
  | Some segment => updateSegment (withTranslation segment translation) db
  | None => db
  end.

(** [{ ...segment, analyzedWords: analysis, isAnalyzed: true }]. *)
Definition withAnalysis (s : ArticleSegment.t) (analysis : list WordAnalysis.t) : ArticleSegment.t :=
  ArticleSegment.mk (ArticleSegment.id s) (ArticleSegment.index s) (ArticleSegment.title s)
    (ArticleSegment.content s) analysis (ArticleSegment.approvedWordIds s)
    (ArticleSegment.persianTranslation s) true (ArticleSegment.articleId s).

(** [{ ...s, isAnalyzed: true }]. *)
Definition markAnalyzed (s : ArticleSegment.t) : ArticleSegment.t :=
  ArticleSegment.mk (ArticleSegment.id s) (ArticleSegment.index s) (ArticleSegment.title s)
    (ArticleSegment.content s) (ArticleSegment.analyzedWords s)
    (ArticleSegment.approvedWordIds s)
    (ArticleSegment.persianTranslation s) true (ArticleSegment.articleId s).

(** The update passed to [setArticles]. *)
Definition flagAnalyzed (articleId : string) (segmentIndex : Z) (prev : list Article.t) : list Article.t :=
  (λ a,
     if negb (String.eqb (Article.id a) articleId) then a
     else
       Article.mk (Article.id a) (Article.title a)
         ((λ s, if ArticleSegment.index s =? segmentIndex then markAnalyzed s else s)
            <$> Article.segments a)
         (Article.collectionId a) (Article.processedAt a))
  <$> prev.

Definition updateSegmentAnalysis (articleId : string) (segmentIndex : Z)
    (analysis : list WordAnalysis.t) (w : Ctx * DB) : Ctx * DB :=
  let '(ctx, db) := w in
  match getSegment articleId segmentIndex db with
  | Some segment =>
      (mkCtx (flagAnalyzed articleId segmentIndex (ctxArticles ctx))
         (ctxCollections ctx) (ctxSettings ctx) (isLoading ctx),
       updateSegment (withAnalysis segment analysis) db)
  | None => w
  end.

(** [const updated = { ...settings, ...newSettings }]. *)
Definition updateSettings (newSettings : PartialSettings.t) (w : Ctx * DB) : Ctx * DB :=
  let '(ctx, db) := w in
  let updated := PartialSettings.spread (ctxSettings ctx) newSettings in
  (mkCtx (ctxArticles ctx) (ctxCollections ctx) updated (isLoading ctx),
   saveSettings updated db).

Definition getArticleMetadata (id : string) (ctx : Ctx) : option Article.t :=
  JS.find (λ a, String.eqb (Article.id a) id) (ctxArticles ctx).

End AppStore.

(** ** Cutting an imported text into segments ([ArticleImport.tsx]) *)

Module ArticleImport.

(** The class [\s] on the ASCII range: tab, line feed, vertical tab, form
    feed, carriage return and space. *)
Definition isSpace (c : ascii) : bool :=
  let n := N_of_ascii c in
  (((9 <=? n) && (n <=? 13)) || (n =? 32))%N.

(** [fullText.split(/\s+/)]: the pieces between the maximal runs of white
    space; a text that starts (ends) with white space has an empty first
    (last) piece, and the empty text has the single piece [""]. [inGap]
    tells that the previous character was white space. *)
Fixpoint splitFrom (inGap : bool) (s : string) : list string :=
  match s with
  | EmptyString => [EmptyString]
  | String c s' =>
      if isSpace c then
        if inGap then splitFrom true s' else EmptyString :: splitFrom true s'
      else
        match splitFrom false s' with
        | w :: ws => String c w :: ws
        | [] => [String c EmptyString]
        end
  end.

Definition splitWhitespace (s : string) : list string := splitFrom false s.

(** [w.endsWith(c)] for a one-character suffix. *)
Fixpoint endsWith (w : string) (c : ascii) : bool :=
  match w with
  | EmptyString => false
  | String a EmptyString => Ascii.eqb a c
  | String _ w' => endsWith w' c
  end.

(** The test applied to the last word of a full chunk. *)
Definition endsSentence (w : string) : bool :=
  endsWith w "." || endsWith w "?" || endsWith w "!" || endsWith w "010".

(** The loop of [splitTextIntoSegments] over the remaining words, with the
    words collected so far for the current chunk; each chunk is kept as its
    list of words. *)
Fixpoint chunkWords (wordsPerChunk : Z) (currentChunkWords words : list string)
    : list (list string) :=
  match words with
  | [] =>
      if 0 <? Z.of_nat (length currentChunkWords) then [currentChunkWords] else []
  | w :: rest =>
      let current := currentChunkWords ++ [w] in
      if (wordsPerChunk <=? Z.of_nat (length current)) && endsSentence w
      then current :: chunkWords wordsPerChunk [] rest
      else chunkWords wordsPerChunk current rest
  end.

(** [words.join(' ')]. *)
Definition join (words : list string) : string := String.concat " " words.

Definition splitTextIntoSegments (fullText : string) (wordsPerChunk : Z) : list string :=
  join <$> chunkWords wordsPerChunk [] (splitWhitespace fullText).

(** The segments built by [handleAnalyze] from the chunks: [ids i] is the
    result of the [i]-th call of [nanoid()], [analysis] what the analysis of
    the first chunk returned. *)
Definition buildSegments (ids : nat → string) (analysis : list WordAnalysis.t)
    (rawSegments : list string) : list ArticleSegment.t :=
  imap
    (λ index content,
       ArticleSegment.mk (ids index) (Z.of_nat index)
         ("Part " +:+ pretty (index + 1)%nat) content
         (if index is O then analysis else []) []
         None (if index is O then true else false) None)
    rawSegments.

(** [settings.segmentLength || 1200]. *)
Definition chunkLength (settings : AppSettings.t) : Z :=
  if AppSettings.segmentLength settings =? 0 then 1200
  else AppSettings.segmentLength settings.

End ArticleImport.

(** ** The type switches of the settings page ([Settings.tsx]) *)

Module SettingsPage.
Import AppStore.

Definition sameType (a b : AnalysisType.t) : bool :=
  String.eqb (AnalysisType.to_string a) (AnalysisType.to_string b).

(** [handleChange('enabledTypes', value)]. *)
Definition changeEnabledTypes (value : list AnalysisType.t) (w : Ctx * DB) : Ctx * DB :=
  updateSettings (PartialSettings.mk None None None None None None (Some value)) w.

Definition toggleType (type : AnalysisType.t) (w : Ctx * DB) : Ctx * DB :=
  let current := AppSettings.enabledTypes (ctxSettings w.1) in
  if existsb (sameType type) current
  then changeEnabledTypes (filter (λ t, negb (sameType t type)) current) w
  else changeEnabledTypes (current ++ [type]) w.

End SettingsPage.

(** ** Sequences of store operations *)

Module StoreOps.
Import DatabaseService AppContext.

(** The writes that the application performs on the database. *)
Inductive t :=
| AddArticle (newId : string) (now : Z) (title : string)
    (segs : list ArticleSegment.t) (collectionId : option string)
| Translate (articleId : string) (segmentIndex : Z) (translation : string)
| Analyze (articleId : string) (segmentIndex : Z) (analysis : list WordAnalysis.t)
| Approve (fresh : nat → Fresh) (articleId : string) (segmentIndex : Z)
    (selectedLemmas : list string)
| AddCustom (fresh : Fresh) (articleId : string) (segmentIndex : Z)
    (analysis : WordAnalysis.t)
| Review (now : Z) (cardId : string) (quality : Z)
| UpdateSettings (newSettings : PartialSettings.t)
| ImportUserData (data : Backup.t).

(** [importUserData] after the file has been parsed: the import, then the
    reload of the in-memory state. *)
Definition importUserData (data : Backup.t) (w : AppStore.Ctx * DB) : AppStore.Ctx * DB :=
  AppStore.loadData (w.1, importDatabase data w.2).

Definition apply (op : t) (w : AppStore.Ctx * DB) : AppStore.Ctx * DB :=
  match op with
  | AddArticle newId now title segs collectionId =>
      (AppStore.addArticle newId now title segs collectionId w).2
  | Translate a i translation => (w.1, AppStore.updateSegmentTranslation a i translation w.2)
  | Analyze a i analysis => AppStore.updateSegmentAnalysis a i analysis w
  | Approve fresh a i lemmas => (w.1, approveWordsForSegment fresh a i lemmas w.2)
  | AddCustom fresh a i analysis => (w.1, addCustomWordToSegment fresh a i analysis w.2)
  | Review now cardId quality => (w.1, markCardReviewedDouble now cardId quality w.2)
  | UpdateSettings newSettings => AppStore.updateSettings newSettings w
  | ImportUserData data => importUserData data w
  end.

Definition run (ops : list t) (w : AppStore.Ctx * DB) : AppStore.Ctx * DB :=
  foldl (λ acc op, apply op acc) w ops.

(** The state of a fresh installation after start-up. *)
Definition start : AppStore.Ctx * DB := AppStore.loadData (AppStore.initial, emptyDB).


End StoreOps.

(** ** Conditions used to state the further properties *)

Module Conditions.

(** No two stored segments of one article share an index. *)
Definition uniqueSegments (db : DB) : Prop :=
  ∀ k1 s1 k2 s2,
    segments db !! k1 = Some s1 → segments db !! k2 = Some s2 →
    ArticleSegment.articleId s1 = ArticleSegment.articleId s2 →
    ArticleSegment.index s1 = ArticleSegment.index s2 →
    s1 = s2.

(** Every stored flashcard is at a non-negative stage. *)
Definition stagesNonneg (db : DB) : Prop :=
  map_Forall (λ _ c, 0 ≤ Flashcard.stage c) (flashcards db).

(** The flashcards of the documents that a sequence of operations imports are
    at non-negative stages. *)
Definition importsNonneg (op : StoreOps.t) : Prop :=
  match op with
  | StoreOps.ImportUserData data =>
      Forall (λ c, 0 ≤ Flashcard.stage c) (default [] (Backup.flashcards data))
  | _ => True
  end.

(** The operation writes only segments whose approved lemmas are lemmas of
    their analysed words. *)
Definition consistentOp (op : StoreOps.t) (w : AppStore.Ctx * DB) : Prop :=
  match op with
  | StoreOps.AddArticle _ _ _ segs _ =>
      Forall (λ s, Reference.approvedAreAnalyzed s = true) segs
  | StoreOps.Analyze a i analysis =>
      ∀ s, DatabaseService.getSegment a i w.2 = Some s →
           Reference.approvedAreAnalyzed (AppStore.withAnalysis s analysis) = true
  | StoreOps.Approve fresh a i lemmas =>
      SegmentOps.selectsAnalyzed (SegmentOps.Approve fresh a i lemmas) w.2 = true
  | StoreOps.ImportUserData data =>
      Forall (λ s, Reference.approvedAreAnalyzed s = true)
        (default [] (Backup.segments data))
  | _ => True
  end.

Fixpoint consistentOps (ops : list StoreOps.t) (w : AppStore.Ctx * DB) : Prop :=
  match ops with
  | [] => True
  | op :: ops' => consistentOp op w ∧ consistentOps ops' (StoreOps.apply op w)
  end.

(** The settings in use are the stored ones laid over the defaults, and the
    defaults as long as nothing is stored. *)
Definition settingsInSync (w : AppStore.Ctx * DB) : Prop :=
  AppStore.ctxSettings w.1
  = match settings w.2 with
    | Some stored => PartialSettings.spread AppStore.DEFAULT_SETTINGS stored
    | None => AppStore.DEFAULT_SETTINGS
    end.

(** The word has no white space in it. *)
Fixpoint noSpace (w : string) : Prop :=
  match w with
  | EmptyString => True
  | String c w' => ArticleImport.isSpace c = false ∧ noSpace w'
  end.

(** A store that results from another one by writes alone. *)
Definition grows {V} `{Keyed V} (m m' : gmap string V) : Prop :=
  ∃ l, m' = IDB.putAll l m.

Definition dbGrows (db db' : DB) : Prop :=
  grows (articles db) (articles db')
  ∧ grows (segments db) (segments db')
  ∧ grows (flashcards db) (flashcards db')
  ∧ grows (collections db) (collections db')
  ∧ (is_Some (settings db) → is_Some (settings db')).

(** The order of the entries of an index on a numeric key: by index key
    and, among equal index keys, by primary key. *)
Definition indexOrder {V} `{Keyed V} (ikey : V → Z) (a b : V) : Prop :=
  ikey a < ikey b ∨ (ikey a = ikey b ∧ String.leb (keyOf a) (keyOf b) = true).

(** The article list in memory is the one a reload would produce. *)
Definition articlesInSync (w : AppStore.Ctx * DB) : Prop :=
  AppStore.ctxArticles w.1 = reverse (DatabaseService.getArticles w.2).

End Conditions.

(** * Properties *)

(** ** The built-ins *)

Section SortFacts.
Context {A : Type} (before : A → A → bool).

Lemma insertSorted_Permutation x l : JS.insertSorted before x l ≡ₚ x :: l.
Proof.
  induction l as [|y l IH]; simpl; [done|].
  destruct (before x y); [done|].
  rewrite IH. apply Permutation_swap.
Qed.

Lemma sort_Permutation l : JS.sort before l ≡ₚ l.
Proof.
  induction l as [|x l IH]; simpl; [done|].
  by rewrite insertSorted_Permutation, IH.
Qed.

Lemma elem_of_sort x l : x ∈ JS.sort before l ↔ x ∈ l.
Proof. by rewrite sort_Permutation. Qed.

Lemma length_sort l : length (JS.sort before l) = length l.
Proof. by rewrite sort_Permutation. Qed.

(** Stability: the elements selected by [P] keep their relative order when
    none of them has to move in front of another. *)
Lemma filter_insertSorted (P : A → Prop) `{!∀ x, Decision (P x)} x l :
  (∀ y, P x → P y → before x y = true) →
  filter P (JS.insertSorted before x l) = filter P (x :: l).
Proof.
  intros Hxy. induction l as [|y l IH]; simpl; [done|].
  destruct (before x y) eqn:Hb; [done|].
  rewrite filter_cons, IH, !filter_cons.
  destruct (decide (P x)) as [Hx|Hx], (decide (P y)) as [Hy|Hy]; try done.
  rewrite Hxy in Hb; done.
Qed.

Lemma filter_sort (P : A → Prop) `{!∀ x, Decision (P x)} l :
  (∀ x y, P x → P y → before x y = true) →
  filter P (JS.sort before l) = filter P l.
Proof.
  intros Hxy. induction l as [|x l IH]; simpl; [done|].
  rewrite filter_insertSorted by eauto.
  by rewrite !filter_cons, IH.
Qed.

(** A comparator that is total and transitive yields a sorted array. *)
Lemma insertSorted_StronglySorted x l :
  (∀ a b, before a b = true ∨ before b a = true) →
  (∀ a b c, before a b = true → before b c = true → before a c = true) →
  StronglySorted (λ a b, before a b = true) l →
  StronglySorted (λ a b, before a b = true) (JS.insertSorted before x l).
Proof.
  intros Htot Htrans. induction 1 as [|y l Hl IH Hy]; simpl.
  - repeat constructor.
  - destruct (before x y) eqn:Hb.
    + constructor; [by constructor|].
      constructor; [done|]. eapply Forall_impl; [exact Hy|].
      intros z Hz. by eapply Htrans.
    + constructor; [done|].
      rewrite insertSorted_Permutation. constructor; [|done].
      destruct (Htot x y) as [?|?]; [congruence|done].
Qed.

Lemma sort_StronglySorted l :
  (∀ a b, before a b = true ∨ before b a = true) →
  (∀ a b c, before a b = true → before b c = true → before a c = true) →
  StronglySorted (λ a b, before a b = true) (JS.sort before l).
Proof.
  intros Htot Htrans. induction l as [|x l IH]; simpl; [constructor|].
  by apply insertSorted_StronglySorted.
Qed.

End SortFacts.

Section SliceFacts.
Context {A : Type}.
Implicit Types l : list A.

Lemma relIndex_nonneg (len i : Z) : 0 ≤ i → JS.relIndex len i = Z.min i len.
Proof. intros Hi. unfold JS.relIndex. by destruct (Z.ltb_spec i 0); [lia|]. Qed.

(** The page that starts at the count [k] and holds [n] elements. *)
Lemma slice_page (k n : nat) l :
  JS.slice (Z.of_nat k) (Z.of_nat k + Z.of_nat n) l = take n (drop k l).
Proof.
  unfold JS.slice. rewrite !relIndex_nonneg by lia.
  destruct (decide (k ≤ length l)%nat) as [Hle|Hgt].
  - replace (Z.to_nat (Z.min (Z.of_nat k) (Z.of_nat (length l)))) with k by lia.
    replace (Z.to_nat _) with (min n (length (drop k l)))
      by (rewrite length_drop; lia).
    by rewrite <- take_take, (take_ge (drop k l) (length _)).
  - rewrite !drop_ge by lia. by rewrite !take_nil.
Qed.

(** [slice(0, n)] with a count [n] keeps the first [n] elements. *)
Lemma slice_prefix (n : nat) l : JS.slice 0 (Z.of_nat n) l = take n l.
Proof. apply (slice_page 0 n l). Qed.

(** [slice(0, length)] is the whole array. *)
Lemma slice_all l : JS.slice 0 (Z.of_nat (length l)) l = l.
Proof. rewrite slice_prefix. by apply take_ge. Qed.

End SliceFacts.

(** ** Object stores *)

Section StoreFacts.
Context {V : Type} `{Keyed V}.
Implicit Types m : gmap string V.

Lemma elem_of_getAll m v : v ∈ IDB.getAll m ↔ ∃ k, m !! k = Some v.
Proof.
  unfold IDB.getAll. rewrite elem_of_sort, list_elem_of_fmap. split.
  - intros [[k v'] [-> Hin]]. exists k. by apply elem_of_map_to_list.
  - intros [k Hk]. exists (k, v). split; [done|]. by apply elem_of_map_to_list.
Qed.

Lemma getAll_NoDup m : IDB.keyed_wf m → NoDup (IDB.getAll m).
Proof.
  intros Hwf. unfold IDB.getAll. rewrite sort_Permutation.
  apply NoDup_fmap_2_strong; [|apply NoDup_map_to_list].
  intros [k1 v1] [k2 v2] H1%elem_of_map_to_list H2%elem_of_map_to_list Hv.
  simpl in Hv. subst v2. f_equal.
  by rewrite <- (Hwf _ _ H1), <- (Hwf _ _ H2).
Qed.

Lemma putAll_cons v l m : IDB.putAll (v :: l) m = IDB.putAll l (IDB.put v m).
Proof. done. Qed.

Lemma putAll_app l1 l2 m : IDB.putAll (l1 ++ l2) m = IDB.putAll l2 (IDB.putAll l1 m).
Proof. apply foldl_app. Qed.

(** A key that no written record carries keeps its record. *)
Lemma putAll_lookup_other l m k :
  k ∉ keyOf <$> l → IDB.putAll l m !! k = m !! k.
Proof.
  revert m. induction l as [|v l IH]; intros m Hk; [done|].
  rewrite fmap_cons in Hk. apply not_elem_of_cons in Hk as [Hv Hl].
  rewrite putAll_cons, IH by done.
  unfold IDB.put. by apply lookup_insert_ne.
Qed.

(** Last write wins. *)
Lemma putAll_lookup_last l1 v l2 m :
  keyOf v ∉ keyOf <$> l2 → IDB.putAll (l1 ++ v :: l2) m !! keyOf v = Some v.
Proof.
  intros Hk. rewrite putAll_app, putAll_cons, putAll_lookup_other by done.
  apply lookup_insert_eq.
Qed.

Lemma putAll_wf l m : IDB.keyed_wf m → IDB.keyed_wf (IDB.putAll l m).
Proof.
  revert m. induction l as [|v l IH]; intros m Hwf; [done|].
  rewrite putAll_cons. apply IH. unfold IDB.put.
  by apply map_Forall_insert_2.
Qed.

(** Writing back everything that [getAll] returned rebuilds the store. *)
Lemma putAll_getAll m : IDB.keyed_wf m → IDB.putAll (IDB.getAll m) ∅ = m.
Proof.
  intros Hwf. apply map_eq. intros k.
  destruct (m !! k) as [v|] eqn:Hk.
  - assert (v ∈ IDB.getAll m) as Hin by (apply elem_of_getAll; eauto).
    pose proof (getAll_NoDup m Hwf) as Hnd.
    apply list_elem_of_split in Hin as (l1 & l2 & Hl).
    rewrite Hl in Hnd |- *. rewrite <- (Hwf _ _ Hk).
    apply putAll_lookup_last.
    intros (v2 & Hkey & Hv2)%list_elem_of_fmap.
    assert (v2 ∈ IDB.getAll m) as (k2 & Hk2)%elem_of_getAll by (rewrite Hl; set_solver).
    assert (v2 = v) as ->.
    { pose proof (Hwf _ _ Hk2) as E2. pose proof (Hwf _ _ Hk) as E1.
      simpl in *. congruence. }
    apply NoDup_app in Hnd as (_ & _ & Hnd).
    apply NoDup_cons in Hnd as [Hnd _]. done.
  - rewrite putAll_lookup_other; [done|].
    intros (v & -> & (k' & Hv)%elem_of_getAll)%list_elem_of_fmap.
    pose proof (Hwf _ _ Hv) as E. simpl in E. congruence.
Qed.

(** Looking up one key through an index returns the records that carry the
    key, in the order of [getAll]. *)
Lemma getAllFromIndex_only {K} (ikey : V → option K) (kleb : K → K → bool)
    (range : K → bool) m :
  (∀ x y, range x = true → range y = true → kleb x y = true) →
  IDB.getAllFromIndex ikey kleb range m
  = filter (λ v, IDB.inRange range (ikey v)) (IDB.getAll m).
Proof.
  intros Hrefl. unfold IDB.getAllFromIndex. apply filter_sort.
  intros x y Hx Hy. destruct (ikey x), (ikey y); simpl in *; try done.
  apply Hrefl; by apply Is_true_true.
Qed.

Lemma elem_of_getAllFromIndex {K} (ikey : V → option K) (kleb : K → K → bool)
    (range : K → bool) m v :
  v ∈ IDB.getAllFromIndex ikey kleb range m
  ↔ (∃ k, m !! k = Some v) ∧ ∃ x, ikey v = Some x ∧ range x = true.
Proof.
  unfold IDB.getAllFromIndex.
  rewrite list_elem_of_filter, elem_of_sort, elem_of_getAll.
  split.
  - intros [Hr Hk]. split; [done|]. destruct (ikey v) as [x|]; [|done].
    exists x. split; [done|]. by apply Is_true_true.
  - intros [Hk (x & -> & Hr)]. split; [|done]. by apply Is_true_true.
Qed.

End StoreFacts.

(** ** Numbers *)

Section NumberFacts.

Lemma Infinity_large : 2 ^ 53 < JS.Infinity.
Proof. unfold JS.Infinity. apply Z.pow_lt_mono_r; lia. Qed.

(** A number of at most 53 significant bits below [Infinity] is a double. *)
Lemma roundMagnitude_scaled m k :
  0 < m < 2 ^ 53 → 0 ≤ k → m * 2 ^ k < JS.Infinity →
  JS.roundMagnitude (m * 2 ^ k) = m * 2 ^ k.
Proof.
  intros Hm Hk Hfin. unfold JS.roundMagnitude.
  rewrite Z.log2_mul_pow2 by lia.
  assert (Z.log2 m < 53) as Hl by (apply Z.log2_lt_pow2; lia).
  pose proof (Z.log2_nonneg m) as Hl0.
  destruct (Z.ltb_spec (k + Z.log2 m) 53) as [|He]; [done|].
  set (sh := k + Z.log2 m - 52).
  assert (0 < sh ≤ k) as Hsh by (subst sh; lia).
  assert (0 < 2 ^ sh) as Hpos by (apply Z.pow_pos_nonneg; lia).
  assert (m * 2 ^ k = m * 2 ^ (k - sh) * 2 ^ sh) as Hz.
  { rewrite <- Z.mul_assoc, <- Z.pow_add_r by lia. do 2 f_equal. lia. }
  assert (Z.shiftr (m * 2 ^ k) sh = m * 2 ^ (k - sh)) as Hq.
  { rewrite Z.shiftr_div_pow2 by lia. rewrite Hz. apply Z.div_mul. lia. }
  cbv zeta. rewrite Hq, !Z.shiftl_mul_pow2, <- Hz, Z.sub_diag by lia.
  assert (0 < 2 ^ (sh - 1)) by (apply Z.pow_pos_nonneg; lia).
  destruct (Z.ltb_spec (2 ^ (sh - 1)) 0); [lia|].
  destruct (Z.eqb_spec 0 (2 ^ (sh - 1))); [lia|]. simpl.
  rewrite <- Hz. lia.
Qed.

Lemma roundMagnitude_small z : 0 ≤ z ≤ 2 ^ 53 → JS.roundMagnitude z = z.
Proof.
  intros Hz. pose proof Infinity_large.
  destruct (decide (z = 0)) as [->|]; [done|].
  destruct (decide (z = 2 ^ 53)) as [->|].
  - rewrite <- (Z.mul_1_l (2 ^ 53)). apply roundMagnitude_scaled; lia.
  - rewrite <- (Z.mul_1_r z). change 1 with (2 ^ 0).
    apply roundMagnitude_scaled; lia.
Qed.

(** The integers up to [2^53] in absolute value are doubles. *)
Lemma roundNumber_small z : Z.abs z ≤ 2 ^ 53 → JS.roundNumber z = z.
Proof.
  intros Hz. unfold JS.roundNumber. destruct (Z.ltb_spec z 0).
  - rewrite roundMagnitude_small; lia.
  - apply roundMagnitude_small. lia.
Qed.

Lemma roundNumber_scaled m k :
  0 < m < 2 ^ 53 → 0 ≤ k → m * 2 ^ k < JS.Infinity →
  JS.roundNumber (m * 2 ^ k) = m * 2 ^ k.
Proof.
  intros Hm Hk Hfin. unfold JS.roundNumber.
  assert (0 < 2 ^ k) by (apply Z.pow_pos_nonneg; lia).
  destruct (Z.ltb_spec (m * 2 ^ k) 0); [nia|]. by apply roundMagnitude_scaled.
Qed.

(** From [2^1024] on rounding gives [Infinity]. *)
Lemma roundNumber_overflow z : JS.Infinity ≤ z → JS.roundNumber z = JS.Infinity.
Proof.
  intros Hz. pose proof Infinity_large.
  unfold JS.roundNumber. destruct (Z.ltb_spec z 0); [lia|].
  unfold JS.roundMagnitude.
  assert (1024 ≤ Z.log2 z) as He.
  { change 1024 with (Z.log2 JS.Infinity). by apply Z.log2_le_mono. }
  destruct (Z.ltb_spec (Z.log2 z) 53); [lia|].
  set (sh := Z.log2 z - 52).
  assert (0 < 2 ^ sh) as Hpos by (apply Z.pow_pos_nonneg; lia).
  assert (2 ^ 52 ≤ Z.shiftr z sh) as Hq.
  { rewrite Z.shiftr_div_pow2 by lia.
    apply Z.div_le_lower_bound; [done|].
    rewrite Z.mul_comm, <- Z.pow_add_r by lia.
    replace (52 + sh) with (Z.log2 z) by lia. apply Z.log2_spec. lia. }
  cbv zeta.
  match goal with |- Z.min (Z.shiftl ?x _) _ = _ => set (q' := x) end.
  assert (Z.shiftr z sh ≤ q') as Hq' by (subst q'; destruct (_ || _); lia).
  apply Z.min_r. rewrite Z.shiftl_mul_pow2 by lia.
  assert (JS.Infinity ≤ 2 ^ 52 * 2 ^ sh).
  { rewrite <- Z.pow_add_r by lia. unfold JS.Infinity. apply Z.pow_le_mono_r; lia. }
  nia.
Qed.

(** Rounding keeps the sign. *)
Lemma roundNumber_nonneg z : 0 ≤ z → 0 ≤ JS.roundNumber z.
Proof.
  intros Hz. pose proof Infinity_large.
  unfold JS.roundNumber. destruct (Z.ltb_spec z 0); [lia|].
  unfold JS.roundMagnitude. destruct (Z.ltb_spec (Z.log2 z) 53); [done|].
  cbv zeta. set (sh := Z.log2 z - 52).
  match goal with |- 0 ≤ Z.min (Z.shiftl ?x _) _ => set (q' := x) end.
  assert (0 ≤ Z.shiftr z sh) as Hq by (by apply Z.shiftr_nonneg).
  assert (0 ≤ q') as Hq' by (subst q'; destruct (_ || _); lia).
  apply Z.min_glb; [|lia]. by apply Z.shiftl_nonneg.
Qed.

End NumberFacts.

(** ** The scheduler *)

Section Scheduler.
Import DatabaseService AppContext.

Lemma markCardReviewed_found now cardId quality db card :
  flashcards db !! cardId = Some card →
  markCardReviewed now cardId quality db
  = updateFlashcard
      (withSchedule card (schedule (Flashcard.stage card) quality).1
         (now + (schedule (Flashcard.stage card) quality).2 * 24 * 60 * 60 * 1000)) db.
Proof.
  intros Hc. unfold markCardReviewed, getFlashcard, IDB.get. rewrite Hc.
  by destruct (schedule _ _).
Qed.

Lemma updateFlashcard_lookup card db :
  flashcards (updateFlashcard card db) !! Flashcard.id card = Some card.
Proof. apply lookup_insert_eq. Qed.

Lemma updateFlashcard_lookup_ne card db k :
  k ≠ Flashcard.id card →
  flashcards (updateFlashcard card db) !! k = flashcards db !! k.
Proof. intros Hk. simpl. unfold IDB.put. by apply lookup_insert_ne. Qed.

(** The milliseconds of [d] days, [d * 24 * 60 * 60 * 1000], on doubles. *)
Lemma times_scaled m c k :
  0 < m → 0 < c → m * c < 2 ^ 53 → 0 ≤ k → m * c * 2 ^ k < JS.Infinity →
  JS.times (m * 2 ^ k) c = m * c * 2 ^ k.
Proof.
  intros Hm Hc Hmc Hk Hfin. unfold JS.times.
  replace (m * 2 ^ k * c) with (m * c * 2 ^ k) by lia.
  apply roundNumber_scaled; [nia|done..].
Qed.

Lemma times_step c c' k y :
  0 < c → 0 < c' → c * c' < 2 ^ 53 → 0 ≤ k →
  y = JS.Infinity ∨ (y = c * 2 ^ k ∧ y < JS.Infinity) →
  JS.times y c' = JS.Infinity
  ∨ (JS.times y c' = c * c' * 2 ^ k ∧ JS.times y c' < JS.Infinity).
Proof.
  intros Hc Hc' Hcc Hk [->|[-> Hy]]; pose proof Infinity_large.
  - left. apply roundNumber_overflow. nia.
  - destruct (decide (c * c' * 2 ^ k < JS.Infinity)) as [Hfin|Hinf].
    + right. by rewrite times_scaled.
    + left. apply roundNumber_overflow. lia.
Qed.

Lemma pow2_finite k : 0 ≤ k ≤ 1023 → JS.pow2 k = 2 ^ k ∧ 2 ^ k < JS.Infinity.
Proof.
  intros Hk. unfold JS.pow2. destruct (Z.leb_spec 1024 k); [lia|].
  split; [done|]. unfold JS.Infinity. apply Z.pow_lt_mono_r; lia.
Qed.

(** Up to [2^997] days the interval is computed exactly. *)
Lemma interval_finite k :
  0 ≤ k ≤ 997 →
  JS.times (JS.times (JS.times (JS.times (JS.pow2 k) 24) 60) 60) 1000 = 86400000 * 2 ^ k
  ∧ 86400000 * 2 ^ k < JS.Infinity.
Proof.
  intros Hk. destruct (pow2_finite k) as [-> _]; [lia|].
  assert (2 ^ k ≤ 2 ^ 997) as Hle by (apply Z.pow_le_mono_r; lia).
  assert (0 < 2 ^ k) as Hpos by (apply Z.pow_pos_nonneg; lia).
  assert (JS.Infinity = 2 ^ 27 * 2 ^ 997) as Hinf.
  { unfold JS.Infinity. by rewrite <- Z.pow_add_r. }
  assert (86400000 * 2 ^ k < JS.Infinity) as Hfin by (rewrite Hinf; lia).
  split; [|done].
  rewrite <- (Z.mul_1_l (2 ^ k)) at 1.
  rewrite (times_scaled 1 24), (times_scaled (1 * 24) 60),
    (times_scaled (1 * 24 * 60) 60), (times_scaled (1 * 24 * 60 * 60) 1000); lia.
Qed.

(** From [2^998] days on the interval is [Infinity]. *)
Lemma interval_overflow k :
  998 ≤ k →
  JS.times (JS.times (JS.times (JS.times (JS.pow2 k) 24) 60) 60) 1000 = JS.Infinity.
Proof.
  intros Hk.
  assert (JS.pow2 k = JS.Infinity ∨ (JS.pow2 k = 1 * 2 ^ k ∧ JS.pow2 k < JS.Infinity)) as H0.
  { unfold JS.pow2. destruct (Z.leb_spec 1024 k); [by left|right].
    rewrite Z.mul_1_l. split; [done|]. unfold JS.Infinity. apply Z.pow_lt_mono_r; lia. }
  apply (times_step 1 24) in H0; [|lia..].
  apply (times_step (1 * 24) 60) in H0; [|lia..].
  apply (times_step (1 * 24 * 60) 60) in H0; [|lia..].
  apply (times_step (1 * 24 * 60 * 60) 1000) in H0; [|lia..].
  destruct H0 as [?|[Heq Hlt]]; [done|]. exfalso.
  rewrite Heq in Hlt.
  assert (2 ^ 998 ≤ 2 ^ k) by (apply Z.pow_le_mono_r; lia).
  assert (JS.Infinity = 2 ^ 26 * 2 ^ 998) as Hinf.
  { unfold JS.Infinity. by rewrite <- Z.pow_add_r. }
  rewrite Hinf in Hlt. lia.
Qed.

Lemma plus_finite a b :
  a < JS.Infinity → b < JS.Infinity → JS.plus a b = JS.roundNumber (a + b).
Proof.
  intros Ha Hb. unfold JS.plus.
  destruct (Z.leb_spec JS.Infinity a); [lia|].
  by destruct (Z.leb_spec JS.Infinity b); [lia|].
Qed.

Lemma plus_Infinity a : a < JS.Infinity → JS.plus a JS.Infinity = JS.Infinity.
Proof.
  intros Ha. unfold JS.plus.
  destruct (Z.leb_spec JS.Infinity a); [lia|].
  by destruct (Z.leb_spec JS.Infinity JS.Infinity); [|lia].
Qed.

Lemma scheduleDouble_pass stage quality :
  3 ≤ quality → 0 ≤ stage < 2 ^ 53 →
  scheduleDouble stage quality = (stage + 1, JS.pow2 (stage + 1)).
Proof.
  intros Hq Hs. unfold scheduleDouble. destruct (Z.leb_spec 3 quality); [|lia].
  pose proof Infinity_large.
  rewrite plus_finite by lia. by rewrite roundNumber_small by lia.
Qed.

Lemma scheduleDouble_fail stage quality :
  quality < 3 → scheduleDouble stage quality = (0, 0).
Proof. intros Hq. unfold scheduleDouble. by destruct (Z.leb_spec 3 quality); [lia|]. Qed.

Lemma scheduleDouble_nonneg stage quality :
  0 ≤ stage → 0 ≤ (scheduleDouble stage quality).1.
Proof.
  intros Hs. unfold scheduleDouble, JS.plus. destruct (3 <=? quality); [|done].
  cbn [fst]. destruct (JS.Infinity <=? stage); [done|].
  destruct (JS.Infinity <=? 1); [done|]. apply roundNumber_nonneg. lia.
Qed.

Lemma markCardReviewedDouble_found now cardId quality db card :
  flashcards db !! cardId = Some card →
  markCardReviewedDouble now cardId quality db
  = updateFlashcard
      (withSchedule card (scheduleDouble (Flashcard.stage card) quality).1
         (JS.plus now
            (JS.times
               (JS.times
                  (JS.times (JS.times (scheduleDouble (Flashcard.stage card) quality).2 24) 60)
                  60)
               1000))) db.
Proof.
  intros Hc. unfold markCardReviewedDouble, getFlashcard, IDB.get. rewrite Hc.
  by destruct (scheduleDouble _ _).
Qed.

(** What a review stores as the stage and the next review of the card. *)
Lemma markCardReviewedDouble_pass now stage quality :
  3 ≤ quality → 0 ≤ stage → Z.abs now ≤ 2 ^ 53 →
  let due := now + 2 ^ (stage + 1) * 86400000 in
  let newStage := (scheduleDouble stage quality).1 in
  let nextReview :=
    JS.plus now
      (JS.times (JS.times (JS.times (JS.times (scheduleDouble stage quality).2 24) 60) 60)
         1000) in
  (stage ≤ 996 → newStage = stage + 1 ∧ nextReview = JS.roundNumber due)
  ∧ (997 ≤ stage < 2 ^ 53 → newStage = stage + 1 ∧ nextReview = JS.Infinity).
Proof.
  intros Hq Hs Hnow. pose proof Infinity_large. cbv zeta. split.
  - intros Hle. rewrite scheduleDouble_pass by lia. cbn [fst snd].
    destruct (interval_finite (stage + 1)) as [-> Hfin]; [lia|].
    split; [done|]. rewrite plus_finite by lia. f_equal. lia.
  - intros Hge. rewrite scheduleDouble_pass by lia. cbn [fst snd].
    rewrite interval_overflow by lia. split; [done|]. apply plus_Infinity. lia.
Qed.

Lemma markCardReviewedDouble_fail now stage quality :
  quality < 3 → Z.abs now ≤ 2 ^ 53 →
  (scheduleDouble stage quality).1 = 0
  ∧ JS.plus now
      (JS.times (JS.times (JS.times (JS.times (scheduleDouble stage quality).2 24) 60) 60)
         1000) = now.
Proof.
  intros Hq Hnow. pose proof Infinity_large.
  rewrite scheduleDouble_fail by done. cbn [fst snd]. split; [done|].
  change (JS.times (JS.times (JS.times (JS.times 0 24) 60) 60) 1000) with 0.
  rewrite plus_finite by lia. rewrite Z.add_0_r. by apply roundNumber_small.
Qed.

(** A sum of at most [2^53] is reached only at a stage below 53. *)
Lemma exact_stage_small now stage :
  0 ≤ stage → Z.abs now ≤ 2 ^ 53 → now + 2 ^ (stage + 1) * 86400000 ≤ 2 ^ 53 →
  stage ≤ 996.
Proof.
  intros Hs Hnow Hdue.
  destruct (Z.le_gt_cases (stage + 1) 54) as [|Hbig]; [lia|].
  assert (2 ^ 54 ≤ 2 ^ (stage + 1)) by (apply Z.pow_le_mono_r; lia).
  change (2 ^ 54) with (2 * 2 ^ 53) in *. lia.
Qed.

(** As long as the next review is at most [2^53], the arithmetic of the
    runtime and the arithmetic of the integers give the same store. *)
Lemma markCardReviewedDouble_exact now cardId quality db :
  Z.abs now ≤ 2 ^ 53 →
  (∀ card, flashcards db !! cardId = Some card →
     0 ≤ Flashcard.stage card
     ∧ (3 ≤ quality → now + 2 ^ (Flashcard.stage card + 1) * 86400000 ≤ 2 ^ 53)) →
  markCardReviewedDouble now cardId quality db = markCardReviewed now cardId quality db.
Proof.
  intros Hnow Hcard. destruct (flashcards db !! cardId) as [card|] eqn:Hc.
  - destruct (Hcard card eq_refl) as [Hs Hdue].
    rewrite (markCardReviewedDouble_found _ _ _ _ _ Hc), (markCardReviewed_found _ _ _ _ _ Hc).
    unfold schedule. destruct (Z.leb_spec 3 quality) as [Hq|Hq]; cbn [fst snd].
    + destruct (markCardReviewedDouble_pass now (Flashcard.stage card) quality Hq Hs Hnow)
        as [Hfin _].
      destruct Hfin as [-> ->]; [by eapply exact_stage_small; eauto|].
      rewrite roundNumber_small; [do 2 f_equal; lia|].
      assert (0 < 2 ^ (Flashcard.stage card + 1)) by (apply Z.pow_pos_nonneg; lia).
      specialize (Hdue Hq). lia.
    + destruct (markCardReviewedDouble_fail now (Flashcard.stage card) quality Hq Hnow)
        as [-> ->].
      do 2 f_equal. lia.
  - unfold markCardReviewedDouble, markCardReviewed, getFlashcard, IDB.get. by rewrite Hc.
Qed.




(** C8. [markCardReviewed] rewrites the stage and the next review of the
    reviewed card and nothing else: the other fields of the card, the other
    flashcards and the other object stores are as before. *)
Theorem markCardReviewed_frame (now : Z) (cardId : string) (quality : Z)
    (db : DB) (card : Flashcard.t) :
  IDB.keyed_wf (flashcards db) →
  flashcards db !! cardId = Some card →
  let db' := markCardReviewed now cardId quality db in
  (∃ card',
     flashcards db' !! cardId = Some card' ∧
     Flashcard.analysis card' = Flashcard.analysis card ∧
     Flashcard.id card' = Flashcard.id card ∧
     Flashcard.articleId card' = Flashcard.articleId card ∧
     Flashcard.createdAt card' = Flashcard.createdAt card) ∧
  (∀ k, k ≠ cardId → flashcards db' !! k = flashcards db !! k) ∧
  articles db' = articles db ∧ segments db' = segments db ∧
  settings db' = settings db ∧ collections db' = collections db.
Proof.
  intros Hwf Hc db'. subst db'. rewrite (markCardReviewed_found _ _ _ _ _ Hc).
  pose proof (Hwf _ _ Hc) as Hid. simpl in Hid.
  split; [|split; [|done]].
  - eexists. split.
    + rewrite <- Hid at 1. apply (updateFlashcard_lookup (withSchedule card _ _)).
    + done.
  - intros k Hk. apply updateFlashcard_lookup_ne. simpl.
    unfold keyOf, flashcard_keyed in Hid. congruence.
Qed.

Lemma markCardReviewed_frame_witness :
  let db' := markCardReviewed 1000 "c1" 1 Sample.db1 in
  (∃ card',
     flashcards db' !! "c1" = Some card' ∧
     Flashcard.analysis card' = Flashcard.analysis Sample.card1 ∧
     Flashcard.id card' = Flashcard.id Sample.card1 ∧
     Flashcard.articleId card' = Flashcard.articleId Sample.card1 ∧
     Flashcard.createdAt card' = Flashcard.createdAt Sample.card1) ∧
  (∀ k, k ≠ "c1" → flashcards db' !! k = flashcards Sample.db1 !! k) ∧
  articles db' = articles Sample.db1 ∧ segments db' = segments Sample.db1 ∧
  settings db' = settings Sample.db1 ∧ collections db' = collections Sample.db1.
Proof.
  apply (markCardReviewed_frame 1000 "c1" 1 Sample.db1 Sample.card1).
  - apply (bool_decide_unpack _). vm_compute. exact I.
  - reflexivity.
Defined.

End Scheduler.

(** ** The query engine *)

Section QueryFacts.
Import DatabaseService.

Lemma String_leb_refl (s : string) : String.leb s s = true.
Proof. by destruct (String.leb_total s s). Qed.

Lemma byCodeUnit_le a b : Sample.byCodeUnit a b ≤ 0 ↔ String.le a b.
Proof.
  unfold Sample.byCodeUnit, String.le, String.leb.
  destruct (String.compare a b); simpl; split; (lia || done).
Qed.

Lemma byCodeUnit_total a b :
  Sample.byCodeUnit a b ≤ 0 ∨ Sample.byCodeUnit b a ≤ 0.
Proof. rewrite !byCodeUnit_le. apply total, _. Qed.

Lemma byCodeUnit_trans a b c :
  Sample.byCodeUnit a b ≤ 0 → Sample.byCodeUnit b c ≤ 0 → Sample.byCodeUnit a c ≤ 0.
Proof. rewrite !byCodeUnit_le. apply transitivity. Qed.

Ltac split_tests :=
  repeat match goal with
  | |- context [String.eqb ?x ?y] => destruct (String.eqb x y)
  | |- context [JS.includes ?x ?y] => destruct (JS.includes x y)
  end.

(** The callback of [filter] accepts a card exactly when the card satisfies
    every criterion. *)
Lemma residual_satisfies criteria c :
  residual criteria c = Reference.satisfies criteria c.
Proof.
  destruct criteria as [[a|] [t|] [l|] [s|] lim off];
    unfold residual, Reference.satisfies, Reference.exact, Reference.searched,
      selective, JS.truthyStr; simpl; split_tests; reflexivity.
Qed.

Lemma satisfies_exact criteria c :
  Reference.satisfies criteria c = true →
  Reference.exact (Criteria.articleId criteria) (Flashcard.articleId c) = true ∧
  Reference.exact (Criteria.type criteria) (Flashcard.type c) = true ∧
  Reference.exact (Criteria.level criteria) (Flashcard.level c) = true.
Proof.
  unfold Reference.satisfies. intros H.
  repeat (apply andb_prop in H as [H ?]). done.
Qed.

Lemma exact_selective given field :
  selective given = true → Reference.exact given field = true →
  String.eqb (default "" given) field = true.
Proof.
  unfold selective, Reference.exact, JS.truthyStr. destruct given as [s|]; simpl; [|done].
  rewrite (String.eqb_sym s field).
  destruct (String.eqb s ""), (String.eqb s "all"); simpl; try done.
Qed.

(** An index lookup on one string key is the filter of the full scan. *)
Lemma index_only (ikey : Flashcard.t → string) key (m : gmap string Flashcard.t) :
  IDB.getAllFromIndex (λ c, Some (ikey c)) String.leb (IDB.only key) m
  = filter (λ c, String.eqb key (ikey c)) (IDB.getAll m).
Proof.
  rewrite getAllFromIndex_only; [done|].
  unfold IDB.only. intros x y ->%String.eqb_eq ->%String.eqb_eq.
  apply String_leb_refl.
Qed.

(** Whatever seeds the candidates, the residual pass leaves the cards that a
    full scan would have kept. *)
Lemma seed_residual criteria db :
  filter (λ c, residual criteria c) (seed criteria db)
  = filter (λ c, Reference.satisfies criteria c) (IDB.getAll (flashcards db)).
Proof.
  assert (∀ ikey given,
    selective given = true →
    (∀ c, Reference.satisfies criteria c = true → Reference.exact given (ikey c) = true) →
    filter (λ c, residual criteria c)
      (filter (λ c : Flashcard.t, String.eqb (default "" given) (ikey c))
         (IDB.getAll (flashcards db)))
    = filter (λ c, Reference.satisfies criteria c) (IDB.getAll (flashcards db))) as Hidx.
  { intros ikey given Hsel Hex. rewrite list_filter_filter.
    apply list_filter_iff. intros c. rewrite residual_satisfies. split; [tauto|].
    intros Hc. split; [done|]. apply Is_true_true in Hc.
    apply Is_true_true. by apply exact_selective, Hex. }
  unfold seed, by_article, by_type, by_level.
  destruct (selective (Criteria.articleId criteria)) eqn:Ha;
    [|destruct (selective (Criteria.type criteria)) eqn:Ht;
      [|destruct (selective (Criteria.level criteria)) eqn:Hl]].
  - rewrite index_only. apply (Hidx Flashcard.articleId); [done|].
    intros c Hc. by apply satisfies_exact in Hc as (? & ? & ?).
  - rewrite index_only. apply (Hidx Flashcard.type); [done|].
    intros c Hc. by apply satisfies_exact in Hc as (? & ? & ?).
  - rewrite index_only. apply (Hidx Flashcard.level); [done|].
    intros c Hc. by apply satisfies_exact in Hc as (? & ? & ?).
  - apply list_filter_iff. intros c. by rewrite residual_satisfies.
Qed.

Section WithComparator.
Variable localeCompare : string → string → Z.

Lemma queryResults_naive criteria db :
  queryResults localeCompare criteria db
  = JS.sort (byWord localeCompare)
      (filter (λ c, Reference.satisfies criteria c) (IDB.getAll (flashcards db))).
Proof. unfold queryResults. by rewrite seed_residual. Qed.

(** Whichever index seeds the candidates, [queryFlashcards] returns what a
    full scan returns that is filtered by the conjunction of the criteria as
    the code tests them, sorted by headword and sliced by offset and
    limit. *)
Lemma queryFlashcards_refines_naive (criteria : Criteria.t) (db : DB) :
  queryFlashcards localeCompare criteria db
  = Reference.queryFlashcards_naive localeCompare criteria db.
Proof.
  unfold queryFlashcards, Reference.queryFlashcards_naive.
  rewrite queryResults_naive. unfold JS.truthyNum.
  destruct (Criteria.limit criteria) as [n|]; simpl; [|done].
  by destruct (n =? 0).
Qed.

(** The test of the code and the criteria of the specification agree on a
    card when no search text is given, and when the translation of the card
    has no upper-case letter. *)
Lemma satisfies_meets criteria c :
  JS.truthyStr (Criteria.search criteria) = false
  ∨ JS.toLowerCase (Flashcard.persianTranslation c) = Flashcard.persianTranslation c →
  Reference.satisfies criteria c = Reference.meets criteria c.
Proof.
  unfold Reference.satisfies, Reference.meets. intros Hc. f_equal.
  unfold Reference.searched, Reference.matchesSearch, Reference.matchesIgnoringCase.
  destruct (Criteria.search criteria) as [q|]; [|done].
  destruct (String.eqb_spec q "") as [->|Hq].
  - simpl. by destruct (JS.toLowerCase (Flashcard.word c)).
  - destruct Hc as [Hc|Hc].
    + simpl in Hc. apply negb_false_iff, String.eqb_eq in Hc. done.
    + by rewrite Hc.
Qed.

Lemma filter_agree {A} (f g : A → bool) (l : list A) :
  (∀ x, x ∈ l → f x = g x) → filter (λ x, f x) l = filter (λ x, g x) l.
Proof.
  induction l as [|x l IH]; intros Hfg; [done|].
  rewrite !filter_cons, (Hfg x) by left.
  rewrite IH; [done|]. intros y Hy. apply Hfg. by right.
Qed.

(** The refinement of the naive algorithm of the specification holds on
    every store on whose cards the two tests agree. *)
Lemma queryFlashcards_refines_full_scan (criteria : Criteria.t) (db : DB) :
  (∀ k c, flashcards db !! k = Some c →
          Reference.satisfies criteria c = Reference.meets criteria c) →
  queryFlashcards localeCompare criteria db = Reference.fullScan localeCompare criteria db.
Proof.
  intros Hagree. rewrite queryFlashcards_refines_naive.
  unfold Reference.queryFlashcards_naive, Reference.fullScan.
  rewrite (filter_agree (Reference.satisfies criteria) (Reference.meets criteria)); [done|].
  intros c [k Hk]%elem_of_getAll. by eapply Hagree.
Qed.

Lemma elem_of_queryResults criteria db c :
  c ∈ queryResults localeCompare criteria db
  ↔ (∃ k, flashcards db !! k = Some c) ∧ Reference.satisfies criteria c = true.
Proof.
  rewrite queryResults_naive, elem_of_sort, list_elem_of_filter, elem_of_getAll.
  rewrite Is_true_true. tauto.
Qed.

Lemma queryResults_NoDup criteria db :
  IDB.keyed_wf (flashcards db) → NoDup (queryResults localeCompare criteria db).
Proof.
  intros Hwf. rewrite queryResults_naive, sort_Permutation.
  by apply NoDup_filter, getAll_NoDup.
Qed.

Lemma queryFlashcards_unpaged criteria db :
  queryFlashcards localeCompare (Reference.unpaged criteria) db
  = queryResults localeCompare criteria db.
Proof. unfold queryFlashcards. simpl. apply slice_all. Qed.

Lemma queryFlashcards_page criteria db (k n : nat) :
  (0 < n)%nat →
  queryFlashcards localeCompare (Reference.page criteria (Z.of_nat k) (Z.of_nat n)) db
  = take n (drop k (queryResults localeCompare criteria db)).
Proof.
  intros Hn. unfold queryFlashcards. simpl.
  destruct (Z.eqb_spec (Z.of_nat n) 0); [lia|]. simpl.
  apply (slice_page k n).
Qed.

(** Fetching pages until the first empty one walks through the whole list. *)
Lemma collectPages_drop (fetch : Z → list Flashcard.t) (l : list Flashcard.t) (n : nat) :
  (0 < n)%nat →
  (∀ k : nat, fetch (Z.of_nat k) = take n (drop k l)) →
  ∀ (fuel k : nat), (length (drop k l) < fuel)%nat →
    Reference.collectPages fetch (Z.of_nat n) fuel (Z.of_nat k) = drop k l.
Proof.
  intros Hn Hfetch. induction fuel as [|fuel IH]; intros k Hlen; [lia|].
  cbn [Reference.collectPages]. rewrite Hfetch.
  destruct (drop k l) as [|x d] eqn:Hd; [by rewrite take_nil|].
  destruct (take n (x :: d)) as [|y p] eqn:Hp.
  { destruct n; [lia|discriminate]. }
  rewrite <- Hp, <- Nat2Z.inj_add, IH.
  - by rewrite <- drop_drop, Hd, take_drop.
  - rewrite <- drop_drop, Hd, length_drop. cbn [length] in *. lia.
Qed.

(** C6. For a positive page size, the pages fetched at offsets 0, L, 2L, ...
    up to the first empty page, put end to end, are the unpaginated result:
    the same records in the same order, each stored card that satisfies the
    filters exactly once. *)
Theorem pagination_complete (criteria : Criteria.t) (db : DB) (L fuel : nat) :
  IDB.keyed_wf (flashcards db) →
  (0 < L)%nat →
  let full := queryFlashcards localeCompare (Reference.unpaged criteria) db in
  (length full < fuel)%nat →
  Reference.collectPages
    (λ offset,
       queryFlashcards localeCompare (Reference.page criteria offset (Z.of_nat L)) db)
    (Z.of_nat L) fuel 0
  = full
  ∧ NoDup full
  ∧ ∀ c, c ∈ full
         ↔ (∃ k, flashcards db !! k = Some c) ∧ Reference.satisfies criteria c = true.
Proof.
  intros Hwf HL full Hfuel. subst full.
  rewrite queryFlashcards_unpaged in *. split; [|split].
  - apply (collectPages_drop _ (queryResults localeCompare criteria db) L HL
             (λ k, queryFlashcards_page criteria db k L HL) fuel 0%nat).
    by rewrite drop_0.
  - by apply queryResults_NoDup.
  - intros c. apply elem_of_queryResults.
Qed.

Lemma queryResults_sorted criteria db :
  (∀ a b, localeCompare a b ≤ 0 ∨ localeCompare b a ≤ 0) →
  (∀ a b c, localeCompare a b ≤ 0 → localeCompare b c ≤ 0 → localeCompare a c ≤ 0) →
  StronglySorted
    (λ a b, localeCompare (Flashcard.word a) (Flashcard.word b) ≤ 0)
    (queryResults localeCompare criteria db).
Proof.
  intros Htot Htrans.
  assert (StronglySorted (λ a b, byWord localeCompare a b = true)
            (queryResults localeCompare criteria db)) as Hs.
  { apply sort_StronglySorted; unfold byWord.
    - intros a b. rewrite !Z.leb_le. apply Htot.
    - intros a b c. rewrite !Z.leb_le. apply Htrans. }
  induction Hs as [|c l Hl IH Hc]; constructor; [done|].
  eapply Forall_impl; [exact Hc|]. intros d. unfold byWord. by rewrite Z.leb_le.
Qed.

(** C2 (amended). For an article id [A] that is neither empty nor the
    sentinel ['all'], and with the type and level filters absent or ['all'],
    [queryFlashcards({articleId: A})] returns exactly the stored flashcards
    whose [articleId] is [A], in ascending order of headword for the
    comparison of the runtime. *)
Theorem queryFlashcards_by_article (A : string) (ty lv : option string) (db : DB) :
  (∀ a b, localeCompare a b ≤ 0 ∨ localeCompare b a ≤ 0) →
  (∀ a b c, localeCompare a b ≤ 0 → localeCompare b c ≤ 0 → localeCompare a c ≤ 0) →
  A ≠ "" → A ≠ "all" →
  ty = None ∨ ty = Some "all" →
  lv = None ∨ lv = Some "all" →
  let result :=
    queryFlashcards localeCompare (Criteria.mk (Some A) ty lv None None None) db in
  (∀ c, c ∈ result
        ↔ (∃ k, flashcards db !! k = Some c) ∧ Flashcard.articleId c = A)
  ∧ StronglySorted
      (λ a b, localeCompare (Flashcard.word a) (Flashcard.word b) ≤ 0) result.
Proof.
  intros Htot Htrans HA1 HA2 Hty Hlv result. subst result.
  change (Criteria.mk (Some A) ty lv None None None)
    with (Reference.unpaged (Criteria.mk (Some A) ty lv None None None)).
  rewrite queryFlashcards_unpaged. split; [|by apply queryResults_sorted].
  intros c. rewrite elem_of_queryResults.
  assert (Reference.satisfies (Criteria.mk (Some A) ty lv None None None) c = true
          ↔ Flashcard.articleId c = A) as ->; [|done].
  apply String.eqb_neq in HA1, HA2.
  unfold Reference.satisfies, Reference.exact, Reference.searched. simpl.
  rewrite HA1, HA2. simpl.
  destruct Hty as [-> | ->], Hlv as [-> | ->]; simpl;
    rewrite ?andb_true_r; apply String.eqb_eq.
Qed.

End WithComparator.

(** C2 as stated fails for the sentinel: asked for the article id ['all'],
    [queryFlashcards] returns every flashcard, here the one card of the
    store, which belongs to the article [a1]. *)
Lemma queryFlashcards_article_all_sentinel :
  queryFlashcards Sample.byCodeUnit
    (Criteria.mk (Some "all") None None None None None) Sample.dbOne
  = [Sample.card1]
  ∧ Flashcard.articleId Sample.card1 = "a1".
Proof. vm_compute. done. Qed.

Lemma queryFlashcards_by_article_witness :
  let result :=
    queryFlashcards Sample.byCodeUnit (Criteria.mk (Some "a1") None (Some "all") None None None)
      Sample.db1 in
  (∀ c, c ∈ result
        ↔ (∃ k, flashcards Sample.db1 !! k = Some c) ∧ Flashcard.articleId c = "a1")
  ∧ StronglySorted
      (λ a b, Sample.byCodeUnit (Flashcard.word a) (Flashcard.word b) ≤ 0) result.
Proof.
  apply (queryFlashcards_by_article Sample.byCodeUnit "a1" None (Some "all") Sample.db1).
  - apply byCodeUnit_total.
  - apply byCodeUnit_trans.
  - discriminate.
  - discriminate.
  - left. reflexivity.
  - right. reflexivity.
Defined.

Lemma pagination_complete_witness :
  let full :=
    queryFlashcards Sample.byCodeUnit
      (Reference.unpaged (Criteria.mk (Some "a1") None None None None None)) Sample.db1 in
  Reference.collectPages
    (λ offset,
       queryFlashcards Sample.byCodeUnit
         (Reference.page (Criteria.mk (Some "a1") None None None None None) offset
            (Z.of_nat 1)) Sample.db1)
    (Z.of_nat 1) 3 0
  = full
  ∧ NoDup full
  ∧ ∀ c, c ∈ full
         ↔ (∃ k, flashcards Sample.db1 !! k = Some c)
           ∧ Reference.satisfies (Criteria.mk (Some "a1") None None None None None) c = true.
Proof.
  apply (pagination_complete Sample.byCodeUnit
           (Criteria.mk (Some "a1") None None None None None) Sample.db1 1 3).
  - apply (bool_decide_unpack _). vm_compute. exact I.
  - lia.
  - vm_compute. lia.
Defined.

End QueryFacts.

(** ** The search filter *)

Section SearchFacts.
Import DatabaseService.

Lemma lowerChar_idemp c : JS.lowerChar (JS.lowerChar c) = JS.lowerChar c.
Proof. by destruct c as [[] [] [] [] [] [] [] []]. Qed.

Lemma toLowerCase_idemp s : JS.toLowerCase (JS.toLowerCase s) = JS.toLowerCase s.
Proof. induction s as [|c s IH]; simpl; [done|]. by rewrite lowerChar_idemp, IH. Qed.

Lemma prefix_toLowerCase q s :
  String.prefix q s = true →
  String.prefix (JS.toLowerCase q) (JS.toLowerCase s) = true.
Proof.
  revert q. induction s as [|b s IH]; intros [|a q]; simpl; try done.
  destruct (ascii_dec a b) as [->|]; [|done].
  intros Hq. destruct (ascii_dec _ _); [by apply IH|done].
Qed.

Lemma includes_toLowerCase s q :
  JS.includes s q = true →
  JS.includes (JS.toLowerCase s) (JS.toLowerCase q) = true.
Proof.
  induction s as [|b s IH]; cbn [JS.includes JS.toLowerCase].
  - rewrite !orb_false_r. apply (prefix_toLowerCase q "").
  - intros [Hp|Hi]%orb_prop; apply orb_true_intro.
    + left. by apply (prefix_toLowerCase q (String b s)).
    + right. by apply IH.
Qed.

(** What the search criterion of the code tests, and what this gives in
    terms of case-insensitive matching: a card that passes matches the query
    in its headword or in its translation. The converse fails, see below. *)
Lemma residual_search s c :
  residual (Criteria.mk None None None (Some s) None None) c
  = String.eqb s ""
    || Reference.matchesIgnoringCase (Flashcard.word c) s
    || JS.includes (Flashcard.persianTranslation c) (JS.toLowerCase s).
Proof. by rewrite residual_satisfies. Qed.

Lemma residual_search_sound s c :
  residual (Criteria.mk None None None (Some s) None None) c = true →
  s = ""
  ∨ Reference.matchesIgnoringCase (Flashcard.word c) s = true
  ∨ Reference.matchesIgnoringCase (Flashcard.persianTranslation c) s = true.
Proof.
  rewrite residual_search. intros [[Hs|Hw]%orb_prop|Ht]%orb_prop.
  - left. by apply String.eqb_eq.
  - right. by left.
  - right. right. unfold Reference.matchesIgnoringCase.
    rewrite <- (toLowerCase_idemp s). by apply includes_toLowerCase.
Qed.

End SearchFacts.

(** C10. [queryFlashcards] does not return what the naive algorithm of the
    specification returns (scan every flashcard, keep the cards that meet
    every criterion, sort by headword, slice): on a store that holds the one
    card with translation ["zhenom (DNA)"], the search for ["DNA"] finds
    nothing, while the scan with the case-insensitive match on headword or
    translation finds the card. The index seed is not the cause (see
    [queryFlashcards_refines_full_scan]); the search test is. *)
Theorem queryFlashcards_diverges_from_full_scan :
  let criteria := Criteria.mk None None None (Some "DNA") None None in
  let db := mkDB ∅ ∅ (IDB.put Sample.card4 ∅) None ∅ in
  DatabaseService.queryFlashcards Sample.byCodeUnit criteria db = []
  ∧ Reference.fullScan Sample.byCodeUnit criteria db = [Sample.card4].
Proof. vm_compute. done. Qed.

(** C7. The search filter of [queryFlashcards] lower-cases the query and the
    headword but not the translation: the card whose translation is
    ["zhenom (DNA)"] matches the query ["DNA"] case-insensitively (and even
    literally), yet the filter rejects it. *)
Theorem search_misses_translation_case :
  Reference.matchesIgnoringCase (Flashcard.persianTranslation Sample.card4) "DNA" = true
  ∧ JS.includes (Flashcard.persianTranslation Sample.card4) "DNA" = true
  ∧ DatabaseService.residual (Criteria.mk None None None (Some "DNA") None None) Sample.card4
    = false.
Proof. vm_compute. done. Qed.

(** ** Session selection *)

Section SessionFacts.
Import DatabaseService AppContext.

Lemma sessionFilter_sublist filters cards :
  sessionFilter filters cards `sublist_of` cards.
Proof.
  unfold sessionFilter.
  destruct (selective (Criteria.type filters)),
    (selective (Criteria.level filters)),
    (selective (Criteria.articleId filters));
    repeat (etrans; [apply sublist_filter|]); done.
Qed.

Lemma sessionFilter_Forall (P : Flashcard.t → Prop) filters cards :
  Forall P cards → Forall P (sessionFilter filters cards).
Proof.
  rewrite !Forall_forall. intros HP c Hc. apply HP.
  by eapply sublist_subseteq; [apply sessionFilter_sublist|].
Qed.

Lemma getDueFlashcards_take now (N : nat) db :
  getDueFlashcards now (Some (Z.of_nat N)) db
  = take N (by_review (IDB.upperBound now) db).
Proof. apply slice_prefix. Qed.

Lemma getNewFlashcards_take (N : nat) db :
  getNewFlashcards (Some (Z.of_nat N)) db = take N (by_stage (IDB.onlyNum 0) db).
Proof. apply slice_prefix. Qed.

Lemma by_review_due now db :
  Forall (λ c, Flashcard.nextReview c ≤ now) (by_review (IDB.upperBound now) db).
Proof.
  apply Forall_forall. intros c (_ & x & [= <-] & Hr)%elem_of_getAllFromIndex.
  by apply Z.leb_le.
Qed.

Lemma by_stage_new db :
  Forall (λ c, Flashcard.stage c = 0) (by_stage (IDB.onlyNum 0) db).
Proof.
  apply Forall_forall. intros c (_ & x & [= <-] & Hr)%elem_of_getAllFromIndex.
  symmetry. by apply Z.eqb_eq.
Qed.

Section WithComparator.
Variable localeCompare : string → string → Z.

(** C3. In the modes 'due' and 'new' the candidates are read from the index
    (review time up to now, stage 0), cut to the first [N], and only then
    passed through the type, level and article filters: every returned card
    is due (is new) and at most [N] cards are returned. *)
Theorem session_selection_boundary (now : Z) (filters : Criteria.t) (N : nat)
    (db : DB) (result : list Flashcard.t) :
  (getCardsForSession localeCompare now due filters (Some (Z.of_nat N)) db result →
     result ≡ₚ sessionFilter filters (take N (by_review (IDB.upperBound now) db))
     ∧ Forall (λ c, Flashcard.nextReview c ≤ now) result
     ∧ (length result ≤ N)%nat)
  ∧ (getCardsForSession localeCompare now new filters (Some (Z.of_nat N)) db result →
     result ≡ₚ sessionFilter filters (take N (by_stage (IDB.onlyNum 0) db))
     ∧ Forall (λ c, Flashcard.stage c = 0) result
     ∧ (length result ≤ N)%nat).
Proof.
  unfold getCardsForSession, sessionCards, sessionPool.
  rewrite getDueFlashcards_take, getNewFlashcards_take.
  split; intros Hres; (split; [done|]); rewrite Hres; split.
  - apply sessionFilter_Forall, Forall_take, by_review_due.
  - etrans; [apply sublist_length, sessionFilter_sublist|].
    rewrite length_take. lia.
  - apply sessionFilter_Forall, Forall_take, by_stage_new.
  - etrans; [apply sublist_length, sessionFilter_sublist|].
    rewrite length_take. lia.
Qed.

End WithComparator.
(** The cap comes first: with three due cards, two of them of article [a1],
    a session of two cards filtered on [a1] returns one card. *)
Lemma session_truncates_before_filtering :
  let db := addFlashcards [Sample.card4] Sample.db1 in
  let filters := Criteria.mk (Some "a1") None None None None None in
  Flashcard.id <$> by_review (IDB.upperBound 1000) db = ["c1"; "c4"; "c3"]
  ∧ Flashcard.id <$> sessionCards Sample.byCodeUnit 1000 due filters (Some 2) db = ["c1"].
Proof. vm_compute. done. Qed.

Lemma session_selection_boundary_witness :
  let filters := Criteria.mk (Some "a1") None None None None None in
  let result := sessionCards Sample.byCodeUnit 1000 due filters (Some (Z.of_nat 1)) Sample.db1 in
  result ≡ₚ sessionFilter filters (take 1 (by_review (IDB.upperBound 1000) Sample.db1))
  ∧ Forall (λ c, Flashcard.nextReview c ≤ 1000) result
  ∧ (length result ≤ 1)%nat.
Proof.
  apply (proj1 (session_selection_boundary Sample.byCodeUnit 1000
                  (Criteria.mk (Some "a1") None None None None None) 1 Sample.db1 _)).
  unfold getCardsForSession. reflexivity.
Defined.

End SessionFacts.

(** ** Backup and restore *)

Section BackupFacts.
Import DatabaseService.

Lemma importKind_merged {V} `{Keyed V} (items : option (list V)) (m : gmap string V) :
  Reference.merged items m (importKind items m).
Proof.
  destruct items as [l|]; simpl; [|done]. split.
  - intros k Hk. by apply putAll_lookup_other.
  - intros l1 v l2 -> Hv. by apply putAll_lookup_last.
Qed.

(** C4. Importing the export of a store into an empty store rebuilds the
    store: the same articles, segments, flashcards, settings and collections
    (and so the same answers to every query). *)
Theorem import_export_roundtrip (now : Z) (db : DB) :
  db_wf db → importDatabase (exportDatabase now db) emptyDB = db.
Proof.
  intros (Ha & Hs & Hf & Hc). destruct db as [a s f st c].
  unfold importDatabase, exportDatabase. simpl in *.
  rewrite !putAll_getAll by done. by destruct st.
Qed.

Lemma import_export_roundtrip_witness :
  importDatabase (exportDatabase 1000 Sample.db1) emptyDB = Sample.db1.
Proof.
  apply (import_export_roundtrip 1000 Sample.db1).
  repeat split; apply (bool_decide_unpack _); vm_compute; exact I.
Defined.

(** C5. An import merges: for every entity kind, a kind absent from the
    document is left as it was; under a kind that is present, a record whose
    id the document does not mention survives unchanged, and an id that the
    document mentions holds the version written last, whole. The settings
    record is replaced when the document has one and kept otherwise. *)
Theorem importDatabase_merges (data : Backup.t) (db : DB) :
  let db' := importDatabase data db in
  Reference.merged (Backup.articles data) (articles db) (articles db')
  ∧ Reference.merged (Backup.segments data) (segments db) (segments db')
  ∧ Reference.merged (Backup.flashcards data) (flashcards db) (flashcards db')
  ∧ Reference.merged (Backup.collections data) (collections db) (collections db')
  ∧ (Backup.settings data = None → settings db' = settings db)
  ∧ (∀ s, Backup.settings data = Some s → settings db' = Some s).
Proof.
  simpl. repeat split; try apply importKind_merged.
  - by intros ->.
  - by intros s ->.
Qed.

(** The scenario of the specification: the store holds X, the document holds
    only Y; afterwards both are present. *)
Lemma importDatabase_keeps_both :
  let doc := Backup.mk 1 0 None None (Some [Sample.card4]) None None in
  let db' := importDatabase doc Sample.db1 in
  flashcards db' !! "c1" = Some Sample.card1
  ∧ flashcards db' !! "c4" = Some Sample.card4
  ∧ segments db' = segments Sample.db1.
Proof. vm_compute. done. Qed.

End BackupFacts.

(** ** Approved words of a segment *)

Section SegmentFacts.
Import DatabaseService AppContext.

Lemma find_Some {A} (p : A → bool) (l : list A) (x : A) :
  JS.find p l = Some x → x ∈ l ∧ p x = true.
Proof.
  induction l as [|y l IH]; simpl; [done|].
  destruct (p y) eqn:Hy.
  - intros [= ->]. split; [left|done].
  - intros [Hx ?]%IH. split; [by right|done].
Qed.

(** [getSegment] returns a stored segment. *)
Lemma getSegment_stored articleId index db segment :
  getSegment articleId index db = Some segment →
  ∃ k, segments db !! k = Some segment.
Proof.
  unfold getSegment. intros [Hin _]%find_Some.
  by apply elem_of_getAllFromIndex in Hin as [Hk _].
Qed.

Lemma updateSegment_consistent segment db :
  Reference.approvedAreAnalyzed segment = true →
  Reference.segmentsConsistent db →
  Reference.segmentsConsistent (updateSegment segment db).
Proof. intros Hs Hdb. by apply map_Forall_insert_2. Qed.

Lemma addFlashcards_consistent cards db :
  Reference.segmentsConsistent db →
  Reference.segmentsConsistent (addFlashcards cards db).
Proof. done. Qed.

Lemma approve_consistent fresh articleId index lemmas db :
  SegmentOps.selectsAnalyzed (SegmentOps.Approve fresh articleId index lemmas) db = true →
  Reference.segmentsConsistent db →
  Reference.segmentsConsistent (approveWordsForSegment fresh articleId index lemmas db).
Proof.
  unfold approveWordsForSegment. simpl.
  destruct (getSegment articleId index db) as [segment|]; [|done].
  intros Hsel Hdb. apply updateSegment_consistent; [done|].
  by apply addFlashcards_consistent.
Qed.

Lemma addCustom_consistent fresh articleId index analysis db :
  Reference.segmentsConsistent db →
  Reference.segmentsConsistent (addCustomWordToSegment fresh articleId index analysis db).
Proof.
  unfold addCustomWordToSegment. intros Hdb.
  destruct (getSegment articleId index db) as [segment|] eqn:Hseg; [|done].
  apply addFlashcards_consistent.
  destruct (existsb _ _); simpl; [done|].
  apply updateSegment_consistent; [|done].
  apply getSegment_stored in Hseg as [k Hk].
  pose proof (Hdb _ _ Hk) as Hinv. simpl in Hinv.
  unfold Reference.approvedAreAnalyzed in *. simpl.
  rewrite forallb_app. apply andb_true_intro. split.
  - rewrite forallb_forall in Hinv |- *. intros l Hl.
    rewrite existsb_app. by rewrite (Hinv l Hl).
  - simpl. rewrite existsb_app. simpl. rewrite String.eqb_refl.
    by rewrite !orb_true_r.
Qed.

(** C9 (amended). Starting from a store whose segments have all their
    approved lemmas among their analysed words, any sequence of
    [approveWordsForSegment] and [addCustomWordToSegment] in which every
    approval passes only lemmas of the analysed words of its segment leaves
    every stored segment in that condition. *)
Theorem approved_within_analyzed (ops : list SegmentOps.t) (db : DB) :
  Reference.segmentsConsistent db →
  SegmentOps.wellSelected ops db = true →
  Reference.segmentsConsistent (SegmentOps.run ops db).
Proof.
  revert db. induction ops as [|op ops IH]; intros db Hdb Hops; [done|].
  simpl in Hops. apply andb_prop in Hops as [Hop Hops].
  apply (IH (SegmentOps.apply op db)); [|done].
  destruct op as [fresh a i lemmas|fresh a i w]; simpl.
  - by apply approve_consistent.
  - by apply addCustom_consistent.
Qed.

(** C9 as stated fails: [approveWordsForSegment] stores the lemmas it is
    given; after approving ["perspicacious"] on a segment whose only analysed
    lemma is ["serendipity"], the stored segment breaks the inclusion. *)
Lemma approve_unknown_lemma :
  Reference.segmentsConsistent Sample.db1
  ∧ ArticleSegment.approvedWordIds
      <$> segments (SegmentOps.run [Sample.approveUnknown] Sample.db1) !! "s0"
    = Some ["perspicacious"]
  ∧ Reference.approvedAreAnalyzed
      <$> segments (SegmentOps.run [Sample.approveUnknown] Sample.db1) !! "s0"
    = Some false.
Proof.
  split; [|by vm_compute].
  unfold Reference.segmentsConsistent. apply (bool_decide_unpack _). vm_compute. exact I.
Qed.

Lemma approved_within_analyzed_witness :
  Reference.segmentsConsistent (SegmentOps.run Sample.approveThenAdd Sample.db1).
Proof.
  apply (approved_within_analyzed Sample.approveThenAdd Sample.db1).
  - unfold Reference.segmentsConsistent. apply (bool_decide_unpack _). vm_compute. exact I.
  - vm_compute. reflexivity.
Defined.

End SegmentFacts.

(** * Further properties of the code *)

(** ** More on object stores *)

Section MoreStoreFacts.
Context {V : Type} `{Keyed V}.
Implicit Types m : gmap string V.

(** What a bulk write leaves under a key comes from the list or was there
    before. *)
Lemma putAll_lookup_Some l m k v :
  IDB.putAll l m !! k = Some v → (v ∈ l ∧ keyOf v = k) ∨ m !! k = Some v.
Proof.
  revert m. induction l as [|x l IH]; intros m; [by right|].
  rewrite putAll_cons. intros [[Hv Hk]|Hm]%IH.
  - left. split; [by right|done].
  - unfold IDB.put in Hm. apply lookup_insert_Some in Hm as [[<- <-]|[_ Hm]].
    + left. split; [by left|done].
    + by right.
Qed.

(** Under a key that the list mentions, the outcome does not depend on the
    store written to. *)
Lemma putAll_lookup_mentioned l m m' k :
  k ∈ keyOf <$> l → IDB.putAll l m !! k = IDB.putAll l m' !! k.
Proof.
  revert m m'. induction l as [|x l IH]; intros m m' Hk.
  { by apply elem_of_nil in Hk. }
  rewrite !putAll_cons.
  destruct (decide (k ∈ keyOf <$> l)) as [Hin|Hout]; [by apply IH|].
  rewrite !putAll_lookup_other by done.
  rewrite fmap_cons in Hk. apply elem_of_cons in Hk as [->|?]; [|done].
  unfold IDB.put. by rewrite !lookup_insert_eq.
Qed.

Lemma putAll_idemp l m : IDB.putAll l (IDB.putAll l m) = IDB.putAll l m.
Proof.
  apply map_eq. intros k. destruct (decide (k ∈ keyOf <$> l)).
  - by apply putAll_lookup_mentioned.
  - by rewrite putAll_lookup_other.
Qed.

(** Writing records that are already stored as they are changes nothing. *)
Lemma putAll_stored l m :
  (∀ v, v ∈ l → m !! keyOf v = Some v) → IDB.putAll l m = m.
Proof.
  revert m. induction l as [|x l IH]; intros m Hl; [done|].
  rewrite putAll_cons. unfold IDB.put.
  rewrite insert_id by (apply Hl; by left).
  apply IH. intros v Hv. apply Hl. by right.
Qed.

Lemma putAll_is_Some l m k : is_Some (m !! k) → is_Some (IDB.putAll l m !! k).
Proof.
  revert m. induction l as [|x l IH]; intros m Hk; [done|].
  rewrite putAll_cons. apply IH. unfold IDB.put.
  rewrite lookup_insert_is_Some. destruct (decide (keyOf x = k)); auto.
Qed.

Lemma put_wf v m : IDB.keyed_wf m → IDB.keyed_wf (IDB.put v m).
Proof. intros Hwf. by apply map_Forall_insert_2. Qed.

(** With distinct ids, reading back a bulk write into an empty store gives
    the records written. *)
Lemma getAll_putAll_empty l :
  NoDup (keyOf <$> l) → IDB.getAll (IDB.putAll l ∅) ≡ₚ l.
Proof.
  intros Hnd. apply NoDup_Permutation.
  - apply getAll_NoDup, putAll_wf, map_Forall_empty.
  - by apply NoDup_fmap_1 in Hnd.
  - intros v. rewrite elem_of_getAll. split.
    + intros [k [[? _]|Hk]%putAll_lookup_Some]; [done|].
      by rewrite lookup_empty in Hk.
    + intros Hv. exists (keyOf v).
      apply list_elem_of_split in Hv as (l1 & l2 & ->).
      apply putAll_lookup_last.
      rewrite fmap_app, fmap_cons in Hnd.
      apply NoDup_app in Hnd as (_ & _ & Hnd).
      by apply NoDup_cons in Hnd as [? _].
Qed.

(** [getAll] lists the records in ascending order of key. *)
Lemma getAll_sorted m :
  StronglySorted (λ a b, String.leb (keyOf a) (keyOf b) = true) (IDB.getAll m).
Proof.
  apply sort_StronglySorted.
  - intros a b. apply String.leb_total.
  - intros a b c Hab Hbc.
    apply Is_true_true. apply Is_true_true in Hab, Hbc.
    exact (transitivity (R := String.le) Hab Hbc).
Qed.

Lemma length_getAll m : length (IDB.getAll m) = size m.
Proof.
  unfold IDB.getAll. rewrite length_sort, length_fmap.
  apply length_map_to_list.
Qed.

End MoreStoreFacts.

(** ** More on backup and restore *)

Section MoreBackupFacts.
Import DatabaseService.

Lemma importKind_idemp {V} `{Keyed V} (items : option (list V)) (m : gmap string V) :
  importKind items (importKind items m) = importKind items m.
Proof. destruct items; simpl; [apply putAll_idemp|done]. Qed.

(** X1. Importing the same backup document a second time changes nothing:
    the import is idempotent. *)
Theorem importDatabase_idempotent (data : Backup.t) (db : DB) :
  importDatabase data (importDatabase data db) = importDatabase data db.
Proof.
  unfold importDatabase. simpl. rewrite !importKind_idemp.
  by destruct (Backup.settings data).
Qed.

Lemma putAll_getAll_self {V} `{Keyed V} (m : gmap string V) :
  IDB.keyed_wf m → IDB.putAll (IDB.getAll m) m = m.
Proof.
  intros Hwf. apply putAll_stored.
  intros v [k Hk]%elem_of_getAll. by rewrite (Hwf _ _ Hk).
Qed.

(** X2. Importing the export of a store into that same store leaves it as it
    is: restoring one's own backup loses and duplicates nothing. *)
Theorem import_own_export (now : Z) (db : DB) :
  db_wf db → importDatabase (exportDatabase now db) db = db.
Proof.
  intros (Ha & Hs & Hf & Hc). destruct db as [a s f st c].
  unfold importDatabase, exportDatabase. simpl in *.
  rewrite !putAll_getAll_self by done. by destruct st.
Qed.

Lemma import_own_export_witness :
  importDatabase (exportDatabase 77 Sample.db1) Sample.db1 = Sample.db1.
Proof.
  apply (import_own_export 77 Sample.db1).
  repeat split; apply (bool_decide_unpack _); vm_compute; exact I.
Defined.

(** X3. The other round trip: a document whose records have distinct ids
    within each kind, imported into an empty store and exported again, comes
    back with version 1, the clock reading of the export, the same settings
    and, for each kind, the same records up to order (a kind absent from the
    document comes back as the empty array). *)
Theorem export_after_import (now : Z) (data : Backup.t) :
  NoDup (Article.id <$> default [] (Backup.articles data)) →
  NoDup (ArticleSegment.id <$> default [] (Backup.segments data)) →
  NoDup (Flashcard.id <$> default [] (Backup.flashcards data)) →
  NoDup (Collection.id <$> default [] (Backup.collections data)) →
  let out := exportDatabase now (importDatabase data emptyDB) in
  Backup.version out = 1 ∧ Backup.timestamp out = now
  ∧ Backup.settings out = Backup.settings data
  ∧ default [] (Backup.articles out) ≡ₚ default [] (Backup.articles data)
  ∧ default [] (Backup.segments out) ≡ₚ default [] (Backup.segments data)
  ∧ default [] (Backup.flashcards out) ≡ₚ default [] (Backup.flashcards data)
  ∧ default [] (Backup.collections out) ≡ₚ default [] (Backup.collections data).
Proof.
  assert (∀ {V} `{Keyed V} (items : option (list V)),
    NoDup (keyOf <$> default [] items) →
    IDB.getAll (importKind items ∅) ≡ₚ default [] items) as Hkind.
  { intros V ? [l|] Hnd; simpl in *.
    - by apply getAll_putAll_empty.
    - unfold IDB.getAll. by rewrite map_to_list_empty. }
  intros Ha Hs Hf Hc. simpl. repeat split; try by apply Hkind.
  by destruct (Backup.settings data).
Qed.

Lemma export_after_import_witness :
  let data := Backup.mk 1 0 None None (Some [Sample.card3; Sample.card1]) None None in
  let out := exportDatabase 5 (importDatabase data emptyDB) in
  Backup.version out = 1 ∧ Backup.timestamp out = 5
  ∧ Backup.settings out = Backup.settings data
  ∧ default [] (Backup.articles out) ≡ₚ default [] (Backup.articles data)
  ∧ default [] (Backup.segments out) ≡ₚ default [] (Backup.segments data)
  ∧ default [] (Backup.flashcards out) ≡ₚ default [] (Backup.flashcards data)
  ∧ default [] (Backup.collections out) ≡ₚ default [] (Backup.collections data).
Proof.
  apply (export_after_import 5
           (Backup.mk 1 0 None None (Some [Sample.card3; Sample.card1]) None None));
    apply (bool_decide_unpack _); vm_compute; exact I.
Defined.

End MoreBackupFacts.

(** ** Reading segments *)

Section MoreSegmentFacts.
Import DatabaseService.

Lemma find_None {A} (p : A → bool) (l : list A) :
  JS.find p l = None ↔ ∀ x, x ∈ l → p x = false.
Proof.
  induction l as [|y l IH]; simpl.
  - split; [|done]. intros _ x Hx. by apply elem_of_nil in Hx.
  - destruct (p y) eqn:Hy.
    + split; [done|]. intros Hall. specialize (Hall y (list_elem_of_here _ _)). congruence.
    + rewrite IH. split.
      * intros Hall x [->|Hx]%elem_of_cons; auto.
      * intros Hall x Hx. apply Hall. by right.
Qed.

Lemma elem_of_segments_by_article articleId db s :
  s ∈ IDB.getAllFromIndex ArticleSegment.articleId String.leb (IDB.only articleId) (segments db)
  ↔ (∃ k, segments db !! k = Some s) ∧ ArticleSegment.articleId s = Some articleId.
Proof.
  rewrite elem_of_getAllFromIndex. split.
  - intros [Hk (x & Hx & ->%String.eqb_eq)]. done.
  - intros [Hk Ha]. split; [done|]. exists articleId. split; [done|].
    apply String.eqb_refl.
Qed.

Lemma getSegment_Some articleId index db s :
  getSegment articleId index db = Some s →
  (∃ k, segments db !! k = Some s)
  ∧ ArticleSegment.articleId s = Some articleId
  ∧ ArticleSegment.index s = index.
Proof.
  unfold getSegment. intros [Hin Hp]%find_Some.
  apply elem_of_segments_by_article in Hin as [Hk Ha].
  by apply Z.eqb_eq in Hp.
Qed.

Lemma getSegment_None articleId index db :
  getSegment articleId index db = None
  ↔ ∀ k s, segments db !! k = Some s →
           ArticleSegment.articleId s = Some articleId →
           ArticleSegment.index s ≠ index.
Proof.
  unfold getSegment. rewrite find_None. split.
  - intros Hall k s Hk Ha. apply Z.eqb_neq, Hall.
    apply elem_of_segments_by_article. eauto.
  - intros Hall s [[k Hk] Ha]%elem_of_segments_by_article.
    apply Z.eqb_neq. by eapply Hall.
Qed.

Lemma getSegment_is_Some articleId index db k s :
  segments db !! k = Some s →
  ArticleSegment.articleId s = Some articleId →
  ArticleSegment.index s = index →
  is_Some (getSegment articleId index db).
Proof.
  intros Hk Ha Hi. destruct (getSegment articleId index db) eqn:Hg; [done|].
  rewrite getSegment_None in Hg. by destruct (Hg k s Hk Ha).
Qed.

(** X4. [getSegment(articleId, index)] returns a stored segment of that
    article at that index, and it finds one whenever one is stored: the
    answer is 'not found' exactly when no stored segment has that article id
    and index. *)
Theorem getSegment_correct (articleId : string) (index : Z) (db : DB) :
  (∀ s, getSegment articleId index db = Some s →
        (∃ k, segments db !! k = Some s)
        ∧ ArticleSegment.articleId s = Some articleId
        ∧ ArticleSegment.index s = index)
  ∧ (getSegment articleId index db = None
     ↔ ∀ k s, segments db !! k = Some s →
              ArticleSegment.articleId s = Some articleId →
              ArticleSegment.index s ≠ index).
Proof.
  split; [intros s; apply getSegment_Some | apply getSegment_None].
Qed.

(** When no two segments of an article share an index, [getSegment] returns
    the segment of the article at the index. *)
Lemma getSegment_unique articleId index db k s :
  Conditions.uniqueSegments db →
  segments db !! k = Some s →
  ArticleSegment.articleId s = Some articleId →
  ArticleSegment.index s = index →
  getSegment articleId index db = Some s.
Proof.
  intros Huniq Hk Ha Hi.
  destruct (getSegment_is_Some _ _ _ _ _ Hk Ha Hi) as [s' Hs'].
  rewrite Hs'. f_equal.
  apply getSegment_Some in Hs' as ([k' Hk'] & Ha' & Hi').
  eapply Huniq; eauto; congruence.
Qed.

End MoreSegmentFacts.

(** ** Importing an article *)

Section ImportFacts.
Import DatabaseService.

Lemma putAll_lookup_in {V} `{Keyed V} (l : list V) (m : gmap string V) v :
  NoDup (keyOf <$> l) → v ∈ l → IDB.putAll l m !! keyOf v = Some v.
Proof.
  intros Hnd (l1 & l2 & ->)%list_elem_of_split.
  apply putAll_lookup_last.
  rewrite fmap_app, fmap_cons in Hnd.
  apply NoDup_app in Hnd as (_ & _ & Hnd).
  by apply NoDup_cons in Hnd as [? _].
Qed.

(** The [index]-th segment built by [handleAnalyze]. *)
Lemma buildSegments_lookup ids analysis raw (i : nat) :
  ArticleImport.buildSegments ids analysis raw !! i
  = (λ content,
       ArticleSegment.mk (ids i) (Z.of_nat i) ("Part " +:+ pretty (i + 1)%nat) content
         (if i is O then analysis else []) [] None (if i is O then true else false) None)
    <$> raw !! i.
Proof. unfold ArticleImport.buildSegments. by rewrite list_lookup_imap. Qed.

Lemma buildSegments_keys ids analysis raw :
  ArticleSegment.id <$> ArticleImport.buildSegments ids analysis raw
  = ids <$> seq 0 (length raw).
Proof.
  apply list_eq. intros i.
  rewrite !list_lookup_fmap, buildSegments_lookup.
  destruct (raw !! i) as [c|] eqn:Hi; simpl.
  - apply lookup_lt_Some in Hi. by rewrite lookup_seq_lt.
  - apply lookup_ge_None in Hi. by rewrite lookup_seq_ge.
Qed.

Lemma buildSegments_approved ids analysis raw :
  Forall (λ s, Reference.approvedAreAnalyzed s = true)
    (ArticleImport.buildSegments ids analysis raw).
Proof.
  apply Forall_lookup. intros i s. rewrite buildSegments_lookup.
  destruct (raw !! i); [|done]. by intros [= <-].
Qed.

(** X5. After [handleAnalyze] has stored an article cut into chunks, with
    segment ids that are pairwise distinct and an article id that no stored
    segment carries yet, [getSegment(articleId, i)] returns the [i]-th chunk:
    its full content, index [i], title "Part i+1", the analysis on the first
    segment only, nothing approved, and the article id attached. *)
Theorem imported_segment_readable (ids : nat → string) (analysis : list WordAnalysis.t)
    (raw : list string) (newId : string) (now : Z) (title : string)
    (collectionId : option string) (ctx : AppStore.Ctx) (db : DB)
    (i : nat) (content : string) :
  NoDup (ids <$> seq 0 (length raw)) →
  (∀ k s, segments db !! k = Some s → ArticleSegment.articleId s ≠ Some newId) →
  raw !! i = Some content →
  let segs := ArticleImport.buildSegments ids analysis raw in
  let db' := (AppStore.addArticle newId now title segs collectionId (ctx, db)).2.2 in
  getSegment newId (Z.of_nat i) db'
  = Some (ArticleSegment.mk (ids i) (Z.of_nat i) ("Part " +:+ pretty (i + 1)%nat) content
            (if i is O then analysis else []) [] None (if i is O then true else false)
            (Some newId)).
Proof.
  intros Hnd Hfresh Hi segs db'.
  set (v := ArticleSegment.mk (ids i) _ _ content _ _ _ _ (Some newId)).
  assert (v ∈ ArticleStore.withArticleId newId <$> segs) as Hv.
  { apply list_elem_of_fmap. eexists. split; [|apply list_elem_of_lookup; exists i;
      subst segs; rewrite buildSegments_lookup, Hi; reflexivity]. done. }
  assert (NoDup (keyOf <$> (ArticleStore.withArticleId newId <$> segs))) as Hkeys.
  { rewrite <- list_fmap_compose.
    change (NoDup (ArticleSegment.id <$> segs)).
    subst segs. by rewrite buildSegments_keys. }
  assert (segments db' !! keyOf v = Some v) as Hstored
    by (by apply (putAll_lookup_in _ (segments db))).
  destruct (getSegment_is_Some newId (Z.of_nat i) db' _ v Hstored eq_refl eq_refl)
    as [s Hs].
  rewrite Hs. f_equal.
  apply getSegment_Some in Hs as ([k Hk] & Ha & Hidx).
  apply putAll_lookup_Some in Hk as [[Hin _]|Hold].
  - apply list_elem_of_fmap in Hin as (s0 & -> & Hs0).
    apply list_elem_of_lookup in Hs0 as [j Hj].
    subst segs. rewrite buildSegments_lookup in Hj.
    destruct (raw !! j) as [c|] eqn:Hrj; [|done].
    injection Hj as <-. simpl in Hidx.
    apply Nat2Z.inj in Hidx. subst j.
    rewrite Hi in Hrj. by injection Hrj as <-.
  - by destruct (Hfresh _ _ Hold).
Qed.

Lemma imported_segment_readable_witness :
  let ids := λ n, AppContext.newId (Sample.fresh n) in
  let segs := ArticleImport.buildSegments ids [Sample.genome] ["One."; "Two."] in
  let db' :=
    (AppStore.addArticle "a9" 10 "T" segs None (AppStore.initial, Sample.db1)).2.2 in
  getSegment "a9" (Z.of_nat 1) db'
  = Some (ArticleSegment.mk (ids 1%nat) (Z.of_nat 1) ("Part " +:+ pretty (1 + 1)%nat) "Two."
            [] [] None false (Some "a9")).
Proof.
  apply (imported_segment_readable (λ n, AppContext.newId (Sample.fresh n))
           [Sample.genome] ["One."; "Two."]
           "a9" 10 "T" None AppStore.initial Sample.db1 1 "Two.").
  - apply (bool_decide_unpack _). vm_compute. exact I.
  - change (map_Forall (λ _ s, ArticleSegment.articleId s ≠ Some "a9")
              (segments Sample.db1)).
    apply (bool_decide_unpack _). vm_compute. exact I.
  - reflexivity.
Defined.

End ImportFacts.

(** ** Invariants of the store under every operation *)

Section InvariantFacts.
Import DatabaseService AppContext.

Lemma grows_refl {V} `{Keyed V} (m : gmap string V) : Conditions.grows m m.
Proof. by exists []. Qed.

Lemma grows_put {V} `{Keyed V} (v : V) (m : gmap string V) :
  Conditions.grows m (IDB.put v m).
Proof. by exists [v]. Qed.

Lemma grows_putAll {V} `{Keyed V} (l : list V) (m : gmap string V) :
  Conditions.grows m (IDB.putAll l m).
Proof. by exists l. Qed.

Lemma grows_trans {V} `{Keyed V} (m1 m2 m3 : gmap string V) :
  Conditions.grows m1 m2 → Conditions.grows m2 m3 → Conditions.grows m1 m3.
Proof. intros [l1 ->] [l2 ->]. exists (l1 ++ l2). by rewrite putAll_app. Qed.

Lemma grows_importKind {V} `{Keyed V} (items : option (list V)) (m : gmap string V) :
  Conditions.grows m (importKind items m).
Proof. destruct items; [apply grows_putAll|apply grows_refl]. Qed.

Lemma dbGrows_refl db : Conditions.dbGrows db db.
Proof. repeat split; try apply grows_refl. done. Qed.

Lemma dbGrows_trans db1 db2 db3 :
  Conditions.dbGrows db1 db2 → Conditions.dbGrows db2 db3 → Conditions.dbGrows db1 db3.
Proof.
  intros (?&?&?&?&?) (?&?&?&?&?). repeat split; try (by eapply grows_trans). auto.
Qed.

Lemma updateSegment_grows s db : Conditions.dbGrows db (updateSegment s db).
Proof. repeat split; try apply grows_refl; [apply grows_put|done]. Qed.

Lemma addFlashcards_grows cards db : Conditions.dbGrows db (addFlashcards cards db).
Proof. repeat split; try apply grows_refl; [apply grows_putAll|done]. Qed.

Lemma updateFlashcard_grows card db : Conditions.dbGrows db (updateFlashcard card db).
Proof. repeat split; try apply grows_refl; [apply grows_put|done]. Qed.

(** Every operation only writes records: it is a sequence of [put]s on each
    object store, and it never clears the settings. *)
Lemma apply_grows op w : Conditions.dbGrows w.2 (StoreOps.apply op w).2.
Proof.
  destruct w as [ctx db].
  destruct op as [newId now title segs coll|a i tr|a i an|fresh a i ls|fresh a i an
                  |now cardId q|p|data]; simpl.
  - repeat split; try apply grows_refl; [apply grows_put|apply grows_putAll|done].
  - unfold AppStore.updateSegmentTranslation.
    destruct (getSegment a i db); [apply updateSegment_grows|apply dbGrows_refl].
  - destruct (getSegment a i db); [apply updateSegment_grows|apply dbGrows_refl].
  - unfold approveWordsForSegment.
    destruct (getSegment a i db); [|apply dbGrows_refl].
    eapply dbGrows_trans; [apply addFlashcards_grows|apply updateSegment_grows].
  - unfold addCustomWordToSegment.
    destruct (getSegment a i db); [|apply dbGrows_refl].
    eapply dbGrows_trans; [|apply addFlashcards_grows].
    destruct (negb _); [apply updateSegment_grows|apply dbGrows_refl].
  - unfold markCardReviewedDouble.
    destruct (getFlashcard cardId db); [|apply dbGrows_refl].
    destruct (scheduleDouble _ _). apply updateFlashcard_grows.
  - repeat split; try apply grows_refl. done.
  - repeat split; try apply grows_importKind.
    simpl. destruct (Backup.settings data); [done|auto].
Qed.

Lemma run_grows ops w : Conditions.dbGrows w.2 (StoreOps.run ops w).2.
Proof.
  revert w. induction ops as [|op ops IH]; intros w; [apply dbGrows_refl|].
  eapply dbGrows_trans; [apply apply_grows|apply (IH (StoreOps.apply op w))].
Qed.

Lemma grows_wf {V} `{Keyed V} (m m' : gmap string V) :
  Conditions.grows m m' → IDB.keyed_wf m → IDB.keyed_wf m'.
Proof. intros [l ->]. apply putAll_wf. Qed.

Lemma grows_is_Some {V} `{Keyed V} (m m' : gmap string V) k :
  Conditions.grows m m' → is_Some (m !! k) → is_Some (m' !! k).
Proof. intros [l ->]. apply putAll_is_Some. Qed.

(** X6. Whatever the application does from a fresh installation on (adding
    articles, translating, analysing, approving, adding custom words,
    reviewing, changing settings, importing backups), every record of the
    database sits under its own id: the condition under which the scheduling,
    backup and pagination properties were proved holds in every reachable
    store. *)
Theorem reachable_store_wf (ops : list StoreOps.t) :
  db_wf (StoreOps.run ops StoreOps.start).2.
Proof.
  destruct (run_grows ops StoreOps.start) as (Ha & Hs & Hf & Hc & _).
  repeat split; (eapply grows_wf; [eassumption|apply map_Forall_empty]).
Qed.

(** X7. No operation of the application deletes anything: a key present in
    the articles, segments, flashcards or collections before a sequence of
    operations is present after it, and stored settings stay stored. *)
Theorem no_record_deleted (ops : list StoreOps.t) (w : AppStore.Ctx * DB) (k : string) :
  let w' := StoreOps.run ops w in
  (is_Some (articles w.2 !! k) → is_Some (articles w'.2 !! k))
  ∧ (is_Some (segments w.2 !! k) → is_Some (segments w'.2 !! k))
  ∧ (is_Some (flashcards w.2 !! k) → is_Some (flashcards w'.2 !! k))
  ∧ (is_Some (collections w.2 !! k) → is_Some (collections w'.2 !! k))
  ∧ (is_Some (settings w.2) → is_Some (settings w'.2)).
Proof.
  destruct (run_grows ops w) as (Ha & Hs & Hf & Hc & Hst).
  repeat split; try (by apply grows_is_Some). done.
Qed.

End InvariantFacts.

Section MoreInvariantFacts.
Import DatabaseService AppContext.

Lemma putAll_map_Forall {V} `{Keyed V} (P : V → Prop) (l : list V) (m : gmap string V) :
  map_Forall (λ _ v, P v) m → Forall P l → map_Forall (λ _ v, P v) (IDB.putAll l m).
Proof.
  intros Hm Hl k v [[Hv _]|Hk]%putAll_lookup_Some.
  - by eapply Forall_forall in Hl.
  - by apply (Hm k).
Qed.

Lemma importKind_map_Forall {V} `{Keyed V} (P : V → Prop) (items : option (list V))
    (m : gmap string V) :
  map_Forall (λ _ v, P v) m → Forall P (default [] items) →
  map_Forall (λ _ v, P v) (importKind items m).
Proof. destruct items; simpl; [apply putAll_map_Forall|done]. Qed.

Lemma apply_stagesNonneg op w :
  Conditions.importsNonneg op →
  Conditions.stagesNonneg w.2 → Conditions.stagesNonneg (StoreOps.apply op w).2.
Proof.
  destruct w as [ctx db]. unfold Conditions.stagesNonneg.
  destruct op as [newId now title segs coll|a i tr|a i an|fresh a i ls|fresh a i an
                  |now cardId q|p|data]; simpl; intros Himp Hdb; try done.
  - unfold AppStore.updateSegmentTranslation. by destruct (getSegment a i db).
  - by destruct (getSegment a i db).
  - unfold approveWordsForSegment. destruct (getSegment a i db); [|done]. simpl.
    apply putAll_map_Forall; [done|].
    apply Forall_forall. intros c (j & w & -> & _)%elem_of_lookup_imap. done.
  - unfold addCustomWordToSegment. destruct (getSegment a i db); [|done].
    destruct (negb _); simpl; apply (putAll_map_Forall _ [_]); try done;
      by repeat constructor.
  - unfold markCardReviewedDouble, getFlashcard, IDB.get.
    destruct (flashcards db !! cardId) as [card|] eqn:Hc; [|done].
    pose proof (scheduleDouble_nonneg (Flashcard.stage card) q (Hdb _ _ Hc)) as Hs.
    destruct (scheduleDouble _ _) as [newStage days]. cbn [fst] in Hs.
    by apply map_Forall_insert_2.
  - by apply importKind_map_Forall.
Qed.

(** X8. Flashcards never reach a negative stage: new cards start at stage 0,
    a review moves a card to the next stage or back to 0, and no other
    operation changes a stage; so if the stored cards and the cards of every
    imported document are at non-negative stages, they are after any sequence
    of operations. *)
Theorem stages_stay_nonneg (ops : list StoreOps.t) (w : AppStore.Ctx * DB) :
  Conditions.stagesNonneg w.2 →
  Forall Conditions.importsNonneg ops →
  Conditions.stagesNonneg (StoreOps.run ops w).2.
Proof.
  revert w. induction ops as [|op ops IH]; intros w Hw Hops; [done|].
  apply Forall_cons in Hops as [Hop Hops].
  apply (IH (StoreOps.apply op w)); [|done]. by apply apply_stagesNonneg.
Qed.

Lemma stages_stay_nonneg_witness :
  Conditions.stagesNonneg
    (StoreOps.run
       [StoreOps.Review 1000 "c1" 5; StoreOps.Review 2000 "c1" 1;
        StoreOps.ImportUserData (Backup.mk 1 0 None None (Some [Sample.card4]) None None)]
       (AppStore.initial, Sample.db1)).2.
Proof.
  apply (stages_stay_nonneg
           [StoreOps.Review 1000 "c1" 5; StoreOps.Review 2000 "c1" 1;
            StoreOps.ImportUserData (Backup.mk 1 0 None None (Some [Sample.card4]) None None)]
           (AppStore.initial, Sample.db1)).
  - unfold Conditions.stagesNonneg. apply (bool_decide_unpack _). vm_compute. exact I.
  - repeat constructor. vm_compute. discriminate.
Defined.

Lemma apply_settingsInSync op w :
  Conditions.settingsInSync w → Conditions.settingsInSync (StoreOps.apply op w).
Proof.
  destruct w as [ctx db]. unfold Conditions.settingsInSync.
  destruct op as [newId now title segs coll|a i tr|a i an|fresh a i ls|fresh a i an
                  |now cardId q|p|data]; simpl; intros Hw; try done.
  - unfold AppStore.updateSegmentTranslation. by destruct (getSegment a i db).
  - by destruct (getSegment a i db).
  - unfold approveWordsForSegment. by destruct (getSegment a i db).
  - unfold addCustomWordToSegment. destruct (getSegment a i db); [|done].
    by destruct (negb _).
  - unfold markCardReviewedDouble. destruct (getFlashcard cardId db); [|done].
    by destruct (scheduleDouble _ _).
  - unfold getSettings. simpl.
    destruct (Backup.settings data); [done|]. by destruct (settings db).
Qed.

(** X9. The settings the application works with are the persisted ones: from
    a fresh installation on, after any sequence of operations (settings
    changes and imports of backups whose settings lack properties included),
    the in-memory settings are the stored record laid over the defaults,
    [{ ...DEFAULT_SETTINGS, ...stored }], so a property that the stored
    record lacks has its default value; they are the defaults while nothing
    is stored. A reload of the application therefore does not change them. *)
Theorem settings_persisted (ops : list StoreOps.t) :
  let w := StoreOps.run ops StoreOps.start in
  AppStore.ctxSettings w.1
  = match settings w.2 with
    | Some stored => PartialSettings.spread AppStore.DEFAULT_SETTINGS stored
    | None => AppStore.DEFAULT_SETTINGS
    end
  ∧ AppStore.ctxSettings (AppStore.loadData w).1 = AppStore.ctxSettings w.1.
Proof.
  assert (∀ w, Conditions.settingsInSync w →
               Conditions.settingsInSync (StoreOps.run ops w)) as Hrun.
  { induction ops as [|op ops IH]; intros w Hw; [done|].
    apply (IH (StoreOps.apply op w)). by apply apply_settingsInSync. }
  specialize (Hrun StoreOps.start eq_refl).
  destruct (StoreOps.run ops StoreOps.start) as [ctx db].
  unfold Conditions.settingsInSync in Hrun. simpl in *. split; [done|].
  unfold getSettings. rewrite Hrun. by destruct (settings db).
Qed.

End MoreInvariantFacts.

Section ConsistencyFacts.
Import DatabaseService AppContext.

Lemma apply_consistent op w :
  Conditions.consistentOp op w →
  Reference.segmentsConsistent w.2 →
  Reference.segmentsConsistent (StoreOps.apply op w).2.
Proof.
  destruct w as [ctx db]. unfold Reference.segmentsConsistent.
  destruct op as [newId now title segs coll|a i tr|a i an|fresh a i ls|fresh a i an
                  |now cardId q|p|data]; simpl; intros Hop Hdb; try done.
  - apply putAll_map_Forall; [done|].
    apply Forall_fmap. eapply Forall_impl; [exact Hop|]. by intros [].
  - unfold AppStore.updateSegmentTranslation.
    destruct (getSegment a i db) as [s|] eqn:Hs; [|done].
    apply updateSegment_consistent; [|done].
    apply getSegment_stored in Hs as [k Hk]. exact (Hdb _ _ Hk).
  - destruct (getSegment a i db) as [s|] eqn:Hs; [|done].
    apply updateSegment_consistent; [|done]. by apply Hop.
  - by apply approve_consistent.
  - by apply addCustom_consistent.
  - unfold markCardReviewedDouble. destruct (getFlashcard cardId db); [|done].
    by destruct (scheduleDouble _ _).
  - by apply importKind_map_Forall.
Qed.

(** X10. The inclusion of the approved lemmas in the analysed words is kept
    by every operation of the application, as long as each operation that
    writes segments writes consistent ones: an imported article or backup
    whose segments are consistent, an analysis that still contains the
    approved lemmas, an approval of analysed lemmas. Translating, adding a
    custom word, reviewing and changing settings keep it unconditionally. *)
Theorem segments_stay_consistent (ops : list StoreOps.t) (w : AppStore.Ctx * DB) :
  Reference.segmentsConsistent w.2 →
  Conditions.consistentOps ops w →
  Reference.segmentsConsistent (StoreOps.run ops w).2.
Proof.
  revert w. induction ops as [|op ops IH]; intros w Hw Hops; [done|].
  destruct Hops as [Hop Hops].
  apply (IH (StoreOps.apply op w)); [|done]. by apply apply_consistent.
Qed.

Lemma segments_stay_consistent_witness :
  Reference.segmentsConsistent
    (StoreOps.run
       [StoreOps.AddArticle "a9" 10 "T"
          (ArticleImport.buildSegments (λ n, newId (Sample.fresh n)) [Sample.genome]
             ["One."; "Two."]) None;
        StoreOps.Approve Sample.fresh "a9" 0 ["genome"];
        StoreOps.Translate "a9" 0 "yek";
        StoreOps.AddCustom (Sample.fresh 7) "a9" 1 Sample.serendipity]
       (AppStore.initial, Sample.db1)).2.
Proof.
  apply (segments_stay_consistent
    [StoreOps.AddArticle "a9" 10 "T"
       (ArticleImport.buildSegments (λ n, newId (Sample.fresh n)) [Sample.genome]
          ["One."; "Two."]) None;
     StoreOps.Approve Sample.fresh "a9" 0 ["genome"];
     StoreOps.Translate "a9" 0 "yek";
     StoreOps.AddCustom (Sample.fresh 7) "a9" 1 Sample.serendipity]
    (AppStore.initial, Sample.db1)).
  - unfold Reference.segmentsConsistent. apply (bool_decide_unpack _). vm_compute. exact I.
  - simpl. repeat split. apply buildSegments_approved.
Defined.

End ConsistencyFacts.

(** ** More on the scheduler *)

Section MoreSchedulerFacts.
Import DatabaseService AppContext.

Lemma markCardReviewed_missing now cardId quality db :
  flashcards db !! cardId = None → markCardReviewed now cardId quality db = db.
Proof. intros Hc. unfold markCardReviewed, getFlashcard, IDB.get. by rewrite Hc. Qed.

(** The record that a review leaves under the id of the card. *)
Lemma markCardReviewed_lookup now cardId quality db card :
  IDB.keyed_wf (flashcards db) →
  flashcards db !! cardId = Some card →
  flashcards (markCardReviewed now cardId quality db)
  = <[cardId :=
        withSchedule card (schedule (Flashcard.stage card) quality).1
          (now + (schedule (Flashcard.stage card) quality).2 * 24 * 60 * 60 * 1000)]>
      (flashcards db).
Proof.
  intros Hwf Hc. rewrite (markCardReviewed_found _ _ _ _ _ Hc).
  pose proof (Hwf _ _ Hc) as Hid. simpl in Hid. by rewrite <- Hid.
Qed.


(** X11. A review neither adds nor removes a flashcard: the same ids are
    stored before and after, under the id of a card that does not exist
    nothing happens at all, and the count of flashcards is unchanged. *)
Theorem markCardReviewed_same_cards (now : Z) (cardId : string) (quality : Z) (db : DB) :
  IDB.keyed_wf (flashcards db) →
  let db' := markCardReviewed now cardId quality db in
  (∀ k, is_Some (flashcards db' !! k) ↔ is_Some (flashcards db !! k))
  ∧ getAllFlashcardsCount db' = getAllFlashcardsCount db
  ∧ (flashcards db !! cardId = None → db' = db).
Proof.
  intros Hwf db'. subst db'. unfold getAllFlashcardsCount.
  destruct (flashcards db !! cardId) as [card|] eqn:Hc.
  - rewrite (markCardReviewed_lookup _ _ _ _ _ Hwf Hc). split; [|split; [|done]].
    + intros k. rewrite lookup_insert_is_Some. split.
      * intros [<-|[_ Hk]]; [by rewrite Hc|done].
      * intros Hk. destruct (decide (cardId = k)); [by left|by right].
    + by apply map_size_insert_Some.
  - rewrite markCardReviewed_missing by done. done.
Qed.

Lemma markCardReviewed_same_cards_witness :
  let db' := markCardReviewed 1000 "c2" 4 Sample.db1 in
  (∀ k, is_Some (flashcards db' !! k) ↔ is_Some (flashcards Sample.db1 !! k))
  ∧ getAllFlashcardsCount db' = getAllFlashcardsCount Sample.db1
  ∧ (flashcards Sample.db1 !! "c2" = None → db' = Sample.db1).
Proof.
  apply (markCardReviewed_same_cards 1000 "c2" 4 Sample.db1).
  apply (bool_decide_unpack _). vm_compute. exact I.
Defined.

End MoreSchedulerFacts.

Section ReviewSequences.
Import DatabaseService AppContext.













End ReviewSequences.

(** ** The flashcards created from a segment *)

Section CardCreation.
Import DatabaseService AppContext.

Lemma includesLemma_elem_of lemmas l :
  includesLemma lemmas l = true ↔ l ∈ lemmas.
Proof.
  unfold includesLemma. rewrite existsb_exists. split.
  - intros (x & Hx & ->%String.eqb_eq). by apply list_elem_of_In.
  - intros Hl. exists l. split; [by apply list_elem_of_In|apply String.eqb_refl].
Qed.

Lemma newCards_keys (fresh : nat → Fresh) articleId (chosen : list WordAnalysis.t) :
  Flashcard.id <$> imap (λ i w, newCard articleId w (fresh i)) chosen
  = (λ j, newId (fresh j)) <$> seq 0 (length chosen).
Proof.
  rewrite fmap_imap. unfold compose. simpl.
  by rewrite (imap_seq_0 chosen (λ j, newId (fresh j))).
Qed.

(** X14. When the addressed segment exists and the ids drawn for the new
    cards are pairwise distinct, [approveWordsForSegment] stores one card for
    each analysed word of the segment whose lemma is selected (and for no
    other word): the [j]-th of them under the [j]-th id, at stage 0, due at
    its clock reading, attached to the article. Every other flashcard is as
    before, the segment records the selection, and articles, settings and
    collections are untouched. *)
Theorem approve_creates_cards (fresh : nat → Fresh) (articleId : string) (index : Z)
    (lemmas : list string) (db : DB) (segment : ArticleSegment.t) :
  getSegment articleId index db = Some segment →
  let chosen :=
    filter (λ w, includesLemma lemmas (WordAnalysis.lemma w))
      (ArticleSegment.analyzedWords segment) in
  NoDup ((λ j, newId (fresh j)) <$> seq 0 (length chosen)) →
  let db' := approveWordsForSegment fresh articleId index lemmas db in
  (∀ w, w ∈ chosen
        ↔ w ∈ ArticleSegment.analyzedWords segment ∧ WordAnalysis.lemma w ∈ lemmas)
  ∧ (∀ j w, chosen !! j = Some w →
       flashcards db' !! newId (fresh j)
       = Some (Flashcard.mk w (newId (fresh j)) articleId (reviewClock (fresh j)) 0
                 (createdClock (fresh j))))
  ∧ (∀ k, (∀ j, (j < length chosen)%nat → k ≠ newId (fresh j)) →
       flashcards db' !! k = flashcards db !! k)
  ∧ segments db' !! ArticleSegment.id segment = Some (withApproved segment lemmas)
  ∧ articles db' = articles db ∧ settings db' = settings db
  ∧ collections db' = collections db.
Proof.
  intros Hseg chosen Hnd db'. subst db'. unfold approveWordsForSegment.
  rewrite Hseg. fold chosen. simpl.
  split; [|split; [|split; [|split; [|done]]]].
  - intros w. unfold chosen. rewrite list_elem_of_filter, Is_true_true.
    rewrite includesLemma_elem_of. tauto.
  - intros j w Hj.
    change (IDB.putAll (imap (λ i w, newCard articleId w (fresh i)) chosen) (flashcards db)
              !! keyOf (newCard articleId w (fresh j))
            = Some (newCard articleId w (fresh j))).
    apply putAll_lookup_in.
    + change (NoDup (Flashcard.id <$> imap (λ i w, newCard articleId w (fresh i)) chosen)).
      by rewrite newCards_keys.
    + by apply (elem_of_lookup_imap_2 (λ i w, newCard articleId w (fresh i))).
  - intros k Hk. apply putAll_lookup_other.
    change (k ∉ Flashcard.id <$> imap (λ i w, newCard articleId w (fresh i)) chosen).
    rewrite newCards_keys. intros (j & -> & Hj)%list_elem_of_fmap.
    apply elem_of_seq in Hj. apply (Hk j); [lia|done].
  - apply lookup_insert_eq.
Qed.

Lemma approve_creates_cards_witness :
  let chosen :=
    filter (λ w, includesLemma ["serendipity"; "zeal"] (WordAnalysis.lemma w))
      (ArticleSegment.analyzedWords Sample.segment0) in
  let db' := approveWordsForSegment Sample.fresh "a1" 0 ["serendipity"; "zeal"] Sample.db1 in
  (∀ w, w ∈ chosen
        ↔ w ∈ ArticleSegment.analyzedWords Sample.segment0
          ∧ WordAnalysis.lemma w ∈ ["serendipity"; "zeal"])
  ∧ (∀ j w, chosen !! j = Some w →
       flashcards db' !! newId (Sample.fresh j)
       = Some (Flashcard.mk w (newId (Sample.fresh j)) "a1" (reviewClock (Sample.fresh j)) 0
                 (createdClock (Sample.fresh j))))
  ∧ (∀ k, (∀ j, (j < length chosen)%nat → k ≠ newId (Sample.fresh j)) →
       flashcards db' !! k = flashcards Sample.db1 !! k)
  ∧ segments db' !! ArticleSegment.id Sample.segment0
    = Some (withApproved Sample.segment0 ["serendipity"; "zeal"])
  ∧ articles db' = articles Sample.db1 ∧ settings db' = settings Sample.db1
  ∧ collections db' = collections Sample.db1.
Proof.
  apply (approve_creates_cards Sample.fresh "a1" 0 ["serendipity"; "zeal"] Sample.db1
           Sample.segment0).
  - vm_compute. reflexivity.
  - apply (bool_decide_unpack _). vm_compute. exact I.
Defined.

Lemma existsb_lemma (words : list WordAnalysis.t) (l : string) :
  existsb (λ w, String.eqb (WordAnalysis.lemma w) l) words = true
  ↔ l ∈ WordAnalysis.lemma <$> words.
Proof.
  rewrite existsb_exists, list_elem_of_fmap. split.
  - intros (w & Hw & Heq%String.eqb_eq). exists w. split; [done|by apply list_elem_of_In].
  - intros (w & -> & Hw). exists w. split; [by apply list_elem_of_In|apply String.eqb_refl].
Qed.

(** X15. When the addressed segment exists, [addCustomWordToSegment] always
    stores a new card for the word (stage 0, due at its clock reading) and
    changes no other flashcard. The segment is written only if its analysed
    words do not have the lemma yet, and then the word and its lemma are
    appended to the analysed words and to the approved lemmas; so no segment
    ever gets two analysed words with one lemma this way. *)
Theorem addCustom_effect (fresh : Fresh) (articleId : string) (index : Z)
    (analysis : WordAnalysis.t) (db : DB) (segment : ArticleSegment.t) :
  getSegment articleId index db = Some segment →
  let db' := addCustomWordToSegment fresh articleId index analysis db in
  let known :=
    WordAnalysis.lemma analysis ∈ WordAnalysis.lemma <$> ArticleSegment.analyzedWords segment in
  flashcards db' !! newId fresh
  = Some (Flashcard.mk analysis (newId fresh) articleId (reviewClock fresh) 0
            (createdClock fresh))
  ∧ (∀ k, k ≠ newId fresh → flashcards db' !! k = flashcards db !! k)
  ∧ (known → segments db' = segments db)
  ∧ (¬ known →
     segments db'
     = <[ArticleSegment.id segment :=
           withWords segment (ArticleSegment.analyzedWords segment ++ [analysis])
             (ArticleSegment.approvedWordIds segment ++ [WordAnalysis.lemma analysis])]>
         (segments db))
  ∧ (map_Forall (λ _ s, NoDup (WordAnalysis.lemma <$> ArticleSegment.analyzedWords s))
       (segments db) →
     map_Forall (λ _ s, NoDup (WordAnalysis.lemma <$> ArticleSegment.analyzedWords s))
       (segments db')).
Proof.
  intros Hseg db' known. subst db' known. unfold addCustomWordToSegment. rewrite Hseg.
  pose proof (existsb_lemma (ArticleSegment.analyzedWords segment)
                (WordAnalysis.lemma analysis)) as Hex.
  destruct (existsb _ _) eqn:He; simpl.
  - assert (WordAnalysis.lemma analysis
            ∈ WordAnalysis.lemma <$> ArticleSegment.analyzedWords segment) as Hin
      by (by apply Hex).
    split; [apply lookup_insert_eq|].
    split; [intros k Hk; by apply lookup_insert_ne|].
    split; [done|]. split; [done|done].
  - assert (WordAnalysis.lemma analysis
            ∉ WordAnalysis.lemma <$> ArticleSegment.analyzedWords segment) as Hout.
    { intros Hin. apply Hex in Hin. discriminate. }
    split; [apply lookup_insert_eq|].
    split; [intros k Hk; by apply lookup_insert_ne|].
    split; [done|]. split; [done|].
    intros Hall. apply map_Forall_insert_2; [|done]. simpl.
    apply getSegment_stored in Hseg as [k Hk].
    rewrite fmap_app. apply NoDup_app. split; [exact (Hall _ _ Hk)|]. split.
    + intros l Hl [->|[]%elem_of_nil]%elem_of_cons. done.
    + apply NoDup_singleton.
Qed.

Lemma addCustom_effect_witness :
  let db' := addCustomWordToSegment (Sample.fresh 3) "a1" 0 Sample.genome Sample.db1 in
  let known :=
    WordAnalysis.lemma Sample.genome
    ∈ WordAnalysis.lemma <$> ArticleSegment.analyzedWords Sample.segment0 in
  flashcards db' !! newId (Sample.fresh 3)
  = Some (Flashcard.mk Sample.genome (newId (Sample.fresh 3)) "a1"
            (reviewClock (Sample.fresh 3)) 0 (createdClock (Sample.fresh 3)))
  ∧ (∀ k, k ≠ newId (Sample.fresh 3) → flashcards db' !! k = flashcards Sample.db1 !! k)
  ∧ (known → segments db' = segments Sample.db1)
  ∧ (¬ known →
     segments db'
     = <[ArticleSegment.id Sample.segment0 :=
           withWords Sample.segment0
             (ArticleSegment.analyzedWords Sample.segment0 ++ [Sample.genome])
             (ArticleSegment.approvedWordIds Sample.segment0
              ++ [WordAnalysis.lemma Sample.genome])]>
         (segments Sample.db1))
  ∧ (map_Forall (λ _ s, NoDup (WordAnalysis.lemma <$> ArticleSegment.analyzedWords s))
       (segments Sample.db1) →
     map_Forall (λ _ s, NoDup (WordAnalysis.lemma <$> ArticleSegment.analyzedWords s))
       (segments db')).
Proof.
  apply (addCustom_effect (Sample.fresh 3) "a1" 0 Sample.genome Sample.db1 Sample.segment0).
  vm_compute. reflexivity.
Defined.

End CardCreation.

(** ** More on slices and sorted lists *)

Section MoreListFacts.
Context {A : Type}.
Implicit Types l : list A.

Lemma slice_sublist (start end_ : Z) l : JS.slice start end_ l `sublist_of` l.
Proof. unfold JS.slice. etrans; [apply sublist_take|apply sublist_drop]. Qed.

(** A page of [n] records has at most [n] records, wherever it starts. *)
Lemma length_slice_le (start n : Z) l :
  0 ≤ n → (length (JS.slice start (start + n) l) ≤ Z.to_nat n)%nat.
Proof.
  intros Hn. unfold JS.slice. rewrite length_take.
  etrans; [apply Nat.le_min_l|]. unfold JS.relIndex.
  destruct (Z.ltb_spec (start + n) 0), (Z.ltb_spec start 0); lia.
Qed.

Lemma sublist_StronglySorted (R : relation A) l1 l2 :
  l1 `sublist_of` l2 → StronglySorted R l2 → StronglySorted R l1.
Proof.
  induction 1 as [|x l1 l2 Hl IH|x l1 l2 Hl IH]; intros Hs; [done|..].
  - apply StronglySorted_inv in Hs as [Hs Hx]. constructor; [by apply IH|].
    apply Forall_forall. intros y Hy. eapply Forall_forall in Hx; [done|].
    by eapply sublist_subseteq.
  - apply StronglySorted_inv in Hs as [Hs _]. by apply IH.
Qed.

Lemma filter_all (P : A → Prop) `{!∀ x, Decision (P x)} l :
  Forall P l → filter P l = l.
Proof.
  induction 1 as [|x l Hx Hl IH]; [done|]. by rewrite filter_cons_True, IH.
Qed.

End MoreListFacts.

(** ** More on queries *)

Section MoreQueryFacts.
Import DatabaseService.
Variable localeCompare : string → string → Z.

Lemma queryFlashcards_sublist criteria db :
  queryFlashcards localeCompare criteria db
  `sublist_of` queryResults localeCompare criteria db.
Proof. apply slice_sublist. Qed.

(** X16. Whatever the offset and the limit (negative ones included), a page
    returned by [queryFlashcards] is cut out of the unpaginated result: it
    holds only stored cards that satisfy every filter, in ascending order of
    headword and without repetition. *)
Theorem queryFlashcards_page_sound (criteria : Criteria.t) (db : DB) :
  (∀ a b, localeCompare a b ≤ 0 ∨ localeCompare b a ≤ 0) →
  (∀ a b c, localeCompare a b ≤ 0 → localeCompare b c ≤ 0 → localeCompare a c ≤ 0) →
  IDB.keyed_wf (flashcards db) →
  let result := queryFlashcards localeCompare criteria db in
  result `sublist_of` queryFlashcards localeCompare (Reference.unpaged criteria) db
  ∧ (∀ c, c ∈ result →
       (∃ k, flashcards db !! k = Some c) ∧ Reference.satisfies criteria c = true)
  ∧ StronglySorted
      (λ a b, localeCompare (Flashcard.word a) (Flashcard.word b) ≤ 0) result
  ∧ NoDup result.
Proof.
  intros Htot Htrans Hwf result. subst result.
  rewrite queryFlashcards_unpaged.
  pose proof (queryFlashcards_sublist criteria db) as Hsub.
  split; [done|]. split; [|split].
  - intros c Hc. apply (elem_of_queryResults localeCompare criteria db c).
    by eapply sublist_subseteq.
  - eapply sublist_StronglySorted; [exact Hsub|]. by apply queryResults_sorted.
  - eapply sublist_NoDup; [|exact Hsub]. by apply queryResults_NoDup.
Qed.

Lemma length_queryFlashcards_le criteria db (limit : Z) :
  Criteria.limit criteria = Some limit → 0 < limit →
  (length (queryFlashcards localeCompare criteria db) ≤ Z.to_nat limit)%nat.
Proof.
  intros Hlim Hl. unfold queryFlashcards. rewrite Hlim. simpl.
  destruct (Z.eqb_spec limit 0); [lia|]. simpl.
  apply length_slice_le. lia.
Qed.

(** X17. A query with a positive limit returns at most that many records,
    whatever the filters and the offset. *)
Theorem queryFlashcards_page_size (a t l s : option string) (offset : option Z)
    (limit : Z) (db : DB) :
  0 < limit →
  (length (queryFlashcards localeCompare (Criteria.mk a t l s (Some limit) offset) db)
   ≤ Z.to_nat limit)%nat.
Proof. intros Hl. by apply length_queryFlashcards_le. Qed.

Lemma satisfies_inactive a t l s lim off c :
  selective a = false → selective t = false → selective l = false →
  JS.truthyStr s = false →
  Reference.satisfies (Criteria.mk a t l s lim off) c = true.
Proof.
  intros Ha Ht Hl Hs. rewrite <- residual_satisfies. unfold residual. simpl.
  by rewrite Ha, Ht, Hl, Hs.
Qed.

(** X18. With no active filter (each of article, type and level absent, empty
    or ['all'], no search text) and no pagination, [queryFlashcards] lists
    every stored flashcard once, so its length is the count returned by
    [getAllFlashcardsCount]. *)
Theorem queryFlashcards_lists_all (a t l s : option string) (db : DB) :
  selective a = false → selective t = false → selective l = false →
  JS.truthyStr s = false →
  let result := queryFlashcards localeCompare (Criteria.mk a t l s None None) db in
  result ≡ₚ IDB.getAll (flashcards db)
  ∧ (∀ c, c ∈ result ↔ ∃ k, flashcards db !! k = Some c)
  ∧ length result = getAllFlashcardsCount db.
Proof.
  intros Ha Ht Hl Hs result.
  assert (result ≡ₚ IDB.getAll (flashcards db)) as Hperm.
  { subst result.
    change (Criteria.mk a t l s None None)
      with (Reference.unpaged (Criteria.mk a t l s None None)).
    rewrite queryFlashcards_unpaged, queryResults_naive, sort_Permutation.
    rewrite filter_all; [done|]. apply Forall_forall. intros c _.
    apply Is_true_true. by apply satisfies_inactive. }
  split; [done|]. split.
  - intros c. by rewrite Hperm, elem_of_getAll.
  - rewrite Hperm. apply length_getAll.
Qed.

End MoreQueryFacts.

Lemma queryFlashcards_page_sound_witness :
  let criteria := Criteria.mk (Some "a1") None None None (Some 1) (Some (-1)) in
  let result := DatabaseService.queryFlashcards Sample.byCodeUnit criteria Sample.db1 in
  result `sublist_of`
    DatabaseService.queryFlashcards Sample.byCodeUnit (Reference.unpaged criteria) Sample.db1
  ∧ (∀ c, c ∈ result →
       (∃ k, flashcards Sample.db1 !! k = Some c) ∧ Reference.satisfies criteria c = true)
  ∧ StronglySorted
      (λ a b, Sample.byCodeUnit (Flashcard.word a) (Flashcard.word b) ≤ 0) result
  ∧ NoDup result.
Proof.
  apply (queryFlashcards_page_sound Sample.byCodeUnit
           (Criteria.mk (Some "a1") None None None (Some 1) (Some (-1))) Sample.db1).
  - apply byCodeUnit_total.
  - apply byCodeUnit_trans.
  - apply (bool_decide_unpack _). vm_compute. exact I.
Defined.

Lemma queryFlashcards_page_size_witness :
  (length (DatabaseService.queryFlashcards Sample.byCodeUnit
             (Criteria.mk None None None None (Some 2%Z) (Some (-1)%Z)) Sample.db1)
   ≤ Z.to_nat 2%Z)%nat.
Proof.
  apply (queryFlashcards_page_size Sample.byCodeUnit None None None None (Some (-1)) 2
           Sample.db1).
  lia.
Defined.

Lemma queryFlashcards_lists_all_witness :
  let result :=
    DatabaseService.queryFlashcards Sample.byCodeUnit
      (Criteria.mk (Some "all") (Some "all") (Some "all") (Some "") None None) Sample.db1 in
  result ≡ₚ IDB.getAll (flashcards Sample.db1)
  ∧ (∀ c, c ∈ result ↔ ∃ k, flashcards Sample.db1 !! k = Some c)
  ∧ length result = DatabaseService.getAllFlashcardsCount Sample.db1.
Proof.
  apply (queryFlashcards_lists_all Sample.byCodeUnit
           (Some "all") (Some "all") (Some "all") (Some "") Sample.db1); reflexivity.
Defined.

(** ** More on session selection *)

Section MoreSessionFacts.
Import DatabaseService AppContext.

Lemma exact_iff given field :
  Reference.exact given field = true
  ↔ (selective given = true → field = default "" given).
Proof.
  unfold Reference.exact, selective, JS.truthyStr. destruct given as [s|]; simpl.
  - destruct (String.eqb_spec s ""), (String.eqb_spec s "all"); simpl;
      rewrite ?String.eqb_eq; intuition congruence.
  - intuition congruence.
Qed.

(** The three residual filters keep the cards that match each active filter. *)
Lemma elem_of_sessionFilter filters cards c :
  c ∈ sessionFilter filters cards
  ↔ c ∈ cards
    ∧ Reference.exact (Criteria.type filters) (Flashcard.type c) = true
    ∧ Reference.exact (Criteria.level filters) (Flashcard.level c) = true
    ∧ Reference.exact (Criteria.articleId filters) (Flashcard.articleId c) = true.
Proof.
  rewrite !exact_iff. unfold sessionFilter.
  destruct (selective (Criteria.type filters)),
    (selective (Criteria.level filters)),
    (selective (Criteria.articleId filters));
    rewrite ?list_elem_of_filter, ?Is_true_true, ?String.eqb_eq; intuition congruence.
Qed.

Lemma sessionFilter_all filters cards :
  Forall (λ c,
    Reference.exact (Criteria.type filters) (Flashcard.type c) = true
    ∧ Reference.exact (Criteria.level filters) (Flashcard.level c) = true
    ∧ Reference.exact (Criteria.articleId filters) (Flashcard.articleId c) = true) cards →
  sessionFilter filters cards = cards.
Proof.
  intros Hall. unfold sessionFilter.
  assert (∀ given (field : Flashcard.t → string),
    Forall (λ c, Reference.exact given (field c) = true) cards →
    selective given = true →
    filter (λ c, String.eqb (field c) (default "" given)) cards = cards) as Hstep.
  { intros given field Hf Hsel. apply filter_all.
    eapply Forall_impl; [exact Hf|]. intros c Hc. simpl in Hc.
    apply Is_true_true, String.eqb_eq. by apply exact_iff. }
  destruct (selective (Criteria.type filters)) eqn:Ht.
  { rewrite (Hstep _ Flashcard.type); [|by eapply Forall_impl; [exact Hall|]; intros c (?&?&?)|done].
    destruct (selective (Criteria.level filters)) eqn:Hl.
    { rewrite (Hstep _ Flashcard.level); [|by eapply Forall_impl; [exact Hall|]; intros c (?&?&?)|done].
      destruct (selective (Criteria.articleId filters)) eqn:Ha; [|done].
      apply (Hstep _ Flashcard.articleId); [|done].
      eapply Forall_impl; [exact Hall|]. by intros c (?&?&?). }
    destruct (selective (Criteria.articleId filters)) eqn:Ha; [|done].
    apply (Hstep _ Flashcard.articleId); [|done].
    eapply Forall_impl; [exact Hall|]. by intros c (?&?&?). }
  destruct (selective (Criteria.level filters)) eqn:Hl.
  { rewrite (Hstep _ Flashcard.level); [|by eapply Forall_impl; [exact Hall|]; intros c (?&?&?)|done].
    destruct (selective (Criteria.articleId filters)) eqn:Ha; [|done].
    apply (Hstep _ Flashcard.articleId); [|done].
    eapply Forall_impl; [exact Hall|]. by intros c (?&?&?). }
  destruct (selective (Criteria.articleId filters)) eqn:Ha; [|done].
  apply (Hstep _ Flashcard.articleId); [|done].
  eapply Forall_impl; [exact Hall|]. by intros c (?&?&?).
Qed.

End MoreSessionFacts.

Section SessionTheorems.
Import DatabaseService AppContext.

(** The by-review index lists the due cards earliest first. *)
Lemma by_review_sorted range db :
  StronglySorted (λ a b, Flashcard.nextReview a ≤ Flashcard.nextReview b)
    (by_review range db).
Proof.
  unfold by_review, IDB.getAllFromIndex.
  eapply sublist_StronglySorted; [apply sublist_filter|].
  assert (StronglySorted
            (λ a b : Flashcard.t,
               IDB.keyBefore Z.leb (Some (Flashcard.nextReview a))
                 (Some (Flashcard.nextReview b)) = true)
            (JS.sort (λ a b, IDB.keyBefore Z.leb (Some (Flashcard.nextReview a))
                               (Some (Flashcard.nextReview b)))
               (IDB.getAll (flashcards db)))) as Hs.
  { apply sort_StronglySorted; simpl.
    - intros a b. rewrite !Z.leb_le. lia.
    - intros a b c. rewrite !Z.leb_le. lia. }
  induction Hs as [|c l Hl IH Hc]; constructor; [done|].
  eapply Forall_impl; [exact Hc|]. intros d. simpl. by rewrite Z.leb_le.
Qed.

Lemma elem_of_by_review now db c :
  c ∈ by_review (IDB.upperBound now) db
  ↔ (∃ k, flashcards db !! k = Some c) ∧ Flashcard.nextReview c ≤ now.
Proof.
  unfold by_review. rewrite elem_of_getAllFromIndex. unfold IDB.upperBound. split.
  - intros [Hk (x & [= <-] & Hx)]. split; [done|]. by apply Z.leb_le.
  - intros [Hk Hx]. split; [done|]. eexists. split; [done|]. by apply Z.leb_le.
Qed.

Lemma elem_of_by_stage db c :
  c ∈ by_stage (IDB.onlyNum 0) db
  ↔ (∃ k, flashcards db !! k = Some c) ∧ Flashcard.stage c = 0.
Proof.
  unfold by_stage. rewrite elem_of_getAllFromIndex. unfold IDB.onlyNum. split.
  - intros [Hk (x & [= <-] & Hx)]. split; [done|]. symmetry. by apply Z.eqb_eq.
  - intros [Hk Hx]. split; [done|]. eexists. split; [done|]. apply Z.eqb_eq. done.
Qed.

(** X19. [getDueFlashcards(N)] hands out the most overdue cards: the cards it
    returns are in ascending order of next review, and every stored due card
    that it leaves out is due no earlier than each card it returns. *)
Theorem getDueFlashcards_most_overdue (now : Z) (N : nat) (db : DB) :
  let result := getDueFlashcards now (Some (Z.of_nat N)) db in
  StronglySorted (λ a b, Flashcard.nextReview a ≤ Flashcard.nextReview b) result
  ∧ (∀ c d k, c ∈ result →
       flashcards db !! k = Some d → Flashcard.nextReview d ≤ now → d ∉ result →
       Flashcard.nextReview c ≤ Flashcard.nextReview d).
Proof.
  simpl. rewrite getDueFlashcards_take.
  pose proof (by_review_sorted (IDB.upperBound now) db) as Hs.
  rewrite <- (take_drop N (by_review (IDB.upperBound now) db)) in Hs.
  split; [by apply StronglySorted_app_1_l in Hs|].
  intros c d k Hc Hk Hd Hout.
  eapply (StronglySorted_app_1_elem_of _ _ _ c d Hs); [done|].
  assert (d ∈ by_review (IDB.upperBound now) db) as Hin
    by (apply elem_of_by_review; eauto).
  rewrite <- (take_drop N (by_review (IDB.upperBound now) db)) in Hin.
  by apply elem_of_app in Hin as [?|?].
Qed.

Section WithComparator.
Variable localeCompare : string → string → Z.

Lemma sessionCards_all now filters limit db :
  sessionCards localeCompare now all filters limit db
  = queryFlashcards localeCompare (Criteria.withLimit filters (default 50 limit)) db.
Proof.
  unfold sessionCards, sessionPool. apply sessionFilter_all.
  apply Forall_forall. intros c Hc.
  apply (sublist_subseteq _ _ (queryFlashcards_sublist _ _ _)) in Hc.
  apply elem_of_queryResults in Hc as [_ Hc].
  apply satisfies_exact in Hc as (Ha & Ht & Hl). done.
Qed.

(** X20. In mode 'all' the three filters applied after retrieval remove
    nothing: the session is the page that [queryFlashcards] returns for the
    filters and the limit (50 by default), so here, unlike in the modes 'due'
    and 'new', the cards are filtered before they are counted. A limit of 0
    is treated by [queryFlashcards] as no limit, so it means 'every matching
    card' in mode 'all', while it means 'no card' in the modes 'due' and
    'new'. *)
Theorem session_all_is_query (now : Z) (a t l s : option string) (offset : option Z)
    (limit : option Z) (db : DB) :
  let filters := Criteria.mk a t l s None offset in
  sessionCards localeCompare now all filters limit db
  = queryFlashcards localeCompare (Criteria.mk a t l s (Some (default 50 limit)) offset) db
  ∧ sessionCards localeCompare now all filters (Some 0) db
    = queryFlashcards localeCompare filters db
  ∧ sessionCards localeCompare now due filters (Some 0) db = []
  ∧ sessionCards localeCompare now new filters (Some 0) db = [].
Proof.
  simpl. split; [apply sessionCards_all|]. split; [apply sessionCards_all|].
  split; unfold sessionCards, sessionPool.
  - rewrite (getDueFlashcards_take now 0). simpl.
    apply sublist_nil_r, sessionFilter_sublist.
  - rewrite (getNewFlashcards_take 0). simpl.
    apply sublist_nil_r, sessionFilter_sublist.
Qed.

(** X21. Every card of a session, in each of the three modes, is a stored
    card that matches each active filter on type, level and article. *)
Theorem session_cards_match (now : Z) (mode : Mode) (filters : Criteria.t)
    (limit : option Z) (db : DB) (result : list Flashcard.t) (c : Flashcard.t) :
  getCardsForSession localeCompare now mode filters limit db result →
  c ∈ result →
  (∃ k, flashcards db !! k = Some c)
  ∧ Reference.exact (Criteria.type filters) (Flashcard.type c) = true
  ∧ Reference.exact (Criteria.level filters) (Flashcard.level c) = true
  ∧ Reference.exact (Criteria.articleId filters) (Flashcard.articleId c) = true.
Proof.
  unfold getCardsForSession, sessionCards. intros -> Hc.
  apply elem_of_sessionFilter in Hc as (Hc & Ht & Hl & Ha).
  split; [|done]. destruct mode; simpl in Hc.
  - apply (sublist_subseteq _ _ (slice_sublist _ _ _)) in Hc.
    by apply elem_of_getAllFromIndex in Hc as [Hk _].
  - apply (sublist_subseteq _ _ (slice_sublist _ _ _)) in Hc.
    by apply elem_of_getAllFromIndex in Hc as [Hk _].
  - apply (sublist_subseteq _ _ (queryFlashcards_sublist _ _ _)) in Hc.
    by apply elem_of_queryResults in Hc as [Hk _].
Qed.

(** X22. With a positive limit (50 when none is given) a session has at most
    that many cards, in each of the three modes. *)
Theorem session_size (now : Z) (mode : Mode) (filters : Criteria.t)
    (limit : option Z) (db : DB) (result : list Flashcard.t) :
  0 < default 50%Z limit →
  getCardsForSession localeCompare now mode filters limit db result →
  (length result ≤ Z.to_nat (default 50%Z limit))%nat.
Proof.
  unfold getCardsForSession, sessionCards. intros Hl ->.
  etrans; [apply sublist_length, sessionFilter_sublist|].
  destruct mode; simpl.
  - apply (length_slice_le 0). lia.
  - apply (length_slice_le 0). lia.
  - by apply (length_queryFlashcards_le _ _ _ (default 50 limit)).
Qed.

(** X23. When no more cards are due (are new) than the limit allows, nothing
    is lost to the cut: the session in mode 'due' ('new') consists of exactly
    the stored cards that are due (at stage 0) and match the active
    filters. *)
Theorem session_complete_within_limit (now : Z) (filters : Criteria.t) (N : nat)
    (db : DB) (c : Flashcard.t) :
  ((length (by_review (IDB.upperBound now) db) ≤ N)%nat →
   c ∈ sessionCards localeCompare now due filters (Some (Z.of_nat N)) db
   ↔ (∃ k, flashcards db !! k = Some c) ∧ Flashcard.nextReview c ≤ now
     ∧ Reference.exact (Criteria.type filters) (Flashcard.type c) = true
     ∧ Reference.exact (Criteria.level filters) (Flashcard.level c) = true
     ∧ Reference.exact (Criteria.articleId filters) (Flashcard.articleId c) = true)
  ∧ ((length (by_stage (IDB.onlyNum 0) db) ≤ N)%nat →
     c ∈ sessionCards localeCompare now new filters (Some (Z.of_nat N)) db
     ↔ (∃ k, flashcards db !! k = Some c) ∧ Flashcard.stage c = 0
       ∧ Reference.exact (Criteria.type filters) (Flashcard.type c) = true
       ∧ Reference.exact (Criteria.level filters) (Flashcard.level c) = true
       ∧ Reference.exact (Criteria.articleId filters) (Flashcard.articleId c) = true).
Proof.
  unfold sessionCards, sessionPool.
  rewrite getDueFlashcards_take, getNewFlashcards_take.
  split; intros Hlen; rewrite elem_of_sessionFilter, take_ge by done.
  - rewrite elem_of_by_review. tauto.
  - rewrite elem_of_by_stage. tauto.
Qed.

End WithComparator.
End SessionTheorems.

Lemma session_cards_match_witness :
  (∃ k, flashcards Sample.db1 !! k = Some Sample.card3)
  ∧ Reference.exact (Criteria.type (Criteria.mk (Some "a1") None None None None None))
      (Flashcard.type Sample.card3) = true
  ∧ Reference.exact (Criteria.level (Criteria.mk (Some "a1") None None None None None))
      (Flashcard.level Sample.card3) = true
  ∧ Reference.exact (Criteria.articleId (Criteria.mk (Some "a1") None None None None None))
      (Flashcard.articleId Sample.card3) = true.
Proof.
  apply (session_cards_match Sample.byCodeUnit 1000 AppContext.due
           (Criteria.mk (Some "a1") None None None None None) (Some 5%Z) Sample.db1
           [Sample.card3; Sample.card1] Sample.card3).
  - unfold AppContext.getCardsForSession.
    assert (AppContext.sessionCards Sample.byCodeUnit 1000 AppContext.due
              (Criteria.mk (Some "a1") None None None None None) (Some 5%Z) Sample.db1
            = [Sample.card1; Sample.card3]) as -> by (vm_compute; reflexivity).
    apply Permutation_swap.
  - left.
Defined.

Lemma session_size_witness :
  (length (AppContext.sessionCards Sample.byCodeUnit 1000 AppContext.all
             (Criteria.mk None None None None None None) None Sample.db1)
   ≤ Z.to_nat (default 50%Z None))%nat.
Proof.
  apply (session_size Sample.byCodeUnit 1000 AppContext.all
           (Criteria.mk None None None None None None) None Sample.db1).
  - reflexivity.
  - unfold AppContext.getCardsForSession. reflexivity.
Defined.

(** ** Cutting a text into segments *)

Section ChunkFacts.
Import ArticleImport.

Lemma append_assoc (a b c : string) : (a +:+ b) +:+ c = a +:+ (b +:+ c).
Proof.
  induction a as [|x a IH]; [done|].
  change (String x ((a +:+ b) +:+ c) = String x (a +:+ b +:+ c)). by rewrite IH.
Qed.

Lemma join_cons w ws : ws ≠ [] → join (w :: ws) = w +:+ " " +:+ join ws.
Proof. by destruct ws. Qed.

Lemma join_app (l1 l2 : list string) :
  l1 ≠ [] → l2 ≠ [] → join (l1 ++ l2) = join l1 +:+ " " +:+ join l2.
Proof.
  intros H1 H2. induction l1 as [|w l1 IH]; [done|].
  destruct l1 as [|w' l1].
  - simpl. by rewrite join_cons.
  - rewrite <- app_comm_cons, join_cons by done.
    rewrite IH by done. rewrite (join_cons w) by done.
    by rewrite !append_assoc.
Qed.

(** Joining the joined chunks is joining all the words. *)
Lemma join_concat (chunks : list (list string)) :
  Forall (λ ch, ch ≠ []) chunks → join (join <$> chunks) = join (concat chunks).
Proof.
  induction 1 as [|ch chunks Hch Hall IH]; [done|].
  destruct chunks as [|ch' chunks].
  - simpl. by rewrite app_nil_r.
  - rewrite fmap_cons, join_cons by done. rewrite IH.
    change (concat (ch :: ch' :: chunks)) with (ch ++ concat (ch' :: chunks)).
    rewrite join_app; [done|done|].
    apply Forall_cons in Hall as [Hch' _]. simpl. by destruct ch'.
Qed.

Lemma chunkWords_concat wordsPerChunk current words :
  concat (chunkWords wordsPerChunk current words) = current ++ words.
Proof.
  revert current. induction words as [|w words IH]; intros current; simpl.
  - destruct current; simpl; by rewrite ?app_nil_r.
  - destruct (_ && _); simpl; rewrite IH; by rewrite <- ?app_assoc.
Qed.

Lemma chunkWords_nonempty wordsPerChunk current words :
  Forall (λ ch, ch ≠ []) (chunkWords wordsPerChunk current words).
Proof.
  revert current. induction words as [|w words IH]; intros current; simpl.
  - destruct current; simpl; repeat constructor. done.
  - destruct (_ && _); [|apply IH]. constructor; [|apply IH]. by destruct current.
Qed.

(** Every chunk but the last is full and ends at the end of a sentence. *)
Lemma chunkWords_boundary wordsPerChunk current words i ch :
  chunkWords wordsPerChunk current words !! i = Some ch →
  (S i < length (chunkWords wordsPerChunk current words))%nat →
  wordsPerChunk ≤ Z.of_nat (length ch)
  ∧ ∃ w, last ch = Some w ∧ w ∈ current ++ words ∧ endsSentence w = true.
Proof.
  revert current i. induction words as [|w words IH]; intros current i; simpl.
  - destruct (0 <? _); simpl; intros _ ?; lia.
  - destruct (_ && _) eqn:Hfull.
    + apply andb_prop in Hfull as [Hlen Hend]. destruct i as [|i]; simpl.
      * intros [= <-] _. split; [by apply Z.leb_le|].
        exists w. rewrite last_snoc. split; [done|]. split; [|done].
        apply elem_of_app. right. by left.
      * intros Hi Hlt. destruct (IH [] i Hi) as (Hl & w' & Hw' & Hin & He); [lia|].
        split; [done|]. exists w'. split; [done|]. split; [|done].
        apply elem_of_app. right. by right.
    + intros Hi Hlt. destruct (IH _ i Hi Hlt) as (Hl & w' & Hw' & Hin & He).
      split; [done|]. exists w'. split; [done|]. split; [|done].
      by rewrite <- app_assoc in Hin.
Qed.

End ChunkFacts.

Section SplitFacts.
Import ArticleImport.

Lemma splitFrom_nonempty inGap s : splitFrom inGap s ≠ [].
Proof.
  revert inGap. induction s as [|c s IH]; intros inGap; simpl; [done|].
  destruct (isSpace c).
  - destruct inGap; [apply IH|done].
  - by destruct (splitFrom false s).
Qed.

Lemma splitFrom_noSpace inGap s : Forall Conditions.noSpace (splitFrom inGap s).
Proof.
  revert inGap. induction s as [|c s IH]; intros inGap; simpl.
  - by repeat constructor.
  - destruct (isSpace c) eqn:Hc.
    + destruct inGap; [apply IH|]. constructor; [done|apply IH].
    + specialize (IH false). destruct (splitFrom false s) as [|w ws].
      * by repeat constructor.
      * apply Forall_cons in IH as [Hw Hws]. by repeat constructor.
Qed.

(** A word without white space does not end with a line feed: the fourth
    test of [endsSentence] never succeeds on the words of a text. *)
Lemma endsWith_newline w : Conditions.noSpace w → endsWith w "010" = false.
Proof.
  induction w as [|c w IH]; [done|]. intros [Hc Hw]. simpl.
  destruct w as [|c' w']; [|by apply IH].
  destruct (Ascii.eqb_spec c "010") as [->|]; [discriminate|done].
Qed.

Lemma endsWith_nonempty w c : endsWith w c = true → w ≠ "".
Proof. by destruct w. Qed.

Lemma endsWith_append a b c : endsWith b c = true → endsWith (a +:+ b) c = true.
Proof.
  intros Hb. induction a as [|x a IH]; [done|].
  change (endsWith (String x (a +:+ b)) c = true).
  pose proof (endsWith_nonempty _ _ IH) as Hne. simpl.
  by destruct (a +:+ b).
Qed.

Lemma join_last ch w : last ch = Some w → ∃ p, join ch = p +:+ w.
Proof.
  induction ch as [|x ch IH]; [done|]. destruct ch as [|y ch].
  - intros [= ->]. by exists "".
  - rewrite last_cons_cons. intros [p Hp]%IH.
    exists (x +:+ " " +:+ p). rewrite join_cons by done.
    by rewrite Hp, !append_assoc.
Qed.

(** X24. [splitTextIntoSegments] loses no word and invents none: the chunks,
    read one after the other, hold the words of the text in their order, so
    joining the segments with a blank gives the text with each run of white
    space replaced by one blank. No chunk is empty, and there is always at
    least one segment (for the empty text, one empty segment), so the first
    segment that [handleAnalyze] sends to the analysis exists. *)
Theorem segments_preserve_words (fullText : string) (wordsPerChunk : Z) :
  let chunks := chunkWords wordsPerChunk [] (splitWhitespace fullText) in
  concat chunks = splitWhitespace fullText
  ∧ Forall (λ ch, ch ≠ []) chunks
  ∧ join (splitTextIntoSegments fullText wordsPerChunk) = join (splitWhitespace fullText)
  ∧ (0 < length (splitTextIntoSegments fullText wordsPerChunk))%nat.
Proof.
  simpl. unfold splitTextIntoSegments.
  pose proof (chunkWords_concat wordsPerChunk [] (splitWhitespace fullText)) as Hc.
  pose proof (chunkWords_nonempty wordsPerChunk [] (splitWhitespace fullText)) as Hn.
  split; [done|]. split; [done|]. split.
  - by rewrite join_concat, Hc.
  - rewrite length_fmap.
    destruct (chunkWords wordsPerChunk [] (splitWhitespace fullText)); simpl; [|lia].
    simpl in Hc. symmetry in Hc. by apply splitFrom_nonempty in Hc.
Qed.

(** X25. Every segment except the last one is full and ends a sentence: it
    has at least [wordsPerChunk] words and its text ends with a full stop, a
    question mark or an exclamation mark. (The test for a trailing line feed
    in the source never succeeds, since the words are cut at white space.) *)
Theorem segments_end_sentences (fullText : string) (wordsPerChunk : Z) (i : nat)
    (ch : list string) :
  let chunks := chunkWords wordsPerChunk [] (splitWhitespace fullText) in
  chunks !! i = Some ch →
  (S i < length chunks)%nat →
  splitTextIntoSegments fullText wordsPerChunk !! i = Some (join ch)
  ∧ wordsPerChunk ≤ Z.of_nat (length ch)
  ∧ (endsWith (join ch) "." = true ∨ endsWith (join ch) "?" = true
     ∨ endsWith (join ch) "!" = true).
Proof.
  intros chunks Hi Hlt. subst chunks. split; [|split].
  - unfold splitTextIntoSegments. by rewrite list_lookup_fmap, Hi.
  - by destruct (chunkWords_boundary _ _ _ _ _ Hi Hlt) as [? _].
  - destruct (chunkWords_boundary _ _ _ _ _ Hi Hlt) as (_ & w & Hw & Hin & He).
    assert (Conditions.noSpace w) as Hns.
    { pose proof (splitFrom_noSpace false fullText) as Hall.
      by eapply Forall_forall in Hall. }
    apply join_last in Hw as [p ->].
    unfold endsSentence in He. rewrite (endsWith_newline w Hns), orb_false_r in He.
    apply orb_prop in He as [[He|He]%orb_prop|He]; auto using endsWith_append.
Qed.

Lemma segments_end_sentences_witness :
  splitTextIntoSegments "One two. Three four five! Six" 2 !! 1%nat
  = Some (join ["Three"; "four"; "five!"])
  ∧ 2 ≤ Z.of_nat (length ["Three"; "four"; "five!"])
  ∧ (endsWith (join ["Three"; "four"; "five!"]) "." = true
     ∨ endsWith (join ["Three"; "four"; "five!"]) "?" = true
     ∨ endsWith (join ["Three"; "four"; "five!"]) "!" = true).
Proof.
  apply (segments_end_sentences "One two. Three four five! Six" 2 1
           ["Three"; "four"; "five!"]).
  - reflexivity.
  - vm_compute. lia.
Defined.

End SplitFacts.

(** ** Rewriting a segment *)

Section SegmentUpdates.
Import DatabaseService.

(** Writing back a segment under the same id, article and index: the write
    replaces that record only, keeps segments unique per article and index,
    and [getSegment] reads the new record. *)
Lemma updateSegment_read_back articleId index db s s' :
  IDB.keyed_wf (segments db) →
  Conditions.uniqueSegments db →
  getSegment articleId index db = Some s →
  ArticleSegment.id s' = ArticleSegment.id s →
  ArticleSegment.articleId s' = ArticleSegment.articleId s →
  ArticleSegment.index s' = ArticleSegment.index s →
  getSegment articleId index (updateSegment s' db) = Some s'
  ∧ (∀ k, k ≠ ArticleSegment.id s →
       segments (updateSegment s' db) !! k = segments db !! k)
  ∧ Conditions.uniqueSegments (updateSegment s' db)
  ∧ IDB.keyed_wf (segments (updateSegment s' db)).
Proof.
  intros Hwf Huniq Hs Hid Ha Hi.
  apply getSegment_Some in Hs as ([k Hk] & Has & His).
  pose proof (Hwf _ _ Hk) as Hkid. simpl in Hkid.
  unfold keyOf, segment_keyed in Hkid. subst k.
  assert (∀ k v, segments (updateSegment s' db) !! k = Some v →
            (k = ArticleSegment.id s ∧ v = s')
            ∨ (k ≠ ArticleSegment.id s ∧ segments db !! k = Some v)) as Hcases.
  { intros k v Hv. simpl in Hv. unfold IDB.put in Hv.
    apply lookup_insert_Some in Hv as [[<- <-]|[Hne Hv]].
    - left. split; [by symmetry|done].
    - right. split; [|done]. unfold keyOf, segment_keyed in Hne. congruence. }
  assert (Conditions.uniqueSegments (updateSegment s' db)) as Huniq'.
  { intros k1 s1 k2 s2 H1 H2 Heqa Heqi.
    apply Hcases in H1 as [[-> ->]|[Hne1 H1]], H2 as [[-> ->]|[Hne2 H2]]; try done.
    - assert (s = s2) as <- by (eapply Huniq; eauto; congruence).
      pose proof (Hwf _ _ H2) as Hk2. simpl in Hk2. by destruct Hne2.
    - assert (s1 = s) as -> by (eapply Huniq; eauto; congruence).
      pose proof (Hwf _ _ H1) as Hk1. simpl in Hk1. by destruct Hne1.
    - eapply Huniq; eauto. }
  assert (segments (updateSegment s' db) !! ArticleSegment.id s' = Some s') as Hnew
    by apply lookup_insert_eq.
  split; [|split; [|split]].
  - eapply getSegment_unique; eauto; congruence.
  - intros k Hne. simpl. unfold IDB.put. apply lookup_insert_ne.
    unfold keyOf, segment_keyed. congruence.
  - done.
  - by apply put_wf.
Qed.

(** X26. [updateSegmentTranslation] on an existing segment (in a store where
    no two segments of an article share an index) sets the translation of
    that segment and nothing else: reading the segment back gives the same
    record with the new translation, every other segment and every other
    object store are untouched. *)
Theorem translation_read_back (articleId : string) (index : Z) (translation : string)
    (db : DB) (s : ArticleSegment.t) :
  IDB.keyed_wf (segments db) →
  Conditions.uniqueSegments db →
  getSegment articleId index db = Some s →
  let db' := AppStore.updateSegmentTranslation articleId index translation db in
  getSegment articleId index db'
  = Some (ArticleSegment.mk (ArticleSegment.id s) (ArticleSegment.index s)
            (ArticleSegment.title s) (ArticleSegment.content s)
            (ArticleSegment.analyzedWords s) (ArticleSegment.approvedWordIds s)
            (Some translation) (ArticleSegment.isAnalyzed s) (ArticleSegment.articleId s))
  ∧ (∀ k, k ≠ ArticleSegment.id s → segments db' !! k = segments db !! k)
  ∧ articles db' = articles db ∧ flashcards db' = flashcards db
  ∧ settings db' = settings db ∧ collections db' = collections db.
Proof.
  intros Hwf Huniq Hs db'. subst db'. unfold AppStore.updateSegmentTranslation.
  rewrite Hs.
  destruct (updateSegment_read_back articleId index db s
              (AppStore.withTranslation s translation) Hwf Huniq Hs eq_refl eq_refl eq_refl)
    as (Hread & Hother & _ & _).
  by repeat split.
Qed.

End SegmentUpdates.

Section SegmentUpdateTheorems.
Import DatabaseService.

Lemma sample_segments_unique : Conditions.uniqueSegments Sample.db1.
Proof.
  assert (∀ k s, segments Sample.db1 !! k = Some s → s = Sample.segment0) as Hone.
  { intros k s Hk.
    change (<["s0" := Sample.segment0]> (∅ : gmap string ArticleSegment.t) !! k = Some s)
      in Hk.
    apply lookup_insert_Some in Hk as [[_ <-]|[_ Hk]]; [done|].
    by rewrite lookup_empty in Hk. }
  intros k1 s1 k2 s2 H1 H2 _ _. by rewrite (Hone _ _ H1), (Hone _ _ H2).
Qed.

Lemma translation_read_back_witness :
  let db' := AppStore.updateSegmentTranslation "a1" 0 "tarjome" Sample.db1 in
  getSegment "a1" 0 db'
  = Some (ArticleSegment.mk (ArticleSegment.id Sample.segment0)
            (ArticleSegment.index Sample.segment0)
            (ArticleSegment.title Sample.segment0) (ArticleSegment.content Sample.segment0)
            (ArticleSegment.analyzedWords Sample.segment0)
            (ArticleSegment.approvedWordIds Sample.segment0)
            (Some "tarjome") (ArticleSegment.isAnalyzed Sample.segment0)
            (ArticleSegment.articleId Sample.segment0))
  ∧ (∀ k, k ≠ ArticleSegment.id Sample.segment0 →
       segments db' !! k = segments Sample.db1 !! k)
  ∧ articles db' = articles Sample.db1 ∧ flashcards db' = flashcards Sample.db1
  ∧ settings db' = settings Sample.db1 ∧ collections db' = collections Sample.db1.
Proof.
  apply (translation_read_back "a1" 0 "tarjome" Sample.db1 Sample.segment0).
  - apply (bool_decide_unpack _). vm_compute. exact I.
  - apply sample_segments_unique.
  - vm_compute. reflexivity.
Defined.

(** X27. [updateSegmentAnalysis] on an existing segment (in a store where no
    two segments of an article share an index) stores the new analysis and
    marks the segment analysed: reading it back gives the segment with the
    new analysed words, [isAnalyzed] set, and its approved lemmas as they
    were. In memory, the embedded copies at that index of the articles with
    that id are marked analysed and no article is added, removed or
    reordered. The articles store itself is not written: the persisted
    article keeps the flag it was imported with. *)
Theorem analysis_read_back (articleId : string) (index : Z)
    (analysis : list WordAnalysis.t) (ctx : AppStore.Ctx) (db : DB)
    (s : ArticleSegment.t) :
  IDB.keyed_wf (segments db) →
  Conditions.uniqueSegments db →
  getSegment articleId index db = Some s →
  let w' := AppStore.updateSegmentAnalysis articleId index analysis (ctx, db) in
  getSegment articleId index w'.2
  = Some (ArticleSegment.mk (ArticleSegment.id s) (ArticleSegment.index s)
            (ArticleSegment.title s) (ArticleSegment.content s)
            analysis (ArticleSegment.approvedWordIds s)
            (ArticleSegment.persianTranslation s) true (ArticleSegment.articleId s))
  ∧ (∀ k, k ≠ ArticleSegment.id s → segments w'.2 !! k = segments db !! k)
  ∧ articles w'.2 = articles db ∧ flashcards w'.2 = flashcards db
  ∧ Article.id <$> AppStore.ctxArticles w'.1 = Article.id <$> AppStore.ctxArticles ctx
  ∧ (∀ a seg, a ∈ AppStore.ctxArticles w'.1 → Article.id a = articleId →
       seg ∈ Article.segments a → ArticleSegment.index seg = index →
       ArticleSegment.isAnalyzed seg = true).
Proof.
  intros Hwf Huniq Hs w'. subst w'. unfold AppStore.updateSegmentAnalysis.
  rewrite Hs. simpl.
  destruct (updateSegment_read_back articleId index db s
              (AppStore.withAnalysis s analysis) Hwf Huniq Hs eq_refl eq_refl eq_refl)
    as (Hread & Hother & _ & _).
  split; [done|]. split; [done|]. split; [done|]. split; [done|]. split.
  - unfold AppStore.flagAnalyzed. rewrite <- list_fmap_compose.
    apply list_fmap_ext. intros i a _. simpl. by destruct (negb _).
  - intros a seg Ha Hid Hseg Hidx. unfold AppStore.flagAnalyzed in Ha.
    apply list_elem_of_fmap in Ha as (a0 & -> & _).
    destruct (String.eqb_spec (Article.id a0) articleId) as [Heq|Hne]; simpl in *.
    + apply list_elem_of_fmap in Hseg as (seg0 & -> & _).
      destruct (Z.eqb_spec (ArticleSegment.index seg0) index) as [|Hn]; [done|].
      by destruct Hn.
    + by destruct Hne.
Qed.

Lemma analysis_read_back_witness :
  let w' :=
    AppStore.updateSegmentAnalysis "a1" 0 [Sample.genome] (AppStore.initial, Sample.db1) in
  getSegment "a1" 0 w'.2
  = Some (ArticleSegment.mk (ArticleSegment.id Sample.segment0)
            (ArticleSegment.index Sample.segment0)
            (ArticleSegment.title Sample.segment0) (ArticleSegment.content Sample.segment0)
            [Sample.genome] (ArticleSegment.approvedWordIds Sample.segment0)
            (ArticleSegment.persianTranslation Sample.segment0) true
            (ArticleSegment.articleId Sample.segment0))
  ∧ (∀ k, k ≠ ArticleSegment.id Sample.segment0 →
       segments w'.2 !! k = segments Sample.db1 !! k)
  ∧ articles w'.2 = articles Sample.db1 ∧ flashcards w'.2 = flashcards Sample.db1
  ∧ Article.id <$> AppStore.ctxArticles w'.1
    = Article.id <$> AppStore.ctxArticles AppStore.initial
  ∧ (∀ a seg, a ∈ AppStore.ctxArticles w'.1 → Article.id a = "a1" →
       seg ∈ Article.segments a → ArticleSegment.index seg = 0 →
       ArticleSegment.isAnalyzed seg = true).
Proof.
  apply (analysis_read_back "a1" 0 [Sample.genome] AppStore.initial Sample.db1
           Sample.segment0).
  - apply (bool_decide_unpack _). vm_compute. exact I.
  - apply sample_segments_unique.
  - vm_compute. reflexivity.
Defined.

End SegmentUpdateTheorems.

(** ** Settings and start-up *)

Section SettingsFacts.
Import DatabaseService AppStore.

Lemma sameType_eq a b : SettingsPage.sameType a b = true ↔ a = b.
Proof. destruct a, b; simpl; split; (done || discriminate). Qed.

(** X28. A type switch of the settings page flips that type and no other:
    after [toggleType(type)] the type is enabled exactly if it was not
    before, every other type is enabled exactly if it was, no type is listed
    twice if none was, the other settings keep their values, and the new
    settings are the ones persisted. *)
Theorem toggleType_flips (type : AnalysisType.t) (w : Ctx * DB) :
  let w' := SettingsPage.toggleType type w in
  let before := AppSettings.enabledTypes (ctxSettings w.1) in
  let after := AppSettings.enabledTypes (ctxSettings w'.1) in
  (type ∈ after ↔ type ∉ before)
  ∧ (∀ u, u ≠ type → (u ∈ after ↔ u ∈ before))
  ∧ (NoDup before → NoDup after)
  ∧ AppSettings.analysisModel (ctxSettings w'.1) = AppSettings.analysisModel (ctxSettings w.1)
  ∧ AppSettings.segmentLength (ctxSettings w'.1) = AppSettings.segmentLength (ctxSettings w.1)
  ∧ AppSettings.ttsEngine (ctxSettings w'.1) = AppSettings.ttsEngine (ctxSettings w.1)
  ∧ getSettings w'.2 = Some (PartialSettings.full (ctxSettings w'.1)).
Proof.
  destruct w as [ctx db]. unfold SettingsPage.toggleType. simpl.
  set (before := AppSettings.enabledTypes (ctxSettings ctx)).
  assert (existsb (SettingsPage.sameType type) before = true ↔ type ∈ before) as Hex.
  { rewrite existsb_exists. split.
    - intros (x & Hx & ->%sameType_eq). by apply list_elem_of_In.
    - intros Hin. exists type. split; [by apply list_elem_of_In|by apply sameType_eq]. }
  destruct (existsb _ _) eqn:He; simpl.
  - assert (type ∈ before) as Hin by (by apply Hex).
    assert (∀ u, u ∈ filter (λ t, negb (SettingsPage.sameType t type)) before
                 ↔ u ≠ type ∧ u ∈ before) as Hf.
    { intros u. rewrite list_elem_of_filter. rewrite negb_True, Is_true_true, sameType_eq.
      tauto. }
    split; [|split; [|split; [|by repeat split]]].
    + rewrite Hf. tauto.
    + intros u Hu. rewrite Hf. tauto.
    + intros Hnd. by apply NoDup_filter.
  - assert (type ∉ before) as Hout by (intros Hin; apply Hex in Hin; discriminate).
    split; [|split; [|split; [|by repeat split]]].
    + rewrite elem_of_app, list_elem_of_singleton. tauto.
    + intros u Hu. rewrite elem_of_app, list_elem_of_singleton. tauto.
    + intros Hnd. apply NoDup_app. split; [done|]. split; [|apply NoDup_singleton].
      intros x Hx [->|[]%elem_of_nil]%elem_of_cons. done.
Qed.

(** The by-date index lists the articles oldest first. *)
Lemma getArticles_sorted db :
  StronglySorted (λ a b, Article.processedAt a ≤ Article.processedAt b) (getArticles db).
Proof.
  unfold getArticles, IDB.getAllFromIndex.
  eapply sublist_StronglySorted; [apply sublist_filter|].
  assert (StronglySorted
            (λ a b : Article.t,
               IDB.keyBefore Z.leb (Some (Article.processedAt a))
                 (Some (Article.processedAt b)) = true)
            (JS.sort (λ a b, IDB.keyBefore Z.leb (Some (Article.processedAt a))
                               (Some (Article.processedAt b)))
               (IDB.getAll (articles db)))) as Hs.
  { apply sort_StronglySorted; simpl.
    - intros a b. rewrite !Z.leb_le. lia.
    - intros a b c. rewrite !Z.leb_le. lia. }
  induction Hs as [|c l Hl IH Hc]; constructor; [done|].
  eapply Forall_impl; [exact Hc|]. intros d. simpl. by rewrite Z.leb_le.
Qed.

Lemma StronglySorted_reverse {A} (R : relation A) (l : list A) :
  StronglySorted R l → StronglySorted (flip R) (reverse l).
Proof.
  induction 1 as [|x l Hl IH Hx]; [constructor|].
  rewrite reverse_cons. apply StronglySorted_app_2; [|done|by repeat constructor].
  intros y z Hy [->|[]%elem_of_nil]%elem_of_cons.
  rewrite elem_of_reverse in Hy.
  unfold flip. rewrite Forall_forall in Hx. by apply Hx.
Qed.

(** X29. After start-up (and after the reload that ends an import) the
    in-memory list holds exactly the stored articles, the most recently
    processed first; the loading flag is cleared and the database is not
    written. *)
Theorem loadData_newest_first (w : Ctx * DB) :
  let w' := loadData w in
  StronglySorted (λ a b, Article.processedAt b ≤ Article.processedAt a) (ctxArticles w'.1)
  ∧ (∀ a, a ∈ ctxArticles w'.1 ↔ ∃ k, articles w.2 !! k = Some a)
  ∧ (IDB.keyed_wf (articles w.2) → NoDup (ctxArticles w'.1))
  ∧ isLoading w'.1 = false
  ∧ w'.2 = w.2.
Proof.
  destruct w as [ctx db]. simpl. split; [|split; [|split]].
  - apply (StronglySorted_reverse _ _ (getArticles_sorted db)).
  - intros a. rewrite elem_of_reverse. unfold getArticles.
    rewrite elem_of_getAllFromIndex. split; [by intros [? _]|].
    intros Hk. split; [done|]. by eexists.
  - intros Hwf. rewrite reverse_Permutation. unfold getArticles, IDB.getAllFromIndex.
    apply NoDup_filter. rewrite sort_Permutation. by apply getAll_NoDup.
  - done.
Qed.

End SettingsFacts.

(** ** The article list in memory and the by-date index *)

Section ArticleListFacts.
Import DatabaseService AppStore.

(** Sorting by index key a list that is in order of primary key puts it into
    the order of the index: the sort is stable. *)
Lemma insertSorted_indexOrder {V} `{Keyed V} (ikey : V → Z) x l :
  StronglySorted (Conditions.indexOrder ikey) l →
  Forall (λ y, String.leb (keyOf x) (keyOf y) = true) l →
  StronglySorted (Conditions.indexOrder ikey)
    (JS.insertSorted (λ a b, ikey a <=? ikey b) x l).
Proof.
  induction 1 as [|y l Hl IH Hy]; intros Hx; simpl.
  - repeat constructor.
  - apply Forall_cons in Hx as [Hxy Hx].
    destruct (Z.leb_spec (ikey x) (ikey y)) as [Hle|Hlt].
    + constructor; [by constructor|].
      constructor.
      * unfold Conditions.indexOrder.
        destruct (decide (ikey x = ikey y)); [by right|left; lia].
      * rewrite Forall_forall in Hy, Hx. apply Forall_forall. intros z Hz.
        specialize (Hy z Hz). specialize (Hx z Hz).
        unfold Conditions.indexOrder in *.
        destruct (decide (ikey x = ikey z)); [by right|left].
        destruct Hy as [?|[? _]]; lia.
    + constructor; [by apply IH|].
      rewrite insertSorted_Permutation. constructor; [|done].
      left. lia.
Qed.

Lemma sort_indexOrder {V} `{Keyed V} (ikey : V → Z) l :
  StronglySorted (λ a b, String.leb (keyOf a) (keyOf b) = true) l →
  StronglySorted (Conditions.indexOrder ikey) (JS.sort (λ a b, ikey a <=? ikey b) l).
Proof.
  induction 1 as [|x l Hl IH Hx]; simpl; [constructor|].
  apply insertSorted_indexOrder; [done|]. by rewrite sort_Permutation.
Qed.

Lemma getArticles_indexOrder db :
  StronglySorted (Conditions.indexOrder Article.processedAt) (getArticles db).
Proof.
  unfold getArticles, IDB.getAllFromIndex.
  eapply sublist_StronglySorted; [apply sublist_filter|].
  apply (sort_indexOrder Article.processedAt), getAll_sorted.
Qed.

Lemma getArticles_Permutation db : getArticles db ≡ₚ (map_to_list (articles db)).*2.
Proof.
  unfold getArticles, IDB.getAllFromIndex.
  rewrite filter_all by (by apply Forall_true).
  rewrite sort_Permutation. unfold IDB.getAll. by rewrite sort_Permutation.
Qed.

Lemma elem_of_getArticles db a :
  a ∈ getArticles db ↔ ∃ k, articles db !! k = Some a.
Proof.
  rewrite getArticles_Permutation, list_elem_of_fmap. split.
  - intros [[k b] [-> Hkb%elem_of_map_to_list]]. by exists k.
  - intros [k Hk]. exists (k, a). split; [done|]. by apply elem_of_map_to_list.
Qed.

(** A record that is newer than every stored one goes to the end of the
    by-date index. *)
Lemma getArticles_put_newest (a : Article.t) db segs :
  IDB.keyed_wf (articles db) →
  articles db !! Article.id a = None →
  map_Forall (λ _ b, Article.processedAt b < Article.processedAt a) (articles db) →
  getArticles (mkDB (IDB.put a (articles db)) segs (flashcards db) (settings db)
                 (collections db))
  = getArticles db ++ [a].
Proof.
  intros Hwf Hnew Hdate.
  set (db' := mkDB _ _ _ _ _).
  assert (getArticles db' ≡ₚ getArticles db ++ [a]) as Hperm.
  { rewrite !getArticles_Permutation. subst db'. cbn [articles]. unfold IDB.put.
    rewrite map_to_list_insert by done.
    rewrite fmap_cons. cbn [snd]. by rewrite <- Permutation_cons_append. }
  apply (StronglySorted_unique_strong (Conditions.indexOrder Article.processedAt));
    [| apply getArticles_indexOrder | | done].
  - intros x1 x2 Hx1 Hx2 H12 H21.
    rewrite <- Hperm in Hx2.
    apply elem_of_getArticles in Hx1 as [k1 Hk1], Hx2 as [k2 Hk2].
    assert (IDB.keyed_wf (articles db')) as Hwf' by by apply put_wf.
    pose proof (Hwf' _ _ Hk1) as Hid1. pose proof (Hwf' _ _ Hk2) as Hid2.
    simpl in Hid1, Hid2.
    assert (keyOf x1 = keyOf x2) as Hid.
    { unfold Conditions.indexOrder in H12, H21.
      destruct H12 as [?|[? H12]], H21 as [?|[? H21]]; try lia.
      by apply String.leb_antisym. }
    rewrite Hid1, Hid2 in Hid. subst k2. congruence.
  - apply StronglySorted_app_2; [|apply getArticles_indexOrder|by repeat constructor].
    intros y z [k Hk]%elem_of_getArticles [->|[]%elem_of_nil]%elem_of_cons.
    left. exact (Hdate _ _ Hk).
Qed.

(** X30. [addArticle] keeps the article list in memory equal to the one a
    reload would produce, provided the new id is not yet used and the clock
    has advanced since the last article was processed.  The stored record is
    the light one: it sits under the returned id with the content and the
    analysed words of its embedded segments cleared; flashcards, settings and
    collections are not touched. *)
Theorem addArticle_keeps_list_in_sync (newId : string) (now : Z) (title : string)
    (segs : list ArticleSegment.t) (collectionId : option string)
    (w : Ctx * DB) :
  IDB.keyed_wf (articles w.2) →
  articles w.2 !! newId = None →
  map_Forall (λ _ a, Article.processedAt a < now) (articles w.2) →
  Conditions.articlesInSync w →
  let r := AppStore.addArticle newId now title segs collectionId w in
  let light := ArticleStore.lightweight (Article.mk newId title segs collectionId now) in
  r.1 = newId
  ∧ Conditions.articlesInSync r.2
  ∧ ArticleStore.getArticle newId r.2.2 = Some light
  ∧ Forall (λ s, ArticleSegment.content s = "" ∧ ArticleSegment.analyzedWords s = [])
      (Article.segments light)
  ∧ length (Article.segments light) = length segs
  ∧ flashcards r.2.2 = flashcards w.2
  ∧ settings r.2.2 = settings w.2
  ∧ collections r.2.2 = collections w.2.
Proof.
  destruct w as [ctx db]. cbn [fst snd]. intros Hwf Hnew Hdate Hsync. simpl.
  split; [done|]. split; [|split; [|split; [|split; [|done]]]].
  - unfold Conditions.articlesInSync in *. cbn [fst snd ctxArticles] in *.
    rewrite Hsync. unfold ArticleStore.addArticle.
    rewrite getArticles_put_newest by done.
    by rewrite reverse_app.
  - apply lookup_insert_eq.
  - apply Forall_fmap, Forall_true. done.
  - apply length_fmap.
Qed.

Lemma addArticle_keeps_list_in_sync_witness :
  let w := loadData (AppStore.initial, Sample.db1) in
  let r := AppStore.addArticle "a9" 60 "T" [Sample.segment0] None w in
  Conditions.articlesInSync r.2
  ∧ ctxArticles r.2.1
    = [ArticleStore.lightweight (Article.mk "a9" "T" [Sample.segment0] None 60);
       Sample.article1].
Proof.
  cbv zeta. split.
  - apply (addArticle_keeps_list_in_sync "a9" 60 "T" [Sample.segment0] None
             (loadData (AppStore.initial, Sample.db1))).
    + apply (bool_decide_unpack _). vm_compute. exact I.
    + reflexivity.
    + apply (bool_decide_unpack _). vm_compute. exact I.
    + reflexivity.
  - reflexivity.
Defined.

End ArticleListFacts.
